(** * Prolog-Parser: lexer and recursive-descent syntax checker

    A shallow embedding of [src/main.py] (the classes [Lexer] and
    [Parser], [process_file] and the loop of [main]) together with the
    properties of its specification.

    Conventions of the embedding.
    - A Python [str] is a [string]; the characters are the code points
      0..255, on which the regular expression class [\d] is exactly
      [0-9].
    - A token is the Python triple [(kind, text, line)]; the kind is the
      string tag the source uses, the line an unbounded integer.
    - The methods of [Parser] mutate [self.pos] and [self.errors] and may
      raise [IndexError] in [current_token]; they are functions of a
      small state-and-error monad over the record [Parser], the state
      of one parser.  The module [Heap] has the same methods once more
      on the objects of the interpreter (the objects by address, the
      list objects that are shared and changed in place, the global
      [DEBUG], what was printed), and the two are shown to agree.
    - [while] loops and the recursion of [parse_term] take a fuel
      argument; running out of fuel is the outcome [OutOfFuel], which is
      distinct from every outcome of the program, and the termination
      theorems show that a fuel linear in the number of tokens is
      enough.  The stack is unbounded: the recursion limit of the
      interpreter is not part of the model.
    - A file is what [os.path.exists], [open] and [read] make of its
      name: missing, raising [IOError], raising [UnicodeDecodeError],
      or read as a text.  Of [main] the loop is modelled; writing
      [parser_output.txt] and printing are not. *)

From Stdlib Require Import String Ascii List ZArith Lia Bool Arith.
From Stdlib Require Import DecimalString Sorted.
Import ListNotations.
Local Open Scope string_scope.

(* ================================================================== *)
(** * Tokens *)

Definition Token : Type := (string * string * Z)%type.

(** [token[0]], [token[1]] and [token[2]]. *)
Definition kind (t : Token) : string := fst (fst t).
Definition text (t : Token) : string := snd (fst t).
Definition line (t : Token) : Z := snd t.

(** [str(n)] for a Python integer. *)
Definition str_int (n : Z) : string := NilZero.string_of_int (Z.to_int n).

(* ================================================================== *)
(** * Lexer *)

Module Lexer.

(** Character classes of [token_specification]. *)
Definition in_range (lo hi c : ascii) : bool :=
  (nat_of_ascii lo <=? nat_of_ascii c)%nat && (nat_of_ascii c <=? nat_of_ascii hi)%nat.

(** [\d] *)
Definition is_digit (c : ascii) : bool := in_range "0" "9" c.
(** [[a-z]] *)
Definition is_lower (c : ascii) : bool := in_range "a" "z" c.
(** [[A-Z_]] *)
Definition is_upper_ (c : ascii) : bool := in_range "A" "Z" c || Ascii.eqb c "_".
(** [[a-zA-Z0-9_]] *)
Definition is_word (c : ascii) : bool :=
  in_range "a" "z" c || in_range "A" "Z" c || in_range "0" "9" c || Ascii.eqb c "_".
(** [[\.,\(\),]] *)
Definition is_special1 (c : ascii) : bool :=
  Ascii.eqb c "." || Ascii.eqb c "," || Ascii.eqb c "(" || Ascii.eqb c ")".
(** [[ \t]] *)
Definition is_blank (c : ascii) : bool := Ascii.eqb c " " || Ascii.eqb c "009".
(** [\n] *)
Definition is_newline (c : ascii) : bool := Ascii.eqb c "010".

(** A greedy run [p*]: the longest prefix of [s] whose characters are in
    [p], and what follows it. *)
Fixpoint span (p : ascii -> bool) (s : string) : string * string :=
  match s with
  | EmptyString => (EmptyString, EmptyString)
  | String c r =>
      if p c then let (v, rest) := span p r in (String c v, rest)
      else (EmptyString, s)
  end.

(** What follows a leading [-], for the two-character alternatives [\?\-]
    and [\:\-]. *)
Definition after_dash (r : string) : option string :=
  match r with
  | String c r' => if Ascii.eqb c "-" then Some r' else None
  | EmptyString => None
  end.

(** [get_token(self.text, pos)], on [s = self.text[pos:]]: the compiled
    alternation tried at the head of [s], alternatives in the order of
    [token_specification].  The answer is [(m.lastgroup, m.group(),
    self.text[m.end():])], or [None] when nothing matches (only at the
    end of the text: [.] and [\n] together accept every character). *)
Definition get_token (s : string) : option (string * string * string) :=
  match s with
  | EmptyString => None
  | String c r =>
      if is_digit c then
        let (v, rest) := span is_digit r in Some ("NUMBER", String c v, rest)
      else if is_lower c then
        let (v, rest) := span is_word r in Some ("ATOM", String c v, rest)
      else if is_upper_ c then
        let (v, rest) := span is_word r in Some ("VARIABLE", String c v, rest)
      else
        match (if Ascii.eqb c "?" then after_dash r else None) with
        | Some rest => Some ("SPECIAL", "?-", rest)
        | None =>
        match (if Ascii.eqb c ":" then after_dash r else None) with
        | Some rest => Some ("SPECIAL", ":-", rest)
        | None =>
          if is_special1 c then Some ("SPECIAL", String c "", r)
          else if is_blank c then
            let (v, rest) := span is_blank r in Some ("SKIP", String c v, rest)
          else if is_newline c then Some ("NEWLINE", String c "", r)
          else Some ("MISMATCH", String c "", r)
        end
        end
  end.

(** The attributes of a [Lexer] object. *)
Record t : Type := mk { text : string; tokens : list Token; line : Z }.

(** The body of the [while pos < len(self.text)] loop of [tokenize], with
    [rest = self.text[pos:]]. *)
Fixpoint tokenize_loop (fuel : nat) (rest : string) (self : t) : option t :=
  match rest with
  | EmptyString => Some self
  | String _ _ =>
      match fuel with
      | O => None
      | S fuel' =>
          match get_token rest with
          | Some (kind, value, rest') =>
              let self' :=
                if kind =? "NEWLINE" then
                  mk (text self) (tokens self) (line self + 1)
                else if kind =? "SKIP" then self
                else if kind =? "MISMATCH" then
                  mk (text self) (tokens self ++ [("ERROR", value, line self)]) (line self)
                else
                  mk (text self) (tokens self ++ [(kind, value, line self)]) (line self) in
              tokenize_loop fuel' rest' self'
          | None => Some self
          end
      end
  end.

Definition tokenize (fuel : nat) (self : t) : option t :=
  match tokenize_loop fuel (text self) self with
  | Some self' =>
      Some (mk (text self') (tokens self' ++ [("EOF", "", line self')]) (line self'))
  | None => None
  end.

(** [Lexer(text)] *)
Definition init (fuel : nat) (text : string) : option t :=
  tokenize fuel (mk text [] 1).

Definition get_tokens (self : t) : list Token := tokens self.

End Lexer.

(* ================================================================== *)
(** * The monad of the parser's methods *)

(** The attributes of a [Parser] object. *)
Record Parser : Type := mkParser
  { tokens : list Token; pos : nat; errors : list string }.

(** How a call ends: it returns, it raises [IndexError] (the only
    exception the class can raise, in [self.tokens[self.pos]]), or the
    model has no fuel left. *)
Inductive result (A : Type) : Type :=
| Ok (a : A)
| IndexError
| OutOfFuel.
Arguments Ok {A} a.
Arguments IndexError {A}.
Arguments OutOfFuel {A}.

Definition M (A : Type) : Type := Parser -> result (A * Parser).

Definition ret {A} (a : A) : M A := fun self => Ok (a, self).

Definition bind {A B} (m : M A) (k : A -> M B) : M B :=
  fun self =>
    match m self with
    | Ok (a, self') => k a self'
    | IndexError => IndexError
    | OutOfFuel => OutOfFuel
    end.

Notation "x <- m ;; k" := (bind m (fun x => k))
  (at level 61, m at next level, right associativity).
Notation "m ;; k" := (bind m (fun _ => k))
  (at level 61, right associativity).

(** [while cond: body], at most [fuel] tests of the condition. *)
Fixpoint while (fuel : nat) (cond : M bool) (body : M unit) : M unit :=
  match fuel with
  | O => fun _ => OutOfFuel
  | S fuel' =>
      c <- cond ;;
      if (c : bool) then body ;; while fuel' cond body else ret tt
  end.

(* ================================================================== *)
(** * Parser *)

(** [DEBUG = False]: the module-level flag, read by [match] and written
    nowhere. *)
Definition DEBUG : bool := false.

(** [print("Matched:", token)] writes to the console and touches no
    attribute of the parser. *)
Definition print_matched (token : Token) : M unit := ret tt.

(** [Parser(tokens)] *)
Definition Parser_init (tokens : list Token) : Parser := mkParser tokens 0 [].

Definition current_token : M Token :=
  fun self =>
    match nth_error (tokens self) (pos self) with
    | Some token => Ok (token, self)
    | None => IndexError
    end.

(** [if self.pos < len(self.tokens) - 1: self.pos += 1]; the subtraction
    is in [Z], as [len([]) - 1] is [-1] in the source. *)
Definition advance : M unit :=
  fun self =>
    if (Z.of_nat (pos self) <? Z.of_nat (length (tokens self)) - 1)%Z
    then Ok (tt, mkParser (tokens self) (pos self + 1) (errors self))
    else Ok (tt, self).

Definition error (message : string) (line : Z) : M unit :=
  fun self =>
    let error_msg := "Syntax Error at line " ++ str_int line ++ ": " ++ message in
    Ok (tt, mkParser (tokens self) (pos self) (errors self ++ [error_msg])).

(** [f"{expected_value}"] for the optional argument of [match]. *)
Definition str_opt (v : option string) : string :=
  match v with Some s => s | None => "None" end.

Definition match_ (expected_type : string) (expected_value : option string) : M bool :=
  token <- current_token ;;
  if (kind token =? expected_type) &&
     match expected_value with None => true | Some v => text token =? v end
  then
    (if DEBUG then print_matched token else ret tt) ;;
    advance ;;
    ret true
  else
    error ("Expected " ++ expected_type ++ " '" ++ str_opt expected_value ++
           "' but found " ++ kind token ++ " '" ++ text token ++ "'") (line token) ;;
    ret false.

(** [self.current_token()[1] == value] and [self.current_token()[0] == k] *)
Definition text_is (value : string) : M bool :=
  token <- current_token ;; ret (text token =? value).
Definition kind_is (k : string) : M bool :=
  token <- current_token ;; ret (kind token =? k).
(** [self.current_token()[2]] *)
Definition current_line : M Z :=
  token <- current_token ;; ret (line token).

Definition parse_atom : M unit :=
  c <- kind_is "ATOM" ;;
  if (c : bool) then match_ "ATOM" None ;; ret tt
  else l <- current_line ;; error "Expected an atom" l ;; advance.

(** [parse_term] and [parse_term_list] call each other. *)
Fixpoint parse_term (fuel : nat) : M unit :=
  match fuel with
  | O => fun _ => OutOfFuel
  | S fuel' =>
      token <- current_token ;;
      if kind token =? "ATOM" then
        parse_atom ;;
        c <- text_is "(" ;;
        if (c : bool) then
          match_ "SPECIAL" (Some "(") ;;
          parse_term_list fuel' ;;
          match_ "SPECIAL" (Some ")") ;;
          ret tt
        else ret tt
      else if kind token =? "VARIABLE" then match_ "VARIABLE" None ;; ret tt
      else if kind token =? "NUMBER" then match_ "NUMBER" None ;; ret tt
      else
        error "Invalid term: expected atom, variable, numeral, or structure" (line token) ;;
        advance
  end
with parse_term_list (fuel : nat) : M unit :=
  match fuel with
  | O => fun _ => OutOfFuel
  | S fuel' =>
      parse_term fuel' ;;
      while fuel' (text_is ",")
        (match_ "SPECIAL" (Some ",") ;; parse_term fuel')
  end.

Definition parse_predicate (fuel : nat) : M unit :=
  c <- kind_is "ATOM" ;;
  if (c : bool) then
    parse_atom ;;
    c' <- text_is "(" ;;
    if (c' : bool) then
      match_ "SPECIAL" (Some "(") ;;
      parse_term_list fuel ;;
      match_ "SPECIAL" (Some ")") ;;
      ret tt
    else ret tt
  else
    l <- current_line ;;
    error "Predicate must start with an atom" l ;;
    advance.

Definition parse_predicate_list (fuel : nat) : M unit :=
  parse_predicate fuel ;;
  while fuel (text_is ",")
    (match_ "SPECIAL" (Some ",") ;; parse_predicate fuel).

Definition parse_query (fuel : nat) : M unit :=
  c <- text_is "?-" ;;
  if (c : bool) then
    match_ "SPECIAL" (Some "?-") ;;
    parse_predicate_list fuel ;;
    match_ "SPECIAL" (Some ".") ;;
    ret tt
  else
    l <- current_line ;;
    error "Query should start with '?-'" l.

Definition parse_clause (fuel : nat) : M unit :=
  parse_predicate fuel ;;
  c <- text_is "." ;;
  if (c : bool) then match_ "SPECIAL" (Some ".") ;; ret tt
  else
    c' <- text_is ":-" ;;
    if (c' : bool) then
      match_ "SPECIAL" (Some ":-") ;;
      parse_predicate_list fuel ;;
      match_ "SPECIAL" (Some ".") ;;
      ret tt
    else
      l <- current_line ;;
      error "Clause must end with '.' or use ':-' followed by a predicate list and a '.'" l ;;
      advance.

(** [self.current_token()[0] != 'EOF' and self.current_token()[1] != '?-'] *)
Definition clause_cond : M bool :=
  k <- kind_is "EOF" ;;
  if negb k then t <- text_is "?-" ;; ret (negb t) else ret false.

Definition parse_clause_list (fuel : nat) : M unit :=
  while fuel clause_cond (parse_clause fuel).

Definition parse_program (fuel : nat) : M unit :=
  c <- text_is "?-" ;;
  if (c : bool) then parse_query fuel
  else
    parse_clause_list fuel ;;
    c' <- text_is "?-" ;;
    if (c' : bool) then parse_query fuel else ret tt.

(* ================================================================== *)
(** * The pipeline of [process_file], from the text that was read *)

Definition process_text (fuel : nat) (content : string) : result (list string) :=
  match Lexer.init fuel content with
  | None => OutOfFuel
  | Some lexer =>
      let tokens := Lexer.get_tokens lexer in
      let parser := Parser_init tokens in
      match parse_program fuel parser with
      | Ok (_, parser') => Ok (errors parser')
      | IndexError => IndexError
      | OutOfFuel => OutOfFuel
      end
  end.

(** A fuel that is enough for every text (see [process_text_enough]). *)
Definition fuel_for (content : string) : nat := 2 * String.length content + 2.

Definition check_syntax (content : string) : result (list string) :=
  process_text (fuel_for content) content.

(* ================================================================== *)
(** * Vocabulary of the specification *)

(** The number of newline characters of a text. *)
Fixpoint count_newlines (s : string) : Z :=
  match s with
  | EmptyString => 0
  | String c r => ((if Lexer.is_newline c then 1 else 0) + count_newlines r)%Z
  end.

(** The kinds [tokenize] appends inside its loop. *)
Definition scanned_kind (k : string) : Prop :=
  k = "NUMBER" \/ k = "ATOM" \/ k = "VARIABLE" \/ k = "SPECIAL" \/ k = "ERROR".

(** A token [tokenize] appends inside its loop: its kind is a scanned
    kind, and an ERROR token holds one character. *)
Definition scanned_token (t : Token) : Prop :=
  scanned_kind (kind t) /\ (kind t = "ERROR" -> String.length (text t) = 1%nat).

(** The scan position is at a character that begins none of the token
    groups NUMBER, ATOM, VARIABLE and SPECIAL and is neither blank
    (space or tab) nor a newline. *)
Definition begins_special (s : string) : bool :=
  prefix "?-" s || prefix ":-" s ||
  match s with String c _ => Lexer.is_special1 c | EmptyString => false end.

Definition unrecognized (s : string) : bool :=
  match s with
  | EmptyString => false
  | String c _ =>
      negb (Lexer.is_digit c) && negb (Lexer.is_lower c) && negb (Lexer.is_upper_ c) &&
      negb (begins_special s) && negb (Lexer.is_blank c) && negb (Lexer.is_newline c)
  end.

(** The last character of the text is [?] or [:], the marks that make
    one SPECIAL token with a dash after them. *)
Fixpoint ends_in_mark (s : string) : bool :=
  match s with
  | EmptyString => false
  | String c EmptyString => Ascii.eqb c "?" || Ascii.eqb c ":"
  | String _ r => ends_in_mark r
  end.

(** The character [c] after the text [before] is the dash that ends a
    [?-] or a [:-]. *)
Definition dash_of_special (before : string) (c : ascii) : bool :=
  Ascii.eqb c "-" && ends_in_mark before.

(** The character [c], between the texts [before] and [after], belongs
    to no NUMBER, ATOM, VARIABLE or SPECIAL match and is neither blank
    nor a newline: it begins none of these, and it is not the dash that
    ends a [?-] or a [:-].  (A letter, a digit or an underscore inside
    a longer token begins a match itself.) *)
Definition unrecognized_at (before : string) (c : ascii) (after : string) : bool :=
  unrecognized (String c after) && negb (dash_of_special before c).

(** A match of the alternation, when the character [c] and the text
    [after] follow what was left. *)
Definition followed (c : ascii) (after : string) (r : string * string * string)
    : string * string * string :=
  let '(k, v, rest) := r in (k, v, rest ++ String c after).

(** A token with its line moved by [n]. *)
Definition shift_line (n : Z) (t : Token) : Token := (kind t, text t, (line t + n)%Z).

(** A token sequence that ends in the sentinel the lexer appends. *)
Definition ends_in_EOF (toks : list Token) : Prop :=
  exists pre l, toks = (pre ++ [("EOF", "", l)])%list.

(** The cursor is on a token. *)
Definition in_bounds (self : Parser) : Prop :=
  (pos self < length (tokens self))%nat.

(** The tokens after the one under the cursor. *)
Definition remaining (self : Parser) : nat :=
  length (tokens self) - 1 - pos self.

(** The text of an entry of [self.errors], as [error] builds it. *)
Definition error_msg (line : Z) (message : string) : string :=
  "Syntax Error at line " ++ str_int line ++ ": " ++ message.

(** An entry written by the failure branch of [parse_query]. *)
Definition query_error (e : string) : Prop :=
  exists l, e = error_msg l "Query should start with '?-'"%string.

(** What a method may do to the object: the token list stays, the cursor
    does not move back and stays on a token, and [self.errors] grows at
    its end by entries that satisfy [G]. *)
Definition ext (G : string -> Prop) (s s' : Parser) : Prop :=
  tokens s' = tokens s /\
  (pos s <= pos s')%nat /\
  (pos s' < length (tokens s))%nat /\
  exists added, errors s' = (errors s ++ added)%list /\ Forall G added.

(** A call from state [s] does not raise, and if it returns it has
    respected [ext]; with [p = true] it has also moved the cursor
    whenever the cursor was not on the last token. *)
Definition good_at {A} (G : string -> Prop) (p : bool) (m : M A) (s : Parser) : Prop :=
  match m s with
  | Ok (_, s') =>
      ext G s s' /\
      (p = true -> (pos s + 1 < length (tokens s))%nat -> (pos s < pos s')%nat)
  | IndexError => False
  | OutOfFuel => True
  end.

Definition good {A} (G : string -> Prop) (p : bool) (m : M A) : Prop :=
  forall s, in_bounds s -> good_at G p m s.

(** The call returns. *)
Definition returns {A} (m : M A) (s : Parser) : Prop :=
  exists a s', m s = Ok (a, s').

(** Every return of [m] is a return of [m']. *)
Definition le_M {A} (m m' : M A) : Prop :=
  forall s r, m s = Ok r -> m' s = Ok r.

(** The methods of the class, as one type of calls. *)
Inductive operation : Type :=
| OpCurrentToken
| OpAdvance
| OpMatch (expected_type : string) (expected_value : option string)
| OpError (message : string) (line : Z)
| OpParseProgram
| OpParseClauseList
| OpParseClause
| OpParseQuery
| OpParsePredicateList
| OpParsePredicate
| OpParseTermList
| OpParseTerm
| OpParseAtom.

Definition run (op : operation) (fuel : nat) : M unit :=
  match op with
  | OpCurrentToken => current_token ;; ret tt
  | OpAdvance => advance
  | OpMatch k v => match_ k v ;; ret tt
  | OpError m l => error m l
  | OpParseProgram => parse_program fuel
  | OpParseClauseList => parse_clause_list fuel
  | OpParseClause => parse_clause fuel
  | OpParseQuery => parse_query fuel
  | OpParsePredicateList => parse_predicate_list fuel
  | OpParsePredicate => parse_predicate fuel
  | OpParseTermList => parse_term_list fuel
  | OpParseTerm => parse_term fuel
  | OpParseAtom => parse_atom
  end.

(** The message of the failure branch of [parse_query]. *)
Definition query_message : string := "Query should start with '?-'".

(** [G] holds of every entry [error] builds from another message. *)
Definition allows (G : string -> Prop) : Prop :=
  forall l m, m <> query_message -> G (error_msg l m).

(** The success branch of [parse_query]. *)
Definition query_body (fuel : nat) : M unit :=
  match_ "SPECIAL" (Some "?-") ;;
  parse_predicate_list fuel ;;
  match_ "SPECIAL" (Some ".") ;;
  ret tt.

(** No constraint on the entries added to [self.errors]. *)
Definition any_error : string -> Prop := fun _ => True.

(** No character of the text is a colon. *)
Fixpoint no_colon (s : string) : bool :=
  match s with
  | EmptyString => true
  | String c r => negb (Ascii.eqb c ":") && no_colon r
  end.

(** The message [match] records on a mismatch. *)
Definition expected_message (k : string) (v : option string) (token : Token) : string :=
  "Expected " ++ k ++ " '" ++ str_opt v ++
  "' but found " ++ kind token ++ " '" ++ text token ++ "'".

(** [match] succeeds on [token]. *)
Definition matches (k : string) (v : option string) (token : Token) : bool :=
  (kind token =? k) &&
  match v with None => true | Some x => text token =? x end.

(** The state after an [advance] from [s]. *)
Definition advanced (s : Parser) : Parser :=
  mkParser (tokens s)
           (if (pos s + 1 <? length (tokens s))%nat then pos s + 1 else pos s)
           (errors s).

(** The state after [error message line] from [s]. *)
Definition with_error (s : Parser) (l : Z) (message : string) : Parser :=
  mkParser (tokens s) (pos s) (errors s ++ [error_msg l message]).

(** The sentinel alone: the tokens of the empty text. *)
Definition toks_empty : list Token := [("EOF", "", 1%Z)].

(** The tokens of [?- a. b(]: a query followed by a clause that is cut
    short. *)
Definition toks_query_open : list Token :=
  [("SPECIAL", "?-", 1%Z); ("ATOM", "a", 1%Z); ("SPECIAL", ".", 1%Z);
   ("ATOM", "b", 1%Z); ("SPECIAL", "(", 1%Z); ("EOF", "", 1%Z)].

(** The tokens of [a.]. *)
Definition toks_fact : list Token :=
  [("ATOM", "a", 1%Z); ("SPECIAL", ".", 1%Z); ("EOF", "", 1%Z)].

(** The tokens of [1#]. *)
Definition toks_bad : list Token :=
  [("NUMBER", "1", 1%Z); ("ERROR", "#", 1%Z); ("EOF", "", 1%Z)].

(** Three tokens whose last has the kind EOF and the text of a comma:
    not a sequence the lexer can produce. *)
Definition toks_comma_EOF : list Token :=
  [("ATOM", "a", 1%Z); ("SPECIAL", "(", 1%Z); ("EOF", ",", 1%Z)].

(** [parse_program] with each call of [parse_query] replaced by the
    success branch of [parse_query]. *)
Definition parse_program_guarded (fuel : nat) : M unit :=
  c <- text_is "?-" ;;
  if (c : bool) then query_body fuel
  else
    parse_clause_list fuel ;;
    c' <- text_is "?-" ;;
    if (c' : bool) then query_body fuel else ret tt.

(* ================================================================== *)
(** * Vocabulary for the lexer's output *)

(** Every character of the text is in the class. *)
Fixpoint all_chars (p : ascii -> bool) (s : string) : bool :=
  match s with
  | EmptyString => true
  | String c r => p c && all_chars p r
  end.

(** The six texts of the group SPECIAL. *)
Definition special_text (v : string) : bool :=
  (v =? "?-") || (v =? ":-") || (v =? ".") || (v =? ",") || (v =? "(") || (v =? ")").

(** The character of an ERROR token: in none of the classes that begin
    a token or are skipped. *)
Definition stray_char (c : ascii) : bool :=
  negb (Lexer.is_digit c) && negb (Lexer.is_lower c) && negb (Lexer.is_upper_ c) &&
  negb (Lexer.is_special1 c) && negb (Lexer.is_blank c) && negb (Lexer.is_newline c).

(** The text of a scanned token has the shape of its kind. *)
Definition token_ok (t : Token) : bool :=
  if kind t =? "NUMBER" then
    match text t with
    | String c r => Lexer.is_digit c && all_chars Lexer.is_digit r
    | EmptyString => false
    end
  else if kind t =? "ATOM" then
    match text t with
    | String c r => Lexer.is_lower c && all_chars Lexer.is_word r
    | EmptyString => false
    end
  else if kind t =? "VARIABLE" then
    match text t with
    | String c r => Lexer.is_upper_ c && all_chars Lexer.is_word r
    | EmptyString => false
    end
  else if kind t =? "SPECIAL" then special_text (text t)
  else if kind t =? "ERROR" then
    match text t with
    | String c EmptyString => stray_char c
    | _ => false
    end
  else false.

(** The text without its spaces, tabs and newlines. *)
Fixpoint strip (s : string) : string :=
  match s with
  | EmptyString => EmptyString
  | String c r =>
      if Lexer.is_blank c || Lexer.is_newline c then strip r else String c (strip r)
  end.

(** The texts of the tokens, one after the other. *)
Definition concat_texts (toks : list Token) : string :=
  fold_right (fun t acc => text t ++ acc) "" toks.

(** The line of the first token is at most the line of the second. *)
Definition line_le (a b : Token) : Prop := (line a <= line b)%Z.

(** A class that holds no space, tab or newline. *)
Definition solid (p : ascii -> bool) : Prop :=
  p " "%char = false /\ p "009"%char = false /\ p "010"%char = false.

(** [toks] is what [Lexer(content).get_tokens()] returns. *)
Definition lexes (content : string) (toks : list Token) : Prop :=
  exists fuel lexer,
    Lexer.init fuel content = Some lexer /\ Lexer.get_tokens lexer = toks.

(** A text of two lines with a blank and a stray character, and its
    tokens. *)
Definition text_two_lines : string := "a(X) :- b.
?- #c".

Definition toks_two_lines : list Token :=
  [("ATOM", "a", 1%Z); ("SPECIAL", "(", 1%Z); ("VARIABLE", "X", 1%Z);
   ("SPECIAL", ")", 1%Z); ("SPECIAL", ":-", 1%Z); ("ATOM", "b", 1%Z);
   ("SPECIAL", ".", 1%Z); ("SPECIAL", "?-", 2%Z); ("ERROR", "#", 2%Z);
   ("ATOM", "c", 2%Z); ("EOF", "", 2%Z)].

(* ================================================================== *)
(** * Vocabulary for the parser's state changes *)

(** The two ways a method changes the parser: one [advance], or one
    [error] whose line is the line of the token under the cursor. *)
Inductive steps : Parser -> Parser -> Prop :=
| steps_refl s : steps s s
| steps_advance s s1 : steps s s1 -> steps s (advanced s1)
| steps_error s s1 token message :
    steps s s1 ->
    nth_error (tokens s1) (pos s1) = Some token ->
    steps s (with_error s1 (line token) message).

(** A call from [s] does not raise, and if it returns, the state it
    leaves is reached from [s] by [steps]. *)
Definition traced_at {A} (m : M A) (s : Parser) : Prop :=
  match m s with
  | Ok (_, s') => steps s s'
  | IndexError => False
  | OutOfFuel => True
  end.

Definition traced {A} (m : M A) : Prop :=
  forall s, in_bounds s -> traced_at m s.

(** An entry of [self.errors] from its line and its message. *)
Definition entry (e : Z * string) : string := error_msg (fst e) (snd e).

(** The lines of the entries never go down. *)
Definition entry_le (a b : Z * string) : Prop := (fst a <= fst b)%Z.

(* ================================================================== *)
(** * The grammar of the parse functions

    As the comments of the parse functions give it: a program is a
    clause list, optionally followed by a query (or a single query); a
    clause is [predicate "."] or [predicate ":-" predicate-list "."]; a
    query is ["?-" predicate-list "."]; a predicate is
    [atom [ "(" term-list ")" ]]; a term is an atom, a variable, a
    structure [atom "(" term-list ")"] or a numeral.  The clause list
    may be empty, as the loop of [parse_clause_list] allows. *)

(** A token of kind SPECIAL with the given text. *)
Definition is_special (v : string) (t : Token) : Prop :=
  kind t = "SPECIAL" /\ text t = v.

Definition is_atom (t : Token) : Prop := kind t = "ATOM".

Inductive term : list Token -> Prop :=
| term_atom a : is_atom a -> term [a]
| term_structure a l args r :
    is_atom a -> is_special "(" l -> term_list args -> is_special ")" r ->
    term (a :: l :: args ++ [r])
| term_variable x : kind x = "VARIABLE" -> term [x]
| term_numeral n : kind n = "NUMBER" -> term [n]
with term_list : list Token -> Prop :=
| term_list_one w : term w -> term_list w
| term_list_more w c ws :
    term w -> is_special "," c -> term_list ws -> term_list (w ++ c :: ws).

Inductive predicate : list Token -> Prop :=
| predicate_atom a : is_atom a -> predicate [a]
| predicate_args a l args r :
    is_atom a -> is_special "(" l -> term_list args -> is_special ")" r ->
    predicate (a :: l :: args ++ [r]).

Inductive predicate_list : list Token -> Prop :=
| predicate_list_one p : predicate p -> predicate_list p
| predicate_list_more p c ps :
    predicate p -> is_special "," c -> predicate_list ps ->
    predicate_list (p ++ c :: ps).

Inductive clause : list Token -> Prop :=
| clause_fact p d : predicate p -> is_special "." d -> clause (p ++ [d])
| clause_rule p i body d :
    predicate p -> is_special ":-" i -> predicate_list body -> is_special "." d ->
    clause (p ++ i :: body ++ [d]).

Inductive query : list Token -> Prop :=
| query_intro q body d :
    is_special "?-" q -> predicate_list body -> is_special "." d ->
    query (q :: body ++ [d]).

Inductive clause_list : list Token -> Prop :=
| clause_list_nil : clause_list []
| clause_list_cons c cs : clause c -> clause_list cs -> clause_list (c ++ cs).

Inductive program : list Token -> Prop :=
| program_clauses cs : clause_list cs -> program cs
| program_query cs q : clause_list cs -> query q -> program (cs ++ q).

(** Items that each follow a comma: what the loops of
    [parse_term_list] and [parse_predicate_list] read. *)
Inductive comma_run (X : list Token -> Prop) : list Token -> Prop :=
| comma_run_nil : comma_run X []
| comma_run_cons c w ws :
    is_special "," c -> X w -> comma_run X ws -> comma_run X (c :: w ++ ws).

(** The tokens from the cursor on. *)
Definition input (s : Parser) : list Token := skipn (pos s) (tokens s).

(** A call that returns without a new error has read, from the cursor
    on, tokens that make up an [X]. *)
Definition recognizes (X : list Token -> Prop) (m : M unit) : Prop :=
  forall s s',
    ends_in_EOF (tokens s) -> in_bounds s ->
    m s = Ok (tt, s') -> errors s' = errors s ->
    exists w, X w /\ input s = (w ++ input s')%list.

Scheme term_min := Minimality for term Sort Prop
  with term_list_min := Minimality for term_list Sort Prop.

(** After the call the parser has no new error, the same tokens, and
    [rest] from the cursor on. *)
Definition left_with (s s' : Parser) (rest : list Token) : Prop :=
  errors s' = errors s /\ tokens s' = tokens s /\ input s' = rest.

(** What may follow a term or a predicate: a token whose text does not
    open an argument list. *)
Definition after_item (rest : list Token) : Prop :=
  exists t r, rest = t :: r /\ text t <> "(".

(** What may follow a term list or a predicate list: a token that
    neither opens an argument list nor goes on with the list. *)
Definition after_list (rest : list Token) : Prop :=
  exists t r, rest = t :: r /\ text t <> "(" /\ text t <> ",".

(** Where the loop of [parse_clause_list] stops: at a token of kind EOF
    or of text [?-]. *)
Definition after_clauses (rest : list Token) : Prop :=
  exists t r, rest = t :: r /\ (kind t = "EOF" \/ text t = "?-").

(** No atom has the text of the query mark.  (So it is for the tokens
    of the lexer, whose atoms begin with a letter.) *)
Definition atoms_plain (toks : list Token) : Prop :=
  Forall (fun t => is_atom t -> text t <> "?-") toks.

(** [parse_term_list] and [parse_predicate_list], when the fuel of the
    loop and the fuel of the items differ. *)
Definition item_list (item : M unit) (f : nat) : M unit :=
  item ;; while f (text_is ",") (match_ "SPECIAL" (Some ",") ;; item).

Combined Scheme term_and_list_min from term_min, term_list_min.

(* ================================================================== *)
(** * File processing

    [process_file] and [main] read files by name.  What they see of the
    file system is, for each name, the answer of [os.path.exists] and
    what [open(filename, 'r')] followed by [file.read()] does: raise
    [IOError] (the class [OSError] of Python 3, with its subclasses
    [FileNotFoundError], [PermissionError], [IsADirectoryError]), raise
    an exception of another class, which [except IOError] does not
    catch ([UnicodeDecodeError] when the bytes of the file are not text
    in the encoding of [open], [ValueError] for a name that holds a
    null character), or return the text.  The two answers are
    independent in the model.  Of [main] the loop is modelled, up to
    the list [output_lines] it has built when it ends; writing that
    list to [parser_output.txt] and printing it is not. *)



(** How a call of [process_file] or of [main] ends: it returns, an
    exception of the named class leaves it, or the model has no fuel
    left. *)
Inductive ending (A : Type) : Type :=
| Returns (a : A)
| Raises (exception : string)
| Unfinished.
Arguments Returns {A} a.
Arguments Raises {A} exception.
Arguments Unfinished {A}.













(* ================================================================== *)
(** * The objects of a run

    [process_file] builds a [Lexer] and a [Parser].  Each is an object
    whose attributes refer to list objects that the methods change in
    place ([self.tokens.append], [self.errors.append]); the parser's
    [self.tokens] is the very list of the lexer; [match] reads the
    module-level flag [DEBUG] and may print.  Here the state of the
    interpreter is explicit: the flag, every object there is (those of
    earlier runs included), and what was printed, so that what a run
    reads and what it leaves behind can be stated.  The methods below
    are the methods of the source once more, now on the address of
    [self]. *)

Module Heap.

(** The address of an object. *)
Definition loc : Type := nat.

Inductive object : Type :=
| TokenList (items : list Token)                     (* a list of token tuples *)
| StringList (items : list string)                   (* a list of [str] *)
| LexerObject (text : string) (tokens : loc) (line : Z)
| ParserObject (tokens : loc) (pos : nat) (errors : loc).

(** The state of the interpreter: the value of the global [DEBUG], the
    objects by address, and the tokens [print("Matched:", token)] was
    called with. *)
Record world : Type := mkWorld
  { DEBUG : bool; objects : list object; printed : list Token }.

(** A computation on that state; it returns, or an exception leaves
    it, or the fuel of the model is used up. *)
Definition H (A : Type) : Type := world -> ending (A * world).

Definition ret {A} (a : A) : H A := fun w => Returns (a, w).

Definition raise {A} (exception : string) : H A := fun _ => Raises exception.

Definition out_of_fuel {A} : H A := fun _ => Unfinished.

Definition bind {A B} (m : H A) (k : A -> H B) : H B :=
  fun w =>
    match m w with
    | Returns (a, w') => k a w'
    | Raises exception => Raises exception
    | Unfinished => Unfinished
    end.

Declare Scope heap_scope.
Notation "x <- m ;; k" := (bind m (fun x => k))
  (at level 61, m at next level, right associativity) : heap_scope.
Notation "m ;; k" := (bind m (fun _ => k))
  (at level 61, right associativity) : heap_scope.
Local Open Scope heap_scope.

(** [objs[l] = o] *)
Fixpoint update (objs : list object) (l : loc) (o : object) : list object :=
  match objs, l with
  | [], _ => []
  | _ :: rest, O => o :: rest
  | x :: rest, S l' => x :: update rest l' o
  end.

(** A new object; its address is one that no object has. *)
Definition new (o : object) : H loc :=
  fun w => Returns (length (objects w), mkWorld (DEBUG w) (objects w ++ [o]) (printed w)).

Definition load (l : loc) : H object :=
  fun w =>
    match nth_error (objects w) l with
    | Some o => Returns (o, w)
    | None => Raises "AttributeError"
    end.

Definition store (l : loc) (o : object) : H unit :=
  fun w => Returns (tt, mkWorld (DEBUG w) (update (objects w) l o) (printed w)).

(** The global [DEBUG]. *)
Definition global_DEBUG : H bool := fun w => Returns (DEBUG w, w).

(** [print("Matched:", token)] *)
Definition print_matched (token : Token) : H unit :=
  fun w => Returns (tt, mkWorld (DEBUG w) (objects w) (printed w ++ [token])).

(** The items of a list object. *)
Definition token_items (l : loc) : H (list Token) :=
  o <- load l ;;
  match o with TokenList items => ret items | _ => raise "TypeError" end.

Definition string_items (l : loc) : H (list string) :=
  o <- load l ;;
  match o with StringList items => ret items | _ => raise "TypeError" end.

(** [l.append(item)] *)
Definition append_token (l : loc) (item : Token) : H unit :=
  items <- token_items l ;; store l (TokenList (items ++ [item])).

Definition append_string (l : loc) (item : string) : H unit :=
  items <- string_items l ;; store l (StringList (items ++ [item])).

(** [while cond: body], at most [fuel] tests of the condition. *)
Fixpoint while (fuel : nat) (cond : H bool) (body : H unit) : H unit :=
  match fuel with
  | O => out_of_fuel
  | S fuel' =>
      c <- cond ;;
      if (c : bool) then body ;; while fuel' cond body else ret tt
  end.

(** ** Lexer *)

(** [self.text], [self.tokens] and [self.line] of a [Lexer]. *)
Definition lexer_text (self : loc) : H string :=
  o <- load self ;;
  match o with LexerObject text _ _ => ret text | _ => raise "AttributeError" end.

Definition lexer_tokens (self : loc) : H loc :=
  o <- load self ;;
  match o with LexerObject _ tokens _ => ret tokens | _ => raise "AttributeError" end.

Definition lexer_line (self : loc) : H Z :=
  o <- load self ;;
  match o with LexerObject _ _ line => ret line | _ => raise "AttributeError" end.

(** [self.line += 1] *)
Definition lexer_next_line (self : loc) : H unit :=
  o <- load self ;;
  match o with
  | LexerObject text tokens line => store self (LexerObject text tokens (line + 1))
  | _ => raise "AttributeError"
  end.

(** [text[pos:]] *)
Fixpoint string_from (pos : nat) (text : string) : string :=
  match pos, text with
  | O, _ => text
  | S pos', String _ r => string_from pos' r
  | S _, EmptyString => EmptyString
  end.

(** The branches on [kind] in the loop of [tokenize]. *)
Definition tokenize_branch (self : loc) (kind value : string) : H unit :=
  if kind =? "NEWLINE" then lexer_next_line self
  else if kind =? "SKIP" then ret tt
  else if kind =? "MISMATCH" then
    tokens <- lexer_tokens self ;;
    line <- lexer_line self ;;
    append_token tokens ("ERROR", value, line)
  else
    tokens <- lexer_tokens self ;;
    line <- lexer_line self ;;
    append_token tokens (kind, value, line).

(** The [while pos < len(self.text)] loop of [tokenize], from the value
    of the local variable [pos]; [m.end()] is [pos] plus the length of
    [m.group()]. *)
Fixpoint tokenize_loop (fuel : nat) (pos : nat) (self : loc) : H unit :=
  text <- lexer_text self ;;
  if (pos <? String.length text)%nat then
    match fuel with
    | O => out_of_fuel
    | S fuel' =>
        text' <- lexer_text self ;;
        match Lexer.get_token (string_from pos text') with
        | Some (kind, value, _) =>
            tokenize_branch self kind value ;;
            tokenize_loop fuel' (pos + String.length value) self
        | None => ret tt
        end
    end
  else ret tt.

Definition tokenize (fuel : nat) (self : loc) : H unit :=
  tokenize_loop fuel 0 self ;;
  tokens <- lexer_tokens self ;;
  line <- lexer_line self ;;
  append_token tokens ("EOF", "", line).

(** [Lexer(text)]: a new object with [self.text = text], [self.tokens]
    a new empty list and [self.line = 1], on which [tokenize] has
    run. *)
Definition Lexer_init (fuel : nat) (text : string) : H loc :=
  tokens <- new (TokenList []) ;;
  self <- new (LexerObject text tokens 1) ;;
  tokenize fuel self ;;
  ret self.

(** [return self.tokens]: the list itself, not a copy. *)
Definition get_tokens (self : loc) : H loc := lexer_tokens self.

(** ** Parser *)

(** [self.tokens], [self.pos] and [self.errors] of a [Parser]. *)
Definition parser_tokens (self : loc) : H loc :=
  o <- load self ;;
  match o with ParserObject tokens _ _ => ret tokens | _ => raise "AttributeError" end.

Definition parser_pos (self : loc) : H nat :=
  o <- load self ;;
  match o with ParserObject _ pos _ => ret pos | _ => raise "AttributeError" end.

Definition parser_errors (self : loc) : H loc :=
  o <- load self ;;
  match o with ParserObject _ _ errors => ret errors | _ => raise "AttributeError" end.

(** [self.pos += 1] *)
Definition parser_next_pos (self : loc) : H unit :=
  o <- load self ;;
  match o with
  | ParserObject tokens pos errors => store self (ParserObject tokens (pos + 1) errors)
  | _ => raise "AttributeError"
  end.

(** [Parser(tokens)]: a new object with [self.tokens] the list it is
    given, [self.pos = 0] and [self.errors] a new empty list. *)
Definition Parser_init (tokens : loc) : H loc :=
  errors <- new (StringList []) ;;
  new (ParserObject tokens 0 errors).

Definition current_token (self : loc) : H Token :=
  tokens <- parser_tokens self ;;
  pos <- parser_pos self ;;
  items <- token_items tokens ;;
  match nth_error items pos with
  | Some token => ret token
  | None => raise "IndexError"
  end.

Definition advance (self : loc) : H unit :=
  pos <- parser_pos self ;;
  tokens <- parser_tokens self ;;
  items <- token_items tokens ;;
  if (Z.of_nat pos <? Z.of_nat (length items) - 1)%Z
  then parser_next_pos self
  else ret tt.

Definition error (self : loc) (message : string) (line : Z) : H unit :=
  let error_msg := "Syntax Error at line " ++ str_int line ++ ": " ++ message in
  errors <- parser_errors self ;;
  append_string errors error_msg.

Definition match_ (self : loc) (expected_type : string) (expected_value : option string)
    : H bool :=
  token <- current_token self ;;
  if (kind token =? expected_type) &&
     match expected_value with None => true | Some v => text token =? v end
  then
    (debug <- global_DEBUG ;; if (debug : bool) then print_matched token else ret tt) ;;
    advance self ;;
    ret true
  else
    error self ("Expected " ++ expected_type ++ " '" ++ str_opt expected_value ++
                "' but found " ++ kind token ++ " '" ++ text token ++ "'") (line token) ;;
    ret false.

Definition text_is (self : loc) (value : string) : H bool :=
  token <- current_token self ;; ret (text token =? value).
Definition kind_is (self : loc) (k : string) : H bool :=
  token <- current_token self ;; ret (kind token =? k).
Definition current_line (self : loc) : H Z :=
  token <- current_token self ;; ret (line token).

Definition parse_atom (self : loc) : H unit :=
  c <- kind_is self "ATOM" ;;
  if (c : bool) then match_ self "ATOM" None ;; ret tt
  else l <- current_line self ;; error self "Expected an atom" l ;; advance self.

Fixpoint parse_term (fuel : nat) (self : loc) : H unit :=
  match fuel with
  | O => out_of_fuel
  | S fuel' =>
      token <- current_token self ;;
      if kind token =? "ATOM" then
        parse_atom self ;;
        c <- text_is self "(" ;;
        if (c : bool) then
          match_ self "SPECIAL" (Some "(") ;;
          parse_term_list fuel' self ;;
          match_ self "SPECIAL" (Some ")") ;;
          ret tt
        else ret tt
      else if kind token =? "VARIABLE" then match_ self "VARIABLE" None ;; ret tt
      else if kind token =? "NUMBER" then match_ self "NUMBER" None ;; ret tt
      else
        error self "Invalid term: expected atom, variable, numeral, or structure"
          (line token) ;;
        advance self
  end
with parse_term_list (fuel : nat) (self : loc) : H unit :=
  match fuel with
  | O => out_of_fuel
  | S fuel' =>
      parse_term fuel' self ;;
      while fuel' (text_is self ",")
        (match_ self "SPECIAL" (Some ",") ;; parse_term fuel' self)
  end.

Definition parse_predicate (fuel : nat) (self : loc) : H unit :=
  c <- kind_is self "ATOM" ;;
  if (c : bool) then
    parse_atom self ;;
    c' <- text_is self "(" ;;
    if (c' : bool) then
      match_ self "SPECIAL" (Some "(") ;;
      parse_term_list fuel self ;;
      match_ self "SPECIAL" (Some ")") ;;
      ret tt
    else ret tt
  else
    l <- current_line self ;;
    error self "Predicate must start with an atom" l ;;
    advance self.

Definition parse_predicate_list (fuel : nat) (self : loc) : H unit :=
  parse_predicate fuel self ;;
  while fuel (text_is self ",")
    (match_ self "SPECIAL" (Some ",") ;; parse_predicate fuel self).

Definition parse_query (fuel : nat) (self : loc) : H unit :=
  c <- text_is self "?-" ;;
  if (c : bool) then
    match_ self "SPECIAL" (Some "?-") ;;
    parse_predicate_list fuel self ;;
    match_ self "SPECIAL" (Some ".") ;;
    ret tt
  else
    l <- current_line self ;;
    error self "Query should start with '?-'" l.

Definition parse_clause (fuel : nat) (self : loc) : H unit :=
  parse_predicate fuel self ;;
  c <- text_is self "." ;;
  if (c : bool) then match_ self "SPECIAL" (Some ".") ;; ret tt
  else
    c' <- text_is self ":-" ;;
    if (c' : bool) then
      match_ self "SPECIAL" (Some ":-") ;;
      parse_predicate_list fuel self ;;
      match_ self "SPECIAL" (Some ".") ;;
      ret tt
    else
      l <- current_line self ;;
      error self "Clause must end with '.' or use ':-' followed by a predicate list and a '.'" l ;;
      advance self.

Definition clause_cond (self : loc) : H bool :=
  k <- kind_is self "EOF" ;;
  if negb k then t <- text_is self "?-" ;; ret (negb t) else ret false.

Definition parse_clause_list (fuel : nat) (self : loc) : H unit :=
  while fuel (clause_cond self) (parse_clause fuel self).

Definition parse_program (fuel : nat) (self : loc) : H unit :=
  c <- text_is self "?-" ;;
  if (c : bool) then parse_query fuel self
  else
    parse_clause_list fuel self ;;
    c' <- text_is self "?-" ;;
    if (c' : bool) then parse_query fuel self else ret tt.

(** ** The pipeline of [process_file], lines 198 to 204: it returns
    the list [parser.errors] itself. *)
Definition process_text (fuel : nat) (content : string) : H loc :=
  lexer <- Lexer_init fuel content ;;
  tokens <- get_tokens lexer ;;
  parser <- Parser_init tokens ;;
  parse_program fuel parser ;;
  parser_errors parser.

(** The items of the list of strings at an address. *)
Definition strings_at (w : world) (l : loc) : option (list string) :=
  match nth_error (objects w) l with
  | Some (StringList items) => Some items
  | _ => None
  end.

End Heap.

(** The object at [self] is a parser in the state [s]: its token list
    is at [tl], its error list at [el]. *)
Definition rep (self tl el : Heap.loc) (w : Heap.world) (s : Parser) : Prop :=
  nth_error (Heap.objects w) self = Some (Heap.ParserObject tl (pos s) el) /\
  nth_error (Heap.objects w) tl = Some (Heap.TokenList (tokens s)) /\
  nth_error (Heap.objects w) el = Some (Heap.StringList (errors s)).

(** From [w] to [w'] no object was made, the flag [DEBUG] is the same,
    and no object but those at [a] and [b] has changed. *)
Definition kept (a b : Heap.loc) (w w' : Heap.world) : Prop :=
  Heap.DEBUG w' = Heap.DEBUG w /\
  length (Heap.objects w') = length (Heap.objects w) /\
  forall l, l <> a -> l <> b ->
    nth_error (Heap.objects w') l = nth_error (Heap.objects w) l.

(** The method [hm] on the object at [self] does what [m] does on the
    state of a parser. *)
Definition sim {A} (self tl el : Heap.loc) (hm : Heap.H A) (m : M A) : Prop :=
  forall w s, rep self tl el w s ->
    match m s with
    | Ok (a, s') =>
        exists w', hm w = Returns (a, w') /\ rep self tl el w' s' /\ kept self el w w'
    | IndexError => hm w = Raises "IndexError"
    | OutOfFuel => hm w = Unfinished
    end.

(** The object at [self] is a lexer in the state [st], with its token
    list at [tl]. *)
Definition rep_lexer (self tl : Heap.loc) (w : Heap.world) (st : Lexer.t) : Prop :=
  nth_error (Heap.objects w) self =
    Some (Heap.LexerObject (Lexer.text st) tl (Lexer.line st)) /\
  nth_error (Heap.objects w) tl = Some (Heap.TokenList (Lexer.tokens st)).

(** A state of the interpreter after other work: the flag [DEBUG] is
    on, and a parser of an earlier run is still there with its
    lists. *)
Definition world_used : Heap.world :=
  Heap.mkWorld true
    [Heap.TokenList [("ATOM", "x", 1%Z); ("EOF", "", 1%Z)];
     Heap.StringList ["Syntax Error at line 1: left over"];
     Heap.ParserObject 0 1 1]
    [("ATOM", "x", 1%Z)].

(* ================================================================== *)
(** * Further vocabulary *)

(** The kinds of the tokens of the grammar. *)
Definition grammar_kind (t : Token) : Prop :=
  kind t = "ATOM" \/ kind t = "VARIABLE" \/ kind t = "NUMBER" \/ kind t = "SPECIAL".

(** The tokens of [a(b).]. *)
Definition toks_arguments : list Token :=
  [("ATOM", "a", 1%Z); ("SPECIAL", "(", 1%Z); ("ATOM", "b", 1%Z);
   ("SPECIAL", ")", 1%Z); ("SPECIAL", ".", 1%Z); ("EOF", "", 1%Z)].

(** A text with a stray character, and its tokens. *)
Definition text_stray : string := "a # b.".

Definition toks_stray : list Token :=
  [("ATOM", "a", 1%Z); ("ERROR", "#", 1%Z); ("ATOM", "b", 1%Z);
   ("SPECIAL", ".", 1%Z); ("EOF", "", 1%Z)].

(* ================================================================== *)
(** * Properties of the lexer *)

Example lex_fact :
  option_map Lexer.get_tokens (Lexer.init 100 "parent(tom, bob).") =
  Some [("ATOM", "parent", 1%Z); ("SPECIAL", "(", 1%Z); ("ATOM", "tom", 1%Z);
        ("SPECIAL", ",", 1%Z); ("ATOM", "bob", 1%Z); ("SPECIAL", ")", 1%Z);
        ("SPECIAL", ".", 1%Z); ("EOF", "", 1%Z)].
Proof. reflexivity. Qed.


Lemma scanned_kind_not_EOF k : scanned_kind k -> k <> "EOF".
Proof. intros [H|[H|[H|[H|H]]]]; subst k; discriminate. Qed.

Section LexerFacts.
Import Lexer.

Lemma span_run p s :
  (forall c, p c = true -> is_newline c = false) ->
  (String.length (snd (span p s)) <= String.length s)%nat /\
  count_newlines s = count_newlines (snd (span p s)).
Proof.
  intros Hp. induction s as [|c r [IHl IHn]]; simpl.
  - split; [lia | reflexivity].
  - destruct (p c) eqn:Hc.
    + destruct (span p r) as [v rest]; simpl in *.
      rewrite (Hp c Hc). split; [lia | lia].
    + simpl. split; [lia | reflexivity].
Qed.

Lemma newline_char c : is_newline c = true -> c = "010"%char.
Proof. unfold is_newline. apply Ascii.eqb_eq. Qed.

Lemma class_not_newline (p : ascii -> bool) :
  p "010"%char = false -> forall c, p c = true -> is_newline c = false.
Proof.
  intros Hp c Hc. destruct (is_newline c) eqn:Hn; [|reflexivity].
  apply newline_char in Hn. subst c. congruence.
Qed.

(** One match of the alternation: it is never empty, it is one of the
    seven groups, and it holds a newline only as the group NEWLINE. *)
Lemma get_token_step c r k v rest :
  get_token (String c r) = Some (k, v, rest) ->
  (String.length rest <= String.length r)%nat /\
  count_newlines (String c r) =
    ((if String.eqb k "NEWLINE" then 1 else 0) + count_newlines rest)%Z /\
  (k = "NEWLINE" \/ k = "SKIP" \/ k = "MISMATCH" \/
   k = "NUMBER" \/ k = "ATOM" \/ k = "VARIABLE" \/ k = "SPECIAL").
Proof.
  pose proof (span_run is_digit r (class_not_newline _ eq_refl)) as Hd.
  pose proof (span_run is_word r (class_not_newline _ eq_refl)) as Hw.
  pose proof (span_run is_blank r (class_not_newline _ eq_refl)) as Hb.
  destruct (is_newline c) eqn:Hn.
  - apply newline_char in Hn. subst c. cbn. intros H. inversion H; subst.
    cbn. repeat split; try lia. tauto.
  - unfold get_token. cbn [count_newlines]. rewrite Hn.
    destruct (is_digit c).
    { destruct (span is_digit r) as [v' rest']; intros H; inversion H; subst.
      cbn in *. repeat split; try lia. tauto. }
    destruct (is_lower c).
    { destruct (span is_word r) as [v' rest']; intros H; inversion H; subst.
      cbn in *. repeat split; try lia. tauto. }
    destruct (is_upper_ c).
    { destruct (span is_word r) as [v' rest']; intros H; inversion H; subst.
      cbn in *. repeat split; try lia. tauto. }
    assert (Hdash : forall r', after_dash r = Some r' ->
              (String.length r' <= String.length r)%nat /\
              count_newlines r = count_newlines r').
    { destruct r as [|d r0]; cbn; [discriminate|].
      destruct (Ascii.eqb d "-") eqn:Hd'; [|discriminate].
      apply Ascii.eqb_eq in Hd'. subst d. intros r' H; inversion H; subst.
      cbn. split; lia. }
    destruct (if Ascii.eqb c "?" then after_dash r else None) as [r1|] eqn:H1.
    { destruct (Ascii.eqb c "?"); [|discriminate].
      apply Hdash in H1. intros H; inversion H; subst.
      cbn. repeat split; try lia. tauto. }
    destruct (if Ascii.eqb c ":" then after_dash r else None) as [r2|] eqn:H2.
    { destruct (Ascii.eqb c ":"); [|discriminate].
      apply Hdash in H2. intros H; inversion H; subst.
      cbn. repeat split; try lia. tauto. }
    destruct (is_special1 c).
    { intros H; inversion H; subst. cbn. repeat split; try lia. tauto. }
    destruct (is_blank c).
    { destruct (span is_blank r) as [v' rest']; intros H; inversion H; subst.
      cbn in *. repeat split; try lia. tauto. }
    intros H; inversion H; subst. cbn. repeat split; try lia. tauto.
Qed.

(** The group MISMATCH is one character. *)
Lemma get_token_mismatch c r v rest :
  get_token (String c r) = Some ("MISMATCH", v, rest) -> v = String c "" /\ rest = r.
Proof.
  unfold get_token.
  destruct (is_digit c); [destruct (span is_digit r); discriminate|].
  destruct (is_lower c); [destruct (span is_word r); discriminate|].
  destruct (is_upper_ c); [destruct (span is_word r); discriminate|].
  destruct (if Ascii.eqb c "?" then after_dash r else None); [discriminate|].
  destruct (if Ascii.eqb c ":" then after_dash r else None); [discriminate|].
  destruct (is_special1 c); [discriminate|].
  destruct (is_blank c); [destruct (span is_blank r); discriminate|].
  destruct (is_newline c); [discriminate|].
  intros H; inversion H; auto.
Qed.

(** The alternation matches at every position before the end of the
    text: the [break] of [tokenize] is never taken. *)
Lemma get_token_total c r : get_token (String c r) <> None.
Proof.
  unfold get_token.
  destruct (is_digit c); [destruct (span is_digit r); discriminate|].
  destruct (is_lower c); [destruct (span is_word r); discriminate|].
  destruct (is_upper_ c); [destruct (span is_word r); discriminate|].
  destruct (if Ascii.eqb c "?" then after_dash r else None); [discriminate|].
  destruct (if Ascii.eqb c ":" then after_dash r else None); [discriminate|].
  destruct (is_special1 c); [discriminate|].
  destruct (is_blank c); [destruct (span is_blank r); discriminate|].
  destruct (is_newline c); discriminate.
Qed.

(** The loop of [tokenize] with a fuel of at least the length of what is
    left to read: it ends, the text is untouched, the tokens it appends
    have scanned kinds and are at most as many as the characters read,
    and the line counter has grown by the number of newlines read. *)
Lemma tokenize_loop_spec fuel : forall rest self,
  (String.length rest <= fuel)%nat ->
  exists added,
    tokenize_loop fuel rest self =
      Some (mk (Lexer.text self) (Lexer.tokens self ++ added)
               (Lexer.line self + count_newlines rest)) /\
    Forall scanned_token added /\
    (length added <= String.length rest)%nat.
Proof.
  induction fuel as [|fuel IH]; intros rest self Hlen.
  - destruct rest; [|simpl in Hlen; lia].
    exists []. cbn. rewrite app_nil_r, Z.add_0_r. destruct self; auto.
  - destruct rest as [|c r].
    { exists []. cbn. rewrite app_nil_r, Z.add_0_r. destruct self; auto. }
    cbn [tokenize_loop].
    destruct (get_token (String c r)) as [[[k v] rest']|] eqn:Hg;
      [|exfalso; exact (get_token_total _ _ Hg)].
    destruct (get_token_step _ _ _ _ _ Hg) as (Hl & Hn & Hk).
    simpl in Hlen.
    assert (Hf : (String.length rest' <= fuel)%nat) by lia.
    destruct Hk as [Hk|[Hk|[Hk|Hk]]]; try subst k.
    + change (count_newlines (String c r) = (1 + count_newlines rest')%Z) in Hn.
      destruct (IH rest' (mk (Lexer.text self) (Lexer.tokens self) (Lexer.line self + 1)) Hf)
        as (added & Heq & HF & HL).
      exists added. split; [|split; [exact HF | cbn [String.length]; lia]].
      change (tokenize_loop fuel rest'
                (mk (Lexer.text self) (Lexer.tokens self) (Lexer.line self + 1)) = 
              Some (mk (Lexer.text self) (Lexer.tokens self ++ added)
                       (Lexer.line self + count_newlines (String c r)))).
      rewrite Heq, Hn. cbn [Lexer.text Lexer.tokens Lexer.line].
      do 2 f_equal. lia.
    + change (count_newlines (String c r) = (0 + count_newlines rest')%Z) in Hn.
      destruct (IH rest' self Hf) as (added & Heq & HF & HL).
      exists added. split; [|split; [exact HF | cbn [String.length]; lia]].
      change (tokenize_loop fuel rest' self =
              Some (mk (Lexer.text self) (Lexer.tokens self ++ added)
                       (Lexer.line self + count_newlines (String c r)))).
      rewrite Heq, Hn. do 2 f_equal.
    + change (count_newlines (String c r) = (0 + count_newlines rest')%Z) in Hn.
      destruct (IH rest' (mk (Lexer.text self)
                  (Lexer.tokens self ++ [("ERROR", v, Lexer.line self)]) (Lexer.line self)) Hf)
        as (added & Heq & HF & HL).
      exists (("ERROR", v, Lexer.line self) :: added).
      destruct (get_token_mismatch _ _ _ _ Hg) as [Hv _].
      split; [|split; [constructor; [|exact HF] | cbn [String.length length]; lia]];
        [|subst v; split; [unfold scanned_kind; cbn; tauto | reflexivity]].
      change (tokenize_loop fuel rest'
                (mk (Lexer.text self)
                    (Lexer.tokens self ++ [("ERROR", v, Lexer.line self)]) (Lexer.line self)) =
              Some (mk (Lexer.text self)
                       (Lexer.tokens self ++ ("ERROR", v, Lexer.line self) :: added)
                       (Lexer.line self + count_newlines (String c r)))).
      rewrite Heq, Hn. cbn [Lexer.text Lexer.tokens Lexer.line].
      rewrite <- app_assoc. reflexivity.
    + assert (Hk' : (k =? "NEWLINE") = false /\ (k =? "SKIP") = false /\
                    (k =? "MISMATCH") = false /\ scanned_kind k).
      { unfold scanned_kind.
        destruct Hk as [Hk|[Hk|[Hk|Hk]]]; subst k; cbn; tauto. }
      destruct Hk' as (E1 & E2 & E3 & Hs).
      rewrite E1 in Hn |- *. rewrite E2, E3.
      destruct (IH rest' (mk (Lexer.text self)
                  (Lexer.tokens self ++ [(k, v, Lexer.line self)]) (Lexer.line self)) Hf)
        as (added & Heq & HF & HL).
      exists ((k, v, Lexer.line self) :: added).
      split; [|split; [constructor; [|exact HF] | cbn [String.length length]; lia]];
        [|split; [exact Hs|]; cbn; intros ->;
          destruct Hk as [Hk|[Hk|[Hk|Hk]]]; discriminate].
      rewrite Heq, Hn. cbn [Lexer.text Lexer.tokens Lexer.line].
      rewrite <- app_assoc. reflexivity.
Qed.

(** A larger fuel does not change what the loop returns. *)
Lemma tokenize_loop_mono fuel : forall fuel' rest self r,
  (fuel <= fuel')%nat ->
  tokenize_loop fuel rest self = Some r -> tokenize_loop fuel' rest self = Some r.
Proof.
  induction fuel as [|fuel IH]; intros fuel' rest self r Hle H.
  - destruct rest; [|discriminate]. destruct fuel'; exact H.
  - destruct fuel' as [|fuel']; [lia|]. destruct rest as [|c rest]; [exact H|].
    cbn [tokenize_loop] in *.
    destruct (get_token (String c rest)) as [[[k v] rest']|]; [|exact H].
    apply IH; [lia | exact H].
Qed.

Lemma lexer_init_mono fuel fuel' content lexer :
  (fuel <= fuel')%nat ->
  Lexer.init fuel content = Some lexer -> Lexer.init fuel' content = Some lexer.
Proof.
  unfold Lexer.init, tokenize. intros Hle.
  destruct (tokenize_loop fuel _ _) as [r|] eqn:E; [|discriminate].
  now rewrite (tokenize_loop_mono _ _ _ _ _ Hle E).
Qed.

End LexerFacts.

(** [Lexer(text)] with a fuel of at least the length of the text. *)
Lemma lexer_init_spec (content : string) (fuel : nat) :
  (String.length content <= fuel)%nat ->
  exists lexer pre,
    Lexer.init fuel content = Some lexer /\
    Lexer.get_tokens lexer =
      (pre ++ [("EOF", "", (1 + count_newlines content)%Z)])%list /\
    Forall scanned_token pre /\
    (length pre <= String.length content)%nat.
Proof.
  intros Hlen. unfold Lexer.init, Lexer.tokenize.
  destruct (tokenize_loop_spec fuel content (Lexer.mk content [] 1) Hlen)
    as (added & Heq & HF & HL).
  cbn [Lexer.text Lexer.tokens Lexer.line] in *. rewrite Heq.
  eexists. exists added. split; [reflexivity|]. split; [reflexivity|]. split; assumption.
Qed.

(** C4: tokenizing any text ends (a fuel of the length of the text is
    enough), the token list ends with an EOF token, no token before it
    has kind EOF, and the line of the EOF token is 1 plus the number of
    newline characters of the whole text. *)
Theorem tokenize_ends_with_EOF (content : string) (fuel : nat) :
  (String.length content <= fuel)%nat ->
  exists lexer pre,
    Lexer.init fuel content = Some lexer /\
    Lexer.get_tokens lexer =
      (pre ++ [("EOF", "", (1 + count_newlines content)%Z)])%list /\
    Forall (fun t => kind t <> "EOF") pre.
Proof.
  intros Hlen.
  destruct (lexer_init_spec content fuel Hlen) as (lexer & pre & H1 & H2 & HF & _).
  exists lexer, pre. split; [exact H1|]. split; [exact H2|].
  eapply Forall_impl; [|exact HF]. intros t [Ht _]. now apply scanned_kind_not_EOF.
Qed.

Lemma tokenize_ends_with_EOF_witness :
  exists lexer pre,
    Lexer.init 3 "a.
" = Some lexer /\
    Lexer.get_tokens lexer = (pre ++ [("EOF", "", (1 + count_newlines "a.
")%Z)])%list /\
    Forall (fun t => kind t <> "EOF") pre.
Proof. apply (tokenize_ends_with_EOF "a.
" 3). simpl. lia. Defined.

Lemma no_prefix_no_dash x c r :
  prefix (String x "-") (String c r) = false ->
  (if Ascii.eqb c x then Lexer.after_dash r else None) = None.
Proof.
  intros H. destruct (Ascii.eqb c x) eqn:E; [|reflexivity].
  apply Ascii.eqb_eq in E. subst c. cbn in H.
  destruct (ascii_dec x x) as [_|N]; [|congruence].
  destruct r as [|d r']; [reflexivity|]. cbn.
  destruct (Ascii.eqb d "-") eqn:E'; [|reflexivity].
  apply Ascii.eqb_eq in E'. subst d. cbn in H. destruct r'; discriminate.
Qed.

(* ================================================================== *)
(** * Rules for [good_at] *)

Lemma ext_refl G s : in_bounds s -> ext G s s.
Proof.
  intros H. repeat split; auto. exists []. rewrite app_nil_r. auto.
Qed.

Lemma ext_trans G s1 s2 s3 : ext G s1 s2 -> ext G s2 s3 -> ext G s1 s3.
Proof.
  intros (T1 & P1 & B1 & a1 & E1 & F1) (T2 & P2 & B2 & a2 & E2 & F2).
  rewrite T1 in *. repeat split; try congruence; try lia.
  exists (a1 ++ a2)%list. split.
  - rewrite E2, E1, app_assoc. reflexivity.
  - apply Forall_app. auto.
Qed.

Lemma ext_in_bounds G s s' : ext G s s' -> in_bounds s'.
Proof. intros (T & _ & B & _). unfold in_bounds. rewrite T. exact B. Qed.

Lemma ext_weaken (G G' : string -> Prop) s s' :
  (forall e, G e -> G' e) -> ext G s s' -> ext G' s s'.
Proof.
  intros HG (T & P & B & a & E & F). repeat split; auto.
  exists a. split; auto. eapply Forall_impl; eauto.
Qed.

Section GoodRules.
Context {A B : Type} (G : string -> Prop).

Lemma good_at_ret (a : A) s : in_bounds s -> good_at G false (ret a) s.
Proof.
  intros H. unfold good_at, ret. split; [now apply ext_refl | discriminate].
Qed.

(** Sequencing, when the first call is the one known to move the cursor. *)
Lemma good_at_bind_l (m : M A) (k : A -> M B) p s :
  good_at G true m s ->
  (forall a s', m s = Ok (a, s') -> in_bounds s' -> good_at G false (k a) s') ->
  good_at G p (bind m k) s.
Proof.
  unfold good_at, bind. destruct (m s) as [[a s']| |]; auto.
  intros [He Hp] Hk. specialize (Hk a s' eq_refl (ext_in_bounds _ _ _ He)).
  destruct (k a s') as [[b s'']| |]; auto.
  destruct Hk as [He' _]. split; [eapply ext_trans; eauto|].
  intros _ Hlt. specialize (Hp eq_refl Hlt).
  destruct He' as (_ & P' & _). lia.
Qed.

(** Sequencing, when progress is left to the second call. *)
Lemma good_at_bind_r (m : M A) (k : A -> M B) p s :
  good_at G false m s ->
  (forall a s', m s = Ok (a, s') -> in_bounds s' -> good_at G p (k a) s') ->
  good_at G p (bind m k) s.
Proof.
  unfold good_at, bind. destruct (m s) as [[a s']| |]; auto.
  intros [He _] Hk. specialize (Hk a s' eq_refl (ext_in_bounds _ _ _ He)).
  destruct (k a s') as [[b s'']| |]; auto.
  destruct Hk as [He' Hp']. split; [eapply ext_trans; eauto|].
  intros Hp Hlt. destruct He as (T & P & Bd & _).
  destruct He' as (_ & P' & _).
  destruct (Nat.eq_dec (pos s') (pos s)) as [E|N]; [|lia].
  rewrite T, E in Hp'. apply Hp'; auto.
Qed.

Lemma good_at_no_progress (m : M A) p s : good_at G p m s -> good_at G false m s.
Proof.
  unfold good_at. destruct (m s) as [[a s']| |]; auto.
  intros [He _]. split; [exact He | discriminate].
Qed.

End GoodRules.

Lemma good_at_weaken {A} (G G' : string -> Prop) (m : M A) p s :
  (forall e, G e -> G' e) -> good_at G p m s -> good_at G' p m s.
Proof.
  intros HG. unfold good_at. destruct (m s) as [[a s']| |]; auto.
  intros [He Hp]. split; [eapply ext_weaken; eauto | exact Hp].
Qed.

(** ** The primitive methods *)

Lemma current_token_inv s token s' :
  current_token s = Ok (token, s') ->
  s' = s /\ nth_error (tokens s) (pos s) = Some token.
Proof.
  unfold current_token. destruct (nth_error (tokens s) (pos s)); [|discriminate].
  intros H; inversion H; subst; auto.
Qed.

Lemma current_token_returns s :
  in_bounds s -> exists token, current_token s = Ok (token, s).
Proof.
  intros H. unfold current_token.
  destruct (nth_error (tokens s) (pos s)) eqn:E; [eauto|].
  apply nth_error_None in E. unfold in_bounds in H. lia.
Qed.

Lemma current_token_good G : good G false current_token.
Proof.
  intros s H. unfold good_at.
  destruct (current_token_returns s H) as [token ->].
  split; [now apply ext_refl | discriminate].
Qed.

Lemma advance_eq s :
  advance s =
  Ok (tt, if (pos s + 1 <? length (tokens s))%nat
          then mkParser (tokens s) (pos s + 1) (errors s) else s).
Proof.
  unfold advance.
  destruct (Z.ltb_spec (Z.of_nat (pos s)) (Z.of_nat (length (tokens s)) - 1));
    destruct (Nat.ltb_spec (pos s + 1) (length (tokens s))); try reflexivity; lia.
Qed.

Lemma advance_good G : good G true advance.
Proof.
  intros s H. unfold good_at, in_bounds in *. rewrite advance_eq.
  destruct (Nat.ltb_spec (pos s + 1) (length (tokens s))).
  - split; [|cbn; lia]. repeat split; cbn; try lia.
    exists []. rewrite app_nil_r. auto.
  - split; [now apply ext_refl | lia].
Qed.

Lemma error_good (G : string -> Prop) message l :
  G (error_msg l message) -> good G false (error message l).
Proof.
  intros HG s H. unfold good_at, error. split; [|discriminate].
  repeat split; cbn; auto. exists [error_msg l message]. split; auto.
Qed.

Lemma text_is_inv v s c s' :
  text_is v s = Ok (c, s') ->
  s' = s /\ exists token, nth_error (tokens s) (pos s) = Some token /\ c = (text token =? v).
Proof.
  unfold text_is, bind, ret. destruct (current_token s) as [[t s0]| |] eqn:E; try discriminate.
  apply current_token_inv in E. destruct E as [-> E].
  intros H; inversion H; subst. eauto.
Qed.

Lemma kind_is_inv k s c s' :
  kind_is k s = Ok (c, s') ->
  s' = s /\ exists token, nth_error (tokens s) (pos s) = Some token /\ c = (kind token =? k).
Proof.
  unfold kind_is, bind, ret. destruct (current_token s) as [[t s0]| |] eqn:E; try discriminate.
  apply current_token_inv in E. destruct E as [-> E].
  intros H; inversion H; subst. eauto.
Qed.

Lemma current_line_inv s l s' :
  current_line s = Ok (l, s') ->
  s' = s /\ exists token, nth_error (tokens s) (pos s) = Some token /\ l = line token.
Proof.
  unfold current_line, bind, ret. destruct (current_token s) as [[t s0]| |] eqn:E; try discriminate.
  apply current_token_inv in E. destruct E as [-> E].
  intros H; inversion H; subst. eauto.
Qed.

Lemma text_is_good G v : good G false (text_is v).
Proof.
  intros s H. unfold text_is. apply good_at_bind_r; [now apply current_token_good|].
  intros; now apply good_at_ret.
Qed.

Lemma kind_is_good G k : good G false (kind_is k).
Proof.
  intros s H. unfold kind_is. apply good_at_bind_r; [now apply current_token_good|].
  intros; now apply good_at_ret.
Qed.

Lemma current_line_good G : good G false current_line.
Proof.
  intros s H. unfold current_line. apply good_at_bind_r; [now apply current_token_good|].
  intros; now apply good_at_ret.
Qed.

(** ** [match], [parse_atom] and loops *)

Section Methods.
Variable G : string -> Prop.
Hypothesis HG : allows G.

Lemma match_good k v : good G false (match_ k v).
Proof.
  intros s H. unfold match_.
  apply good_at_bind_r; [now apply current_token_good|].
  intros token s' _ H'.
  destruct ((kind token =? k) && _).
  - apply good_at_bind_r; [unfold DEBUG; now apply good_at_ret|].
    intros _ s1 _ H1. apply good_at_bind_r.
    + apply good_at_no_progress with (p := true). now apply advance_good.
    + intros; now apply good_at_ret.
  - apply good_at_bind_r; [|intros; now apply good_at_ret].
    apply error_good; [|assumption]. apply HG. discriminate.
Qed.

(** A [match] on the kind under the cursor moves the cursor. *)
Lemma match_kind_progress k token s :
  in_bounds s ->
  nth_error (tokens s) (pos s) = Some token -> (kind token =? k) = true ->
  good_at G true (match_ k None) s.
Proof.
  intros H Hn Hk. unfold match_.
  assert (Hc : current_token s = Ok (token, s)).
  { unfold current_token. now rewrite Hn. }
  unfold good_at, bind at 1. rewrite Hc, Hk. cbn [andb].
  change (good_at G true
    ((if DEBUG then print_matched token else ret tt) ;; advance ;; ret true) s).
  apply good_at_bind_r; [unfold DEBUG; now apply good_at_ret|].
  intros _ s1 _ H1. apply good_at_bind_l; [now apply advance_good|].
  intros; now apply good_at_ret.
Qed.

Lemma parse_atom_good : good G true parse_atom.
Proof.
  intros s H. unfold parse_atom.
  apply good_at_bind_r; [now apply kind_is_good|].
  intros c s' Hc H'. apply kind_is_inv in Hc. destruct Hc as (-> & token & Hn & ->).
  destruct (kind token =? "ATOM") eqn:Hk.
  - apply good_at_bind_l; [now apply match_kind_progress with token|].
    intros; now apply good_at_ret.
  - apply good_at_bind_r; [now apply current_line_good|].
    intros l s1 _ H1. apply good_at_bind_r; [|intros; now apply advance_good].
    apply error_good; [|assumption]. apply HG. discriminate.
Qed.

Lemma while_good fuel cond body :
  good G false cond -> good G false body -> good G false (while fuel cond body).
Proof.
  intros Hc Hb. induction fuel as [|fuel IH]; intros s H.
  - exact I.
  - cbn [while]. apply good_at_bind_r; [now apply Hc|].
    intros [|] s1 _ H1; [|now apply good_at_ret].
    apply good_at_bind_r; [now apply Hb|]. intros _ s2 _ H2. now apply IH.
Qed.

End Methods.

(** ** The grammar procedures *)

Section Procedures.
Variable G : string -> Prop.
Hypothesis HG : allows G.

(** The optional argument list [ "(" term-list ")" ] that [parse_term]
    and [parse_predicate] read after an atom. *)
Lemma arguments_good (term_list : M unit) :
  good G false term_list ->
  good G false
    (c <- text_is "(" ;;
     if (c : bool) then
       match_ "SPECIAL" (Some "(") ;; term_list ;; match_ "SPECIAL" (Some ")") ;; ret tt
     else ret tt).
Proof.
  intros Ht s H. apply good_at_bind_r; [now apply text_is_good|].
  intros [|] s1 _ H1; [|now apply good_at_ret].
  apply good_at_bind_r; [now apply match_good|]. intros _ s2 _ H2.
  apply good_at_bind_r; [now apply Ht|]. intros _ s3 _ H3.
  apply good_at_bind_r; [now apply match_good|]. intros; now apply good_at_ret.
Qed.

Lemma good_no_progress {A} (m : M A) : good G true m -> good G false m.
Proof. intros Hm s H. eapply good_at_no_progress. now apply Hm. Qed.

Lemma parse_term_good fuel :
  good G true (parse_term fuel) /\ good G true (parse_term_list fuel).
Proof.
  induction fuel as [|fuel [IHt IHl]]; [split; intros s H; exact I|].
  split; intros s H.
  - cbn [parse_term]. apply good_at_bind_r; [now apply current_token_good|].
    intros token s' Hc _. apply current_token_inv in Hc. destruct Hc as [-> Hn].
    destruct (kind token =? "ATOM").
    { apply good_at_bind_l; [now apply parse_atom_good|].
      intros _ s1 _ H1. apply arguments_good; [|assumption].
      now apply good_no_progress. }
    destruct (kind token =? "VARIABLE") eqn:Hv.
    { apply good_at_bind_l; [now apply match_kind_progress with token|].
      intros; now apply good_at_ret. }
    destruct (kind token =? "NUMBER") eqn:Hnum.
    { apply good_at_bind_l; [now apply match_kind_progress with token|].
      intros; now apply good_at_ret. }
    apply good_at_bind_r; [|intros; now apply advance_good].
    apply error_good; [|assumption]. apply HG. discriminate.
  - cbn [parse_term_list]. apply good_at_bind_l; [now apply IHt|].
    intros _ s1 _ H1. apply while_good; [intros ? ?; now apply text_is_good| |assumption].
    intros s2 H2. apply good_at_bind_r; [now apply match_good|].
    intros _ s3 _ H3. eapply good_at_no_progress. now apply IHt.
Qed.

Lemma parse_predicate_good fuel : good G true (parse_predicate fuel).
Proof.
  intros s H. unfold parse_predicate.
  apply good_at_bind_r; [now apply kind_is_good|].
  intros c s' Hc _. apply kind_is_inv in Hc. destruct Hc as (-> & token & Hn & ->).
  destruct (kind token =? "ATOM").
  - apply good_at_bind_l; [now apply parse_atom_good|].
    intros _ s1 _ H1. apply arguments_good; [|assumption].
    apply good_no_progress. apply parse_term_good.
  - apply good_at_bind_r; [now apply current_line_good|].
    intros l s1 _ H1. apply good_at_bind_r; [|intros; now apply advance_good].
    apply error_good; [|assumption]. apply HG. discriminate.
Qed.

Lemma parse_predicate_list_good fuel : good G true (parse_predicate_list fuel).
Proof.
  intros s H. unfold parse_predicate_list.
  apply good_at_bind_l; [now apply parse_predicate_good|].
  intros _ s1 _ H1. apply while_good; [intros ? ?; now apply text_is_good| |assumption].
  intros s2 H2. apply good_at_bind_r; [now apply match_good|].
  intros _ s3 _ H3. eapply good_at_no_progress. now apply parse_predicate_good.
Qed.

Lemma query_body_good fuel : good G false (query_body fuel).
Proof.
  intros s H. unfold query_body.
  apply good_at_bind_r; [now apply match_good|]. intros _ s1 _ H1.
  apply good_at_bind_r; [eapply good_at_no_progress; now apply parse_predicate_list_good|].
  intros _ s2 _ H2.
  apply good_at_bind_r; [now apply match_good|]. intros; now apply good_at_ret.
Qed.

Lemma parse_query_guarded fuel s :
  text_is "?-" s = Ok (true, s) -> parse_query fuel s = query_body fuel s.
Proof. intros Hc. unfold parse_query, bind at 1. now rewrite Hc. Qed.

Lemma parse_clause_good fuel : good G true (parse_clause fuel).
Proof.
  intros s H. unfold parse_clause.
  apply good_at_bind_l; [now apply parse_predicate_good|]. intros _ s1 _ H1.
  apply good_at_bind_r; [now apply text_is_good|].
  intros [|] s2 _ H2.
  { apply good_at_bind_r; [now apply match_good|]. intros; now apply good_at_ret. }
  apply good_at_bind_r; [now apply text_is_good|].
  intros [|] s3 _ H3.
  - apply good_at_bind_r; [now apply match_good|]. intros _ s4 _ H4.
    apply good_at_bind_r; [eapply good_at_no_progress; now apply parse_predicate_list_good|].
    intros _ s5 _ H5.
    apply good_at_bind_r; [now apply match_good|]. intros; now apply good_at_ret.
  - apply good_at_bind_r; [now apply current_line_good|].
    intros l s4 _ H4. apply good_at_bind_r.
    + apply error_good; [|assumption]. apply HG. discriminate.
    + intros. eapply good_at_no_progress. now apply advance_good.
Qed.

Lemma parse_clause_list_good fuel : good G false (parse_clause_list fuel).
Proof.
  intros s H. unfold parse_clause_list, clause_cond. apply while_good; [ | |assumption].
  - intros s1 H1. apply good_at_bind_r; [now apply kind_is_good|].
    intros k s2 _ H2. destruct (negb k); [|now apply good_at_ret].
    apply good_at_bind_r; [now apply text_is_good|]. intros; now apply good_at_ret.
  - intros s1 H1. eapply good_at_no_progress. now apply parse_clause_good.
Qed.

(** [parse_program] calls [parse_query] only behind its own test of the
    text under the cursor, so the failure branch of [parse_query] adds
    nothing. *)
Lemma parse_program_good fuel : good G false (parse_program fuel).
Proof.
  assert (Hq : forall c s s', text_is "?-" s = Ok (c, s') -> in_bounds s' ->
            good_at G false (if c then parse_query fuel else ret tt) s').
  { intros c s s' Hc H'. destruct (text_is_inv _ _ _ _ Hc) as (-> & _).
    destruct c; [|now apply good_at_ret].
    unfold good_at. rewrite (parse_query_guarded fuel s Hc).
    now apply query_body_good. }
  intros s H. unfold parse_program.
  apply good_at_bind_r; [now apply text_is_good|].
  intros c s1 Hc H1. destruct c; [exact (Hq true s s1 Hc H1)|].
  apply good_at_bind_r; [now apply parse_clause_list_good|]. intros _ s2 _ H2.
  apply good_at_bind_r; [now apply text_is_good|].
  intros c s3 Hc' H3. exact (Hq c s2 s3 Hc' H3).
Qed.

End Procedures.

(* ================================================================== *)
(** * Termination *)

Lemma allows_any : allows any_error.
Proof. intros l m _. exact I. Qed.

Lemma good_result {A} G p (m : M A) s a s' :
  good_at G p m s -> m s = Ok (a, s') ->
  ext G s s' /\ (p = true -> (pos s + 1 < length (tokens s))%nat -> (pos s < pos s')%nat).
Proof. unfold good_at. intros H E. now rewrite E in H. Qed.

Lemma ext_remaining G s s' : ext G s s' -> (remaining s' <= remaining s)%nat.
Proof. intros (T & P & _). unfold remaining. rewrite T. lia. Qed.

Lemma returns_ret {A} (a : A) s : returns (ret a) s.
Proof. exists a, s. reflexivity. Qed.

Lemma returns_bind {A B} (m : M A) (k : A -> M B) s :
  returns m s -> (forall a s', m s = Ok (a, s') -> returns (k a) s') ->
  returns (bind m k) s.
Proof.
  intros (a & s' & E) Hk. destruct (Hk a s' E) as (b & s'' & E').
  exists b, s''. unfold bind. now rewrite E.
Qed.

(** Sequencing after a call that is known to be [good]. *)
Lemma returns_after {A B} p (m : M A) (k : A -> M B) s :
  good any_error p m -> in_bounds s -> returns m s ->
  (forall a s', m s = Ok (a, s') -> ext any_error s s' ->
     (p = true -> (pos s + 1 < length (tokens s))%nat -> (pos s < pos s')%nat) ->
     returns (k a) s') ->
  returns (bind m k) s.
Proof.
  intros Hg Hb Hr Hk. apply returns_bind; [exact Hr|].
  intros a s' E. destruct (good_result _ _ _ _ _ _ (Hg s Hb) E) as [He Hp]. eauto.
Qed.

Lemma current_token_ret s : in_bounds s -> returns current_token s.
Proof. intros H. destruct (current_token_returns s H) as [t E]. now exists t, s. Qed.

Lemma advance_returns s : returns advance s.
Proof. unfold returns. rewrite advance_eq. eauto. Qed.

Lemma error_returns message l s : returns (error message l) s.
Proof. unfold returns, error. eauto. Qed.

Lemma text_is_returns v s : in_bounds s -> returns (text_is v) s.
Proof.
  intros H. unfold text_is. apply returns_bind; [now apply current_token_ret|].
  intros; apply returns_ret.
Qed.

Lemma kind_is_returns k s : in_bounds s -> returns (kind_is k) s.
Proof.
  intros H. unfold kind_is. apply returns_bind; [now apply current_token_ret|].
  intros; apply returns_ret.
Qed.

Lemma current_line_returns s : in_bounds s -> returns current_line s.
Proof.
  intros H. unfold current_line. apply returns_bind; [now apply current_token_ret|].
  intros; apply returns_ret.
Qed.

Lemma match_returns k v s : in_bounds s -> returns (match_ k v) s.
Proof.
  intros H. unfold match_. apply returns_bind; [now apply current_token_ret|].
  intros token s' _. destruct ((kind token =? k) && _).
  - apply returns_bind; [unfold DEBUG; apply returns_ret|]. intros _ s1 _.
    apply returns_bind; [apply advance_returns|]. intros; apply returns_ret.
  - apply returns_bind; [apply error_returns|]. intros; apply returns_ret.
Qed.

Lemma parse_atom_returns s : in_bounds s -> returns parse_atom s.
Proof.
  intros H. unfold parse_atom.
  apply (returns_after false); [apply kind_is_good|assumption|now apply kind_is_returns|].
  intros c s1 _ He _. apply ext_in_bounds in He. destruct c.
  - apply returns_bind; [now apply match_returns|]. intros; apply returns_ret.
  - apply returns_bind; [now apply current_line_returns|]. intros l s2 _.
    apply returns_bind; [apply error_returns|]. intros; apply advance_returns.
Qed.

(** The text under the cursor, when the cursor is on the last token of a
    sequence that ends in the sentinel, is the empty text of the
    sentinel and its kind is EOF. *)
Lemma sentinel_under_cursor s :
  ends_in_EOF (tokens s) -> remaining s = 0%nat -> in_bounds s ->
  exists l, nth_error (tokens s) (pos s) = Some ("EOF", "", l).
Proof.
  intros (pre & l & E) Hr Hb. exists l. unfold remaining, in_bounds in *.
  rewrite E in *. rewrite length_app in *. cbn [length] in *.
  rewrite nth_error_app2 by lia.
  replace (pos s - length pre)%nat with 0%nat by lia. reflexivity.
Qed.

Lemma comma_has_remaining s :
  ends_in_EOF (tokens s) -> in_bounds s ->
  exists c, text_is "," s = Ok (c, s) /\ (c = true -> (0 < remaining s)%nat).
Proof.
  intros He Hb. destruct (text_is_returns "," s Hb) as (c & s' & E).
  destruct (text_is_inv _ _ _ _ E) as (-> & token & Hn & Hc).
  exists c. split; [exact E|]. intros ->.
  destruct (Nat.eq_dec (remaining s) 0) as [Hz|]; [|lia].
  destruct (sentinel_under_cursor s He Hz Hb) as [l Hl].
  rewrite Hl in Hn. inversion Hn; subst token. discriminate.
Qed.

(** A loop whose body moves the cursor ends, within one test more than
    there are tokens after the cursor. *)
Lemma while_returns (cond : M bool) (body : M unit) (n : nat) :
  good any_error true body ->
  (forall s, ends_in_EOF (tokens s) -> in_bounds s ->
     exists c, cond s = Ok (c, s) /\ (c = true -> (0 < remaining s)%nat)) ->
  (forall s, ends_in_EOF (tokens s) -> in_bounds s -> (remaining s <= n)%nat ->
     returns body s) ->
  forall fuel s,
    ends_in_EOF (tokens s) -> in_bounds s -> (remaining s <= n)%nat ->
    (remaining s < fuel)%nat ->
    exists s', while fuel cond body s = Ok (tt, s') /\ cond s' = Ok (false, s').
Proof.
  intros Hg Hc Hb. induction fuel as [|fuel IH]; intros s He Hin Hn Hf; [lia|].
  cbn [while]. unfold bind at 1.
  destruct (Hc s He Hin) as (c & Ec & Hpos). rewrite Ec. destruct c.
  - specialize (Hpos eq_refl).
    destruct (Hb s He Hin Hn) as ([] & s1 & Eb).
    destruct (good_result _ _ _ _ _ _ (Hg s Hin) Eb) as [Hext Hp].
    unfold bind. rewrite Eb.
    assert (Hlt : (pos s < pos s1)%nat).
    { apply Hp; [reflexivity|]. unfold remaining in Hpos. lia. }
    destruct Hext as (T & P & Bd & _).
    apply IH.
    + now rewrite T.
    + unfold in_bounds. now rewrite T.
    + unfold remaining in *. rewrite T. lia.
    + unfold remaining in *. rewrite T. lia.
  - exists s. split; [reflexivity | exact Ec].
Qed.

Lemma ext_keeps G s s' :
  ext G s s' -> ends_in_EOF (tokens s) ->
  ends_in_EOF (tokens s') /\ in_bounds s' /\ (remaining s' <= remaining s)%nat.
Proof.
  intros He Hs. split; [|split].
  - destruct He as (T & _). now rewrite T.
  - eapply ext_in_bounds; eauto.
  - eapply ext_remaining; eauto.
Qed.

Lemma arguments_returns (term_list : M unit) (n : nat) :
  good any_error false term_list ->
  (forall s, ends_in_EOF (tokens s) -> in_bounds s -> (remaining s <= n)%nat ->
     returns term_list s) ->
  forall s, ends_in_EOF (tokens s) -> in_bounds s -> (remaining s <= n)%nat ->
  returns
    (c <- text_is "(" ;;
     if (c : bool) then
       match_ "SPECIAL" (Some "(") ;; term_list ;; match_ "SPECIAL" (Some ")") ;; ret tt
     else ret tt) s.
Proof.
  intros Hg Ht s He Hb Hn.
  apply (returns_after false); [apply text_is_good|assumption|now apply text_is_returns|].
  intros c s1 _ H1 _. destruct (ext_keeps _ _ _ H1 He) as (He1 & Hb1 & Hr1).
  destruct c; [|apply returns_ret].
  apply (returns_after false);
    [apply (match_good _ allows_any)|assumption|now apply match_returns|].
  intros _ s2 _ H2 _. destruct (ext_keeps _ _ _ H2 He1) as (He2 & Hb2 & Hr2).
  apply (returns_after false); [exact Hg|assumption|apply Ht; auto; lia|].
  intros _ s3 _ H3 _. destruct (ext_keeps _ _ _ H3 He2) as (He3 & Hb3 & Hr3).
  apply returns_bind; [now apply match_returns|]. intros; apply returns_ret.
Qed.

(** After a call that moved the cursor, one token less is left. *)
Lemma progress_remaining s s' :
  tokens s' = tokens s -> (pos s < pos s')%nat -> (pos s' < length (tokens s))%nat ->
  (remaining s' + 1 <= remaining s)%nat.
Proof. intros T P B. unfold remaining. rewrite T. lia. Qed.

(** Under the cursor is a token other than the sentinel: the cursor is
    not on the last token. *)
Lemma not_sentinel_has_remaining s token :
  ends_in_EOF (tokens s) -> in_bounds s ->
  nth_error (tokens s) (pos s) = Some token ->
  (kind token =? "EOF") = false -> (0 < remaining s)%nat.
Proof.
  intros He Hb Hn Hk. destruct (Nat.eq_dec (remaining s) 0) as [Hz|]; [|lia].
  destruct (sentinel_under_cursor s He Hz Hb) as [l Hl].
  rewrite Hl in Hn. inversion Hn; subst token. discriminate.
Qed.

Lemma term_loop_body_good fuel :
  good any_error true (match_ "SPECIAL" (Some ",") ;; parse_term fuel).
Proof.
  intros s H. apply good_at_bind_r; [now apply (match_good _ allows_any)|].
  intros _ s1 _ H1. now apply (parse_term_good _ allows_any).
Qed.

Lemma parse_term_returns fuel :
  (forall s, ends_in_EOF (tokens s) -> in_bounds s ->
     (2 * remaining s + 1 <= fuel)%nat -> returns (parse_term fuel) s) /\
  (forall s, ends_in_EOF (tokens s) -> in_bounds s ->
     (2 * remaining s + 2 <= fuel)%nat -> returns (parse_term_list fuel) s).
Proof.
  induction fuel as [|fuel [IHt IHl]]; [split; intros; lia|].
  split; intros s He Hb Hf.
  - cbn [parse_term].
    apply returns_bind; [now apply current_token_ret|].
    intros token s' Hc. apply current_token_inv in Hc. destruct Hc as [-> Hn].
    destruct (kind token =? "ATOM") eqn:Hk.
    { assert (Hr : (0 < remaining s)%nat).
      { apply not_sentinel_has_remaining with token; auto.
        destruct (kind token =? "EOF") eqn:E; [|reflexivity].
        apply String.eqb_eq in E. rewrite E in Hk. discriminate. }
      apply (returns_after true);
        [apply (parse_atom_good _ allows_any)|assumption|now apply parse_atom_returns|].
      intros _ s1 _ H1 Hp. destruct (ext_keeps _ _ _ H1 He) as (He1 & Hb1 & Hr1).
      assert (Hlt : (remaining s1 + 1 <= remaining s)%nat).
      { destruct H1 as (T & _ & B & _). apply progress_remaining; auto.
        apply Hp; [reflexivity|]. unfold remaining in Hr. lia. }
      apply (arguments_returns (parse_term_list fuel) (remaining s1)); auto.
      - apply good_no_progress. apply (parse_term_good _ allows_any).
      - intros s2 He2 Hb2 Hr2. apply IHl; auto. lia. }
    destruct (kind token =? "VARIABLE").
    { apply returns_bind; [now apply match_returns|]. intros; apply returns_ret. }
    destruct (kind token =? "NUMBER").
    { apply returns_bind; [now apply match_returns|]. intros; apply returns_ret. }
    apply returns_bind; [apply error_returns|]. intros; apply advance_returns.
  - cbn [parse_term_list].
    apply (returns_after true);
      [apply (parse_term_good _ allows_any)|assumption|apply IHt; auto; lia|].
    intros _ s1 _ H1 _. destruct (ext_keeps _ _ _ H1 He) as (He1 & Hb1 & Hr1).
    destruct (while_returns (text_is ",")
                (match_ "SPECIAL" (Some ",") ;; parse_term fuel) (remaining s1)
                (term_loop_body_good fuel)) with (fuel := fuel) (s := s1)
      as (s2 & E & _); auto; try lia.
    + intros s2 He2 Hb2. now apply comma_has_remaining.
    + intros s2 He2 Hb2 Hr2.
      apply (returns_after false);
        [apply (match_good _ allows_any)|assumption|now apply match_returns|].
      intros _ s3 _ H3 _. destruct (ext_keeps _ _ _ H3 He2) as (He3 & Hb3 & Hr3).
      apply IHt; auto. lia.
    + exists tt, s2. exact E.
Qed.

Lemma parse_predicate_returns fuel s :
  ends_in_EOF (tokens s) -> in_bounds s -> (2 * remaining s + 2 <= fuel)%nat ->
  returns (parse_predicate fuel) s.
Proof.
  intros He Hb Hf. unfold parse_predicate.
  apply (returns_after false); [apply kind_is_good|assumption|now apply kind_is_returns|].
  intros c s1 _ H1 _. destruct (ext_keeps _ _ _ H1 He) as (He1 & Hb1 & Hr1).
  destruct c.
  - apply (returns_after true);
      [apply (parse_atom_good _ allows_any)|assumption|now apply parse_atom_returns|].
    intros _ s2 _ H2 _. destruct (ext_keeps _ _ _ H2 He1) as (He2 & Hb2 & Hr2).
    apply (arguments_returns (parse_term_list fuel) (remaining s2)); auto.
    + apply good_no_progress. apply (parse_term_good _ allows_any).
    + intros s3 He3 Hb3 Hr3. apply parse_term_returns; auto. lia.
  - apply returns_bind; [now apply current_line_returns|]. intros l s2 _.
    apply returns_bind; [apply error_returns|]. intros; apply advance_returns.
Qed.

Lemma predicate_loop_body_good fuel :
  good any_error true (match_ "SPECIAL" (Some ",") ;; parse_predicate fuel).
Proof.
  intros s H. apply good_at_bind_r; [now apply (match_good _ allows_any)|].
  intros _ s1 _ H1. now apply (parse_predicate_good _ allows_any).
Qed.

Lemma parse_predicate_list_returns fuel s :
  ends_in_EOF (tokens s) -> in_bounds s -> (2 * remaining s + 2 <= fuel)%nat ->
  returns (parse_predicate_list fuel) s.
Proof.
  intros He Hb Hf. unfold parse_predicate_list.
  apply (returns_after true);
    [apply (parse_predicate_good _ allows_any)|assumption
    |now apply parse_predicate_returns|].
  intros _ s1 _ H1 _. destruct (ext_keeps _ _ _ H1 He) as (He1 & Hb1 & Hr1).
  destruct (while_returns (text_is ",")
              (match_ "SPECIAL" (Some ",") ;; parse_predicate fuel) (remaining s1)
              (predicate_loop_body_good fuel)) with (fuel := fuel) (s := s1)
    as (s2 & E & _); auto; try lia.
  - intros s2 He2 Hb2. now apply comma_has_remaining.
  - intros s2 He2 Hb2 Hr2.
    apply (returns_after false);
      [apply (match_good _ allows_any)|assumption|now apply match_returns|].
    intros _ s3 _ H3 _. destruct (ext_keeps _ _ _ H3 He2) as (He3 & Hb3 & Hr3).
    apply parse_predicate_returns; auto. lia.
  - exists tt, s2. exact E.
Qed.

Lemma query_body_returns fuel s :
  ends_in_EOF (tokens s) -> in_bounds s -> (2 * remaining s + 2 <= fuel)%nat ->
  returns (query_body fuel) s.
Proof.
  intros He Hb Hf. unfold query_body.
  apply (returns_after false);
    [apply (match_good _ allows_any)|assumption|now apply match_returns|].
  intros _ s1 _ H1 _. destruct (ext_keeps _ _ _ H1 He) as (He1 & Hb1 & Hr1).
  apply (returns_after true);
    [apply (parse_predicate_list_good _ allows_any)|assumption
    |apply parse_predicate_list_returns; auto; lia|].
  intros _ s2 _ H2 _. destruct (ext_keeps _ _ _ H2 He1) as (He2 & Hb2 & Hr2).
  apply returns_bind; [now apply match_returns|]. intros; apply returns_ret.
Qed.

Lemma parse_query_returns fuel s :
  ends_in_EOF (tokens s) -> in_bounds s -> (2 * remaining s + 2 <= fuel)%nat ->
  returns (parse_query fuel) s.
Proof.
  intros He Hb Hf. unfold parse_query.
  apply returns_bind; [now apply text_is_returns|].
  intros c s1 Hc. apply text_is_inv in Hc. destruct Hc as (-> & _).
  destruct c; [now apply query_body_returns|].
  apply returns_bind; [now apply current_line_returns|]. intros; apply error_returns.
Qed.

Lemma parse_clause_returns fuel s :
  ends_in_EOF (tokens s) -> in_bounds s -> (2 * remaining s + 2 <= fuel)%nat ->
  returns (parse_clause fuel) s.
Proof.
  intros He Hb Hf. unfold parse_clause.
  apply (returns_after true);
    [apply (parse_predicate_good _ allows_any)|assumption
    |now apply parse_predicate_returns|].
  intros _ s1 _ H1 _. destruct (ext_keeps _ _ _ H1 He) as (He1 & Hb1 & Hr1).
  apply returns_bind; [now apply text_is_returns|].
  intros c s2 Hc. apply text_is_inv in Hc. destruct Hc as (-> & _). destruct c.
  { apply returns_bind; [now apply match_returns|]. intros; apply returns_ret. }
  apply returns_bind; [now apply text_is_returns|].
  intros c s2 Hc. apply text_is_inv in Hc. destruct Hc as (-> & _). destruct c.
  - apply (returns_after false);
      [apply (match_good _ allows_any)|assumption|now apply match_returns|].
    intros _ s2 _ H2 _. destruct (ext_keeps _ _ _ H2 He1) as (He2 & Hb2 & Hr2).
    apply (returns_after true);
      [apply (parse_predicate_list_good _ allows_any)|assumption
      |apply parse_predicate_list_returns; auto; lia|].
    intros _ s3 _ H3 _. destruct (ext_keeps _ _ _ H3 He2) as (He3 & Hb3 & Hr3).
    apply returns_bind; [now apply match_returns|]. intros; apply returns_ret.
  - apply returns_bind; [now apply current_line_returns|]. intros l s2 _.
    apply returns_bind; [apply error_returns|]. intros; apply advance_returns.
Qed.

(** The test of the clause-list loop reads the cursor and changes
    nothing; it is true only away from the sentinel. *)
Lemma clause_cond_inv s c s' :
  clause_cond s = Ok (c, s') ->
  s' = s /\
  exists token, nth_error (tokens s) (pos s) = Some token /\
    c = negb (kind token =? "EOF") && negb (text token =? "?-").
Proof.
  unfold clause_cond, bind at 1.
  destruct (kind_is "EOF" s) as [[k s1]| |] eqn:Ek; try discriminate.
  destruct (kind_is_inv _ _ _ _ Ek) as (-> & token & Hn & ->).
  destruct (kind token =? "EOF") eqn:Hk; cbn [negb].
  - unfold ret. intros H; inversion H; subst.
    split; [reflexivity|]. exists token. now rewrite Hk.
  - unfold bind. destruct (text_is "?-" s) as [[t s1]| |] eqn:Et; try discriminate.
    destruct (text_is_inv _ _ _ _ Et) as (-> & token' & Hn' & ->).
    rewrite Hn in Hn'. inversion Hn'; subst token'.
    unfold ret. intros H; inversion H; subst.
    split; [reflexivity|]. exists token. now rewrite Hk.
Qed.

Lemma clause_cond_returns s : in_bounds s -> returns clause_cond s.
Proof.
  intros Hb. unfold clause_cond.
  apply returns_bind; [now apply kind_is_returns|].
  intros k s1 Hk. apply kind_is_inv in Hk. destruct Hk as (-> & _).
  destruct (negb k); [|apply returns_ret].
  apply returns_bind; [now apply text_is_returns|]. intros; apply returns_ret.
Qed.

Lemma clause_cond_has_remaining s :
  ends_in_EOF (tokens s) -> in_bounds s ->
  exists c, clause_cond s = Ok (c, s) /\ (c = true -> (0 < remaining s)%nat).
Proof.
  intros He Hb. destruct (clause_cond_returns s Hb) as (c & s' & E).
  destruct (clause_cond_inv _ _ _ E) as (-> & token & Hn & Hc).
  exists c. split; [exact E|]. intros ->.
  apply not_sentinel_has_remaining with token; auto.
  destruct (kind token =? "EOF"); [discriminate | reflexivity].
Qed.

Lemma parse_clause_list_returns fuel s :
  ends_in_EOF (tokens s) -> in_bounds s -> (2 * remaining s + 2 <= fuel)%nat ->
  exists s', parse_clause_list fuel s = Ok (tt, s') /\ clause_cond s' = Ok (false, s').
Proof.
  intros He Hb Hf. unfold parse_clause_list.
  apply (while_returns clause_cond (parse_clause fuel) (remaining s)); auto; try lia.
  - apply (parse_clause_good _ allows_any).
  - intros s1. apply clause_cond_has_remaining.
  - intros s1 He1 Hb1 Hr1. apply parse_clause_returns; auto. lia.
Qed.

Lemma parse_program_returns fuel s :
  ends_in_EOF (tokens s) -> in_bounds s -> (2 * remaining s + 2 <= fuel)%nat ->
  returns (parse_program fuel) s.
Proof.
  intros He Hb Hf. unfold parse_program.
  apply returns_bind; [now apply text_is_returns|].
  intros c s1 Hc. apply text_is_inv in Hc. destruct Hc as (-> & _).
  destruct c; [now apply parse_query_returns|].
  destruct (parse_clause_list_returns fuel s He Hb Hf) as (s1 & E & _).
  apply (returns_after false);
    [apply (parse_clause_list_good _ allows_any)|assumption|now exists tt, s1|].
  intros _ s2 _ H2 _. destruct (ext_keeps _ _ _ H2 He) as (He2 & Hb2 & Hr2).
  apply returns_bind; [now apply text_is_returns|].
  intros c s3 Hc. apply text_is_inv in Hc. destruct Hc as (-> & _).
  destruct c; [|apply returns_ret]. apply parse_query_returns; auto. lia.
Qed.

(* ================================================================== *)
(** * The parser on a token sequence that ends in the sentinel *)

Lemma ends_in_EOF_nonempty toks : ends_in_EOF toks -> (0 < length toks)%nat.
Proof. intros (pre & l & ->). rewrite length_app. cbn. lia. Qed.

Lemma init_in_bounds toks : ends_in_EOF toks -> in_bounds (Parser_init toks).
Proof. intros H. apply ends_in_EOF_nonempty in H. exact H. Qed.

Lemma remaining_bound s fuel :
  (2 * length (tokens s) <= fuel)%nat -> in_bounds s ->
  (2 * remaining s + 2 <= fuel)%nat.
Proof. unfold remaining, in_bounds. lia. Qed.

Lemma text_is_eq s token v :
  nth_error (tokens s) (pos s) = Some token ->
  text_is v s = Ok (text token =? v, s).
Proof. intros Hn. unfold text_is, bind, current_token. now rewrite Hn. Qed.

Lemma parse_query_any_good fuel : good any_error false (parse_query fuel).
Proof.
  intros s H. unfold parse_query.
  apply good_at_bind_r; [now apply text_is_good|].
  intros c s1 _ H1. destruct c; [now apply (query_body_good _ allows_any)|].
  apply good_at_bind_r; [now apply current_line_good|].
  intros l s2 _ H2. now apply error_good.
Qed.

Lemma run_good op fuel : good any_error false (run op fuel).
Proof.
  pose proof allows_any as HA.
  destruct op; cbn [run]; intros s H.
  - apply good_at_bind_r; [now apply current_token_good|]. intros; now apply good_at_ret.
  - eapply good_at_no_progress. now apply advance_good.
  - apply good_at_bind_r; [now apply match_good|]. intros; now apply good_at_ret.
  - now apply error_good.
  - now apply parse_program_good.
  - now apply parse_clause_list_good.
  - eapply good_at_no_progress. now apply parse_clause_good.
  - now apply parse_query_any_good.
  - eapply good_at_no_progress. now apply parse_predicate_list_good.
  - eapply good_at_no_progress. now apply parse_predicate_good.
  - eapply good_at_no_progress. now apply (parse_term_good _ HA).
  - eapply good_at_no_progress. now apply (parse_term_good _ HA).
  - eapply good_at_no_progress. now apply parse_atom_good.
Qed.

(** C3: on every token sequence that ends in the EOF sentinel
    [parse_program] returns, with a fuel of twice the number of tokens;
    so does the clause-list loop from every cursor position, and it
    stops on a token of kind EOF or of text [?-]; and every iteration of
    that loop (a call of [parse_clause] where the loop test holds) moves
    the cursor strictly forward. *)
Theorem parse_program_terminates (toks : list Token) (fuel : nat) :
  ends_in_EOF toks -> (2 * length toks <= fuel)%nat ->
  (exists s', parse_program fuel (Parser_init toks) = Ok (tt, s')) /\
  (forall s, tokens s = toks -> in_bounds s ->
     exists s' token,
       parse_clause_list fuel s = Ok (tt, s') /\
       nth_error toks (pos s') = Some token /\
       (kind token = "EOF" \/ text token = "?-")) /\
  (forall s, tokens s = toks -> in_bounds s ->
     clause_cond s = Ok (true, s) ->
     exists s', parse_clause fuel s = Ok (tt, s') /\ (pos s < pos s')%nat).
Proof.
  intros He Hf. split; [|split].
  - destruct (parse_program_returns fuel (Parser_init toks)) as ([] & s' & E); eauto.
    + now apply init_in_bounds.
    + apply remaining_bound; [exact Hf | now apply init_in_bounds].
  - intros s T Hb. subst toks.
    destruct (parse_clause_list_returns fuel s He Hb (remaining_bound _ _ Hf Hb))
      as (s' & E & Hc).
    destruct (clause_cond_inv _ _ _ Hc) as (_ & token & Hn & Hv).
    pose proof (good_result _ _ _ _ _ _
      (parse_clause_list_good _ allows_any fuel s Hb) E) as [(T & _) _].
    exists s', token. split; [exact E|]. split; [now rewrite <- T|].
    symmetry in Hv. apply andb_false_iff in Hv.
    destruct Hv as [Hv|Hv]; apply negb_false_iff, String.eqb_eq in Hv; auto.
  - intros s T Hb Hc. subst toks.
    destruct (parse_clause_returns fuel s He Hb (remaining_bound _ _ Hf Hb))
      as ([] & s' & E).
    exists s'. split; [exact E|].
    destruct (good_result _ _ _ _ _ _
      (parse_clause_good _ allows_any fuel s Hb) E) as [_ Hp].
    apply Hp; [reflexivity|].
    destruct (clause_cond_has_remaining s He Hb) as (c & Ec & Hr).
    rewrite Hc in Ec. inversion Ec; subst c.
    specialize (Hr eq_refl). unfold remaining in Hr. lia.
Qed.

Lemma toks_bad_ends : ends_in_EOF toks_bad.
Proof. exists [("NUMBER", "1", 1%Z); ("ERROR", "#", 1%Z)], 1%Z. reflexivity. Qed.

Lemma toks_fact_ends : ends_in_EOF toks_fact.
Proof. exists [("ATOM", "a", 1%Z); ("SPECIAL", ".", 1%Z)], 1%Z. reflexivity. Qed.

Lemma toks_empty_ends : ends_in_EOF toks_empty.
Proof. exists [], 1%Z. reflexivity. Qed.

Lemma parse_program_terminates_witness :
  (exists s', parse_program 6 (Parser_init toks_bad) = Ok (tt, s')) /\
  (exists s' token,
     parse_clause_list 6 (Parser_init toks_bad) = Ok (tt, s') /\
     nth_error toks_bad (pos s') = Some token /\
     (kind token = "EOF" \/ text token = "?-")) /\
  (exists s', parse_clause 6 (Parser_init toks_bad) = Ok (tt, s') /\ (0 < pos s')%nat).
Proof.
  assert (Hf : (2 * length toks_bad <= 6)%nat) by (simpl; lia).
  destruct (parse_program_terminates toks_bad 6 toks_bad_ends Hf) as (H1 & H2 & H3).
  split; [exact H1|]. split.
  - apply H2; [reflexivity | unfold in_bounds; simpl; lia].
  - apply H3; [reflexivity | unfold in_bounds; simpl; lia | reflexivity].
Defined.

(** The empty text of the sentinel is needed.  On [toks_comma_EOF] the
    loop of [parse_term_list] tests a comma under the cursor for ever:
    [match] and [parse_term] add their errors and [advance] has nowhere
    to go, so no fuel makes [parse_program] return. *)
Lemma comma_loop_never_returns n f : forall errs,
  while n (text_is ",") (match_ "SPECIAL" (Some ",") ;; parse_term f)
        (mkParser toks_comma_EOF 2 errs) = OutOfFuel.
Proof.
  induction n as [|n IH]; intros errs; [reflexivity|].
  destruct f as [|f]; [reflexivity|].
  exact (IH ((errs ++ [error_msg 1 (expected_message "SPECIAL" (Some ",") ("EOF", ",", 1%Z))])
             ++ [error_msg 1 "Invalid term: expected atom, variable, numeral, or structure"])%list).
Qed.

Lemma bind_OutOfFuel {A B} (m : M A) (k : A -> M B) s :
  m s = OutOfFuel -> bind m k s = OutOfFuel.
Proof. intros H. unfold bind. now rewrite H. Qed.

Lemma sentinel_text_needed fuel :
  parse_program fuel (Parser_init toks_comma_EOF) = OutOfFuel.
Proof.
  assert (Hl : forall errs, parse_term_list fuel (mkParser toks_comma_EOF 2 errs) = OutOfFuel).
  { intros errs. destruct fuel as [|[|f]]; try reflexivity.
    exact (comma_loop_never_returns (S f) (S f)
             (errs ++ [error_msg 1 "Invalid term: expected atom, variable, numeral, or structure"])). }
  assert (Hp : parse_predicate fuel (Parser_init toks_comma_EOF) = OutOfFuel).
  { change (parse_predicate fuel (Parser_init toks_comma_EOF)) with
      (bind (parse_term_list fuel) (fun _ => match_ "SPECIAL" (Some ")") ;; ret tt)
         (mkParser toks_comma_EOF 2 [])).
    apply bind_OutOfFuel, Hl. }
  assert (Hc : parse_clause fuel (Parser_init toks_comma_EOF) = OutOfFuel).
  { unfold parse_clause. apply bind_OutOfFuel, Hp. }
  assert (Hcl : parse_clause_list fuel (Parser_init toks_comma_EOF) = OutOfFuel).
  { unfold parse_clause_list. destruct fuel as [|f]; [reflexivity|].
    change (while (S f) clause_cond (parse_clause (S f)) (Parser_init toks_comma_EOF)) with
      (bind (parse_clause (S f)) (fun _ => while f clause_cond (parse_clause (S f)))
         (Parser_init toks_comma_EOF)).
    apply bind_OutOfFuel, Hc. }
  change (parse_program fuel (Parser_init toks_comma_EOF)) with
    (bind (parse_clause_list fuel)
       (fun _ => c' <- text_is "?-" ;; if (c' : bool) then parse_query fuel else ret tt)
       (Parser_init toks_comma_EOF)).
  apply bind_OutOfFuel, Hcl.
Qed.

(** C8: on a token sequence that ends in EOF the cursor starts on a
    token; no method raises [IndexError] from a state whose cursor is on
    a token, and when it returns the token list is the same, the cursor
    has not moved back and is still on a token, at most on the last one;
    [advance] on the last token changes nothing. *)
Theorem cursor_monotone_in_bounds (toks : list Token) :
  ends_in_EOF toks ->
  in_bounds (Parser_init toks) /\
  (forall s, tokens s = toks -> in_bounds s ->
     forall op fuel,
       match run op fuel s with
       | Ok (_, s') =>
           tokens s' = toks /\ (pos s <= pos s')%nat /\ (pos s' <= length toks - 1)%nat /\
           in_bounds s'
       | IndexError => False
       | OutOfFuel => True
       end) /\
  (forall s, tokens s = toks -> pos s = (length toks - 1)%nat ->
     advance s = Ok (tt, s)).
Proof.
  intros He. split; [now apply init_in_bounds|]. split.
  - intros s T Hb op fuel. pose proof (run_good op fuel s Hb) as Hg.
    unfold good_at in Hg. destruct (run op fuel s) as [[a s']| |]; auto.
    destruct Hg as [Hext _]. pose proof (ext_in_bounds _ _ _ Hext) as Hb'.
    destruct Hext as (T' & P & B & _). subst toks.
    repeat split; auto. lia.
  - intros s T Hp. subst toks. rewrite advance_eq.
    destruct (Nat.ltb_spec (pos s + 1) (length (tokens s))); [lia | reflexivity].
Qed.

Lemma cursor_monotone_in_bounds_witness :
  in_bounds (Parser_init toks_fact) /\
  match run OpParseProgram 6 (Parser_init toks_fact) with
  | Ok (_, s') =>
      tokens s' = toks_fact /\ (0 <= pos s')%nat /\ (pos s' <= length toks_fact - 1)%nat /\
      in_bounds s'
  | IndexError => False
  | OutOfFuel => True
  end /\
  advance (mkParser toks_fact 2 []) = Ok (tt, mkParser toks_fact 2 []).
Proof.
  destruct (cursor_monotone_in_bounds toks_fact toks_fact_ends) as (H1 & H2 & H3).
  split; [exact H1|]. split.
  - exact (H2 (Parser_init toks_fact) eq_refl H1 OpParseProgram 6%nat).
  - apply H3; reflexivity.
Defined.

(** Where [parse_program] leaves the cursor: on a token sequence that
    ends in EOF it returns with the same tokens and the cursor on a
    token; when no token has the text [?-] the cursor is then on a token
    of kind EOF, and on the final sentinel when that is the only token
    of kind EOF.  When the first token has the text [?-] the run is the
    success branch of [parse_query] and nothing more: the cursor stays
    where the query ended. *)
Lemma parse_program_cursor (toks : list Token) (fuel : nat) :
  ends_in_EOF toks -> (2 * length toks <= fuel)%nat ->
  exists s',
    parse_program fuel (Parser_init toks) = Ok (tt, s') /\
    tokens s' = toks /\ (pos s' < length toks)%nat /\
    ((forall t, In t toks -> text t <> "?-") ->
       (exists token, nth_error toks (pos s') = Some token /\ kind token = "EOF") /\
       ((forall i t, nth_error toks i = Some t -> kind t = "EOF" ->
           i = (length toks - 1)%nat) ->
        pos s' = (length toks - 1)%nat)) /\
    ((exists t, nth_error toks 0 = Some t /\ text t = "?-") ->
       query_body fuel (Parser_init toks) = Ok (tt, s')).
Proof.
  intros He Hf. set (s0 := Parser_init toks).
  assert (Hb : in_bounds s0) by now apply init_in_bounds.
  assert (Hr : (2 * remaining s0 + 2 <= fuel)%nat) by now apply remaining_bound.
  destruct (parse_program_returns fuel s0 He Hb Hr) as ([] & s' & E).
  destruct (good_result _ _ _ _ _ _ (parse_program_good _ allows_any fuel s0 Hb) E)
    as [(T & _ & B & _) _].
  exists s'. split; [exact E|]. split; [exact T|]. split; [exact B|]. split.
  - intros Hnq.
    assert (Hno : forall s, tokens s = toks -> in_bounds s ->
              text_is "?-" s = Ok (false, s)).
    { intros s Ts Hs. destruct (current_token_returns s Hs) as [token Et].
      apply current_token_inv in Et. destruct Et as [_ Hn].
      rewrite (text_is_eq s token _ Hn). do 2 f_equal.
      apply String.eqb_neq. apply Hnq. rewrite <- Ts. eapply nth_error_In; eauto. }
    destruct (parse_clause_list_returns fuel s0 He Hb Hr) as (s1 & E1 & Hc).
    destruct (good_result _ _ _ _ _ _ (parse_clause_list_good _ allows_any fuel s0 Hb) E1)
      as [H1 _].
    pose proof (ext_in_bounds _ _ _ H1) as Hb1. destruct H1 as (T1 & _).
    change (tokens s1 = toks) in T1.
    assert (Es : s' = s1).
    { unfold parse_program, bind in E. rewrite (Hno s0 eq_refl Hb), E1 in E.
      rewrite (Hno s1 T1 Hb1) in E. unfold ret in E. now inversion E. }
    subst s'.
    destruct (clause_cond_inv _ _ _ Hc) as (_ & token & Hn & Hv).
    assert (Hk : kind token = "EOF").
    { symmetry in Hv. apply andb_false_iff in Hv. destruct Hv as [Hv|Hv].
      - now apply negb_false_iff, String.eqb_eq in Hv.
      - apply negb_false_iff, String.eqb_eq in Hv. exfalso.
        apply (Hnq token); [|exact Hv]. rewrite <- T1. eapply nth_error_In; eauto. }
    rewrite T1 in Hn. split; [eauto|]. intros Hu. eapply Hu; eauto.
  - intros (t & Hn & Ht).
    assert (Hc : text_is "?-" s0 = Ok (true, s0)).
    { rewrite (text_is_eq s0 t _ Hn). apply String.eqb_eq in Ht. now rewrite Ht. }
    rewrite <- E. unfold parse_program, bind at 1. rewrite Hc.
    symmetry. now apply parse_query_guarded.
Qed.

(** C1 does not hold of the code: [parse_program] stops where a query
    ends.  The text [?- a. b(] begins with a query; its tokens end in
    EOF, at index 5; [parse_program] returns (with any fuel from 3 on)
    with the cursor at index 3, on the atom [b], and with no error: the
    tokens [b] and [(] are never examined, and the text is reported
    correct.  The same clause is examined when no query stands before
    it: the text [a. b(] has three errors.  So the claim, that the
    cursor is on the EOF token whenever [parse_program] has returned,
    fails. *)
Theorem parse_program_stops_after_query :
  option_map Lexer.get_tokens (Lexer.init 8 "?- a. b(") = Some toks_query_open /\
  ends_in_EOF toks_query_open /\
  (forall fuel, (3 <= fuel)%nat ->
     parse_program fuel (Parser_init toks_query_open) =
     Ok (tt, mkParser toks_query_open 3 [])) /\
  nth_error toks_query_open 3 = Some ("ATOM", "b", 1%Z) /\
  nth_error toks_query_open 5 = Some ("EOF", "", 1%Z) /\
  check_syntax "?- a. b(" = Ok [] /\
  check_syntax "a. b(" =
    Ok [error_msg 1 "Invalid term: expected atom, variable, numeral, or structure";
        error_msg 1 "Expected SPECIAL ')' but found EOF ''";
        error_msg 1 "Clause must end with '.' or use ':-' followed by a predicate list and a '.'"] /\
  ~ (forall toks fuel s',
       ends_in_EOF toks ->
       parse_program fuel (Parser_init toks) = Ok (tt, s') ->
       exists token, nth_error toks (pos s') = Some token /\ kind token = "EOF").
Proof.
  assert (He : ends_in_EOF toks_query_open).
  { exists [("SPECIAL", "?-", 1%Z); ("ATOM", "a", 1%Z); ("SPECIAL", ".", 1%Z);
            ("ATOM", "b", 1%Z); ("SPECIAL", "(", 1%Z)], 1%Z. reflexivity. }
  split; [reflexivity|]. split; [exact He|].
  split; [|split; [reflexivity|split; [reflexivity|split; [|split]]]].
  - intros fuel Hf. do 3 (destruct fuel as [|fuel]; [lia|]). reflexivity.
  - vm_compute. reflexivity.
  - vm_compute. reflexivity.
  - intros H. specialize (H _ 3%nat _ He eq_refl).
    destruct H as (token & Hn & Hk). cbn in Hn. inversion Hn; subst token. discriminate.
Qed.

(* ================================================================== *)
(** * More fuel changes no result *)

Lemma le_M_refl {A} (m : M A) : le_M m m.
Proof. intros s r H. exact H. Qed.

Lemma le_M_bind {A B} (m m' : M A) (k k' : A -> M B) :
  le_M m m' -> (forall a, le_M (k a) (k' a)) -> le_M (bind m k) (bind m' k').
Proof.
  intros Hm Hk s r. unfold bind.
  destruct (m s) as [[a s1]| |] eqn:E; try discriminate.
  rewrite (Hm _ _ E). apply Hk.
Qed.

Lemma le_M_while cond body body' fuel :
  le_M body body' ->
  forall fuel', (fuel <= fuel')%nat ->
  le_M (while fuel cond body) (while fuel' cond body').
Proof.
  intros Hb. induction fuel as [|fuel IH]; intros fuel' Hle.
  - intros s r H. discriminate.
  - destruct fuel' as [|fuel']; [lia|]. cbn [while].
    apply le_M_bind; [apply le_M_refl|]. intros [|]; [|apply le_M_refl].
    apply le_M_bind; [exact Hb|]. intros _. apply IH. lia.
Qed.

(** Sequences and branches of calls that are pairwise related. *)
Ltac le_M_step :=
  first
    [ assumption
    | apply le_M_refl
    | apply le_M_bind; [|intros ?]
    | match goal with
      | |- le_M (if ?c then _ else _) _ => destruct c
      end ].

Lemma parse_term_mono fuel : forall fuel', (fuel <= fuel')%nat ->
  le_M (parse_term fuel) (parse_term fuel') /\
  le_M (parse_term_list fuel) (parse_term_list fuel').
Proof.
  induction fuel as [|fuel IH]; intros fuel' Hle.
  - split; intros s r H; discriminate.
  - destruct fuel' as [|fuel']; [lia|].
    destruct (IH fuel' ltac:(lia)) as [IHt IHl].
    split.
    + cbn [parse_term]. repeat le_M_step.
    + cbn [parse_term_list]. apply le_M_bind; [exact IHt|]. intros _.
      apply le_M_while; [|lia]. repeat le_M_step.
Qed.

Section Mono.
Variables fuel fuel' : nat.
Hypothesis Hle : (fuel <= fuel')%nat.

Lemma parse_predicate_mono : le_M (parse_predicate fuel) (parse_predicate fuel').
Proof.
  pose proof (proj2 (parse_term_mono fuel fuel' Hle)) as Hl.
  unfold parse_predicate. repeat le_M_step.
Qed.

Lemma parse_predicate_list_mono :
  le_M (parse_predicate_list fuel) (parse_predicate_list fuel').
Proof.
  pose proof parse_predicate_mono as Hp.
  unfold parse_predicate_list. apply le_M_bind; [exact Hp|]. intros _.
  apply le_M_while; [|exact Hle]. repeat le_M_step.
Qed.

Lemma parse_query_mono : le_M (parse_query fuel) (parse_query fuel').
Proof.
  pose proof parse_predicate_list_mono as Hp.
  unfold parse_query. repeat le_M_step.
Qed.

Lemma parse_clause_mono : le_M (parse_clause fuel) (parse_clause fuel').
Proof.
  pose proof parse_predicate_list_mono as Hl. pose proof parse_predicate_mono as Hp.
  unfold parse_clause. repeat le_M_step.
Qed.

Lemma parse_clause_list_mono : le_M (parse_clause_list fuel) (parse_clause_list fuel').
Proof.
  unfold parse_clause_list. apply le_M_while; [apply parse_clause_mono | exact Hle].
Qed.

Lemma parse_program_mono : le_M (parse_program fuel) (parse_program fuel').
Proof.
  pose proof parse_query_mono as Hq. pose proof parse_clause_list_mono as Hc.
  unfold parse_program. repeat le_M_step.
Qed.

Lemma process_text_mono content errs :
  process_text fuel content = Ok errs -> process_text fuel' content = Ok errs.
Proof.
  unfold process_text.
  destruct (Lexer.init fuel content) as [lexer|] eqn:El; [|discriminate].
  rewrite (lexer_init_mono _ _ _ _ Hle El).
  destruct (parse_program fuel _) as [[[] s']| |] eqn:Ep; try discriminate.
  now rewrite (parse_program_mono _ _ Ep).
Qed.

End Mono.

(** The pipeline with the fuel of [check_syntax] returns. *)
Lemma process_text_enough content fuel :
  (fuel_for content <= fuel)%nat -> exists errs, process_text fuel content = Ok errs.
Proof.
  unfold fuel_for. intros Hf.
  destruct (lexer_init_spec content fuel ltac:(lia)) as (lexer & pre & El & Et & _ & Hl).
  unfold process_text. rewrite El.
  assert (He : ends_in_EOF (Lexer.get_tokens lexer)).
  { rewrite Et. now eexists _, _. }
  destruct (parse_program_returns fuel (Parser_init (Lexer.get_tokens lexer)))
    as ([] & s' & E).
  - exact He.
  - now apply init_in_bounds.
  - apply remaining_bound; [|now apply init_in_bounds].
    cbn [tokens Parser_init]. rewrite Et, length_app. cbn [length]. lia.
  - rewrite E. eauto.
Qed.

(* ================================================================== *)
(** * The contract of [match] *)

Lemma match_eq s token k v :
  nth_error (tokens s) (pos s) = Some token ->
  match_ k v s =
  if matches k v token then Ok (true, advanced s)
  else Ok (false, with_error s (line token) (expected_message k v token)).
Proof.
  intros Hn. unfold match_, bind at 1, current_token. rewrite Hn.
  fold (matches k v token). destruct (matches k v token).
  - unfold DEBUG, bind, ret. rewrite advance_eq. unfold advanced.
    destruct (pos s + 1 <? length (tokens s))%nat; [reflexivity|].
    destruct s; reflexivity.
  - reflexivity.
Qed.

(** C6, as the code has it: with [token] under the cursor, [match]
    succeeds exactly when the kind of [token] is the expected one and,
    if a value is given, its text is that value.  On success it returns
    true after one call of [advance], which moves the cursor by one
    unless it is on the last token (so it moves by one whenever the
    tokens end in the EOF sentinel and the expected kind is not EOF).
    On failure it returns false, appends the one entry
    [Syntax Error at line L: Expected ...] with [L] the line of [token],
    and leaves the cursor where it is. *)
Theorem match_contract (s : Parser) (token : Token) (k : string) (v : option string) :
  nth_error (tokens s) (pos s) = Some token ->
  (matches k v token = true ->
     match_ k v s = Ok (true, advanced s) /\
     errors (advanced s) = errors s /\
     ((pos s + 1 < length (tokens s))%nat -> pos (advanced s) = (pos s + 1)%nat) /\
     (pos s = (length (tokens s) - 1)%nat -> pos (advanced s) = pos s) /\
     (ends_in_EOF (tokens s) -> k <> "EOF" -> pos (advanced s) = (pos s + 1)%nat)) /\
  (matches k v token = false ->
     match_ k v s =
       Ok (false, mkParser (tokens s) (pos s)
                    (errors s ++
                     ["Syntax Error at line " ++ str_int (line token) ++ ": " ++
                      expected_message k v token]))).
Proof.
  intros Hn. rewrite (match_eq s token k v Hn). split; intros Hm; rewrite Hm.
  - assert (Hb : in_bounds s).
    { unfold in_bounds. apply nth_error_Some. congruence. }
    unfold advanced. cbn [pos errors].
    split; [reflexivity|]. split; [reflexivity|]. split; [|split].
    + intros Hlt. destruct (Nat.ltb_spec (pos s + 1) (length (tokens s))); [reflexivity|lia].
    + intros Hl. unfold in_bounds in Hb.
      destruct (Nat.ltb_spec (pos s + 1) (length (tokens s))); [lia|reflexivity].
    + intros He Hk.
      assert (Hr : (0 < remaining s)%nat).
      { apply not_sentinel_has_remaining with token; auto.
        unfold matches in Hm. apply andb_prop in Hm. destruct Hm as [Hm _].
        apply String.eqb_eq in Hm. apply String.eqb_neq. congruence. }
      unfold remaining in Hr.
      destruct (Nat.ltb_spec (pos s + 1) (length (tokens s))); [reflexivity|lia].
  - reflexivity.
Qed.

Lemma match_contract_witness :
  (match_ "ATOM" None (Parser_init toks_fact) = Ok (true, advanced (Parser_init toks_fact)) /\
   pos (advanced (Parser_init toks_fact)) = 1%nat) /\
  match_ "SPECIAL" (Some ".") (Parser_init toks_fact) =
    Ok (false, mkParser toks_fact 0
                 ["Syntax Error at line 1: Expected SPECIAL '.' but found ATOM 'a'"]).
Proof.
  pose proof (match_contract (Parser_init toks_fact) ("ATOM", "a", 1%Z)) as H.
  split.
  - destruct (proj1 (H "ATOM" None eq_refl) eq_refl) as (H1 & _ & _ & _ & H5).
    split; [exact H1|]. apply H5; [exact toks_fact_ends | discriminate].
  - exact (proj2 (H "SPECIAL" (Some ".") eq_refl) eq_refl).
Defined.

(** C6 fails as stated: on the state whose cursor is on the EOF
    sentinel, [match('EOF')] succeeds and returns true, and the cursor
    has not moved. *)
Lemma match_at_sentinel_does_not_advance :
  match_ "EOF" None (Parser_init toks_empty) = Ok (true, Parser_init toks_empty) /\
  ~ (forall s token k v s',
       nth_error (tokens s) (pos s) = Some token ->
       match_ k v s = Ok (true, s') -> pos s' = (pos s + 1)%nat).
Proof.
  split; [reflexivity|].
  intros H.
  specialize (H (Parser_init toks_empty) ("EOF", "", 1%Z) "EOF" None
                (Parser_init toks_empty) eq_refl eq_refl).
  discriminate H.
Qed.

(* ================================================================== *)
(** * The scenarios of the specification *)

(** C5: the five valid texts are reported without any error. *)
Theorem valid_inputs_no_errors :
  check_syntax "parent(tom, bob)." = Ok [] /\
  check_syntax "ancestor(X,Y) :- parent(X,Y)." = Ok [] /\
  check_syntax "?- parent(tom, bob)." = Ok [] /\
  check_syntax "" = Ok [] /\
  check_syntax "f(X, g(Y, 1))." = Ok [].
Proof. repeat split; vm_compute; reflexivity. Qed.

(** C2, as the code has it: the text [parent(tom bob).] yields exactly
    three errors, each of them at line 1: the [)] that [match] expected
    where it found [bob], the clause that does not end there, and the
    [)] at which the next clause cannot start. *)
Theorem missing_comma_errors :
  check_syntax "parent(tom bob)." =
  Ok [error_msg 1 "Expected SPECIAL ')' but found ATOM 'bob'";
      error_msg 1 "Clause must end with '.' or use ':-' followed by a predicate list and a '.'";
      error_msg 1 "Predicate must start with an atom"].
Proof. vm_compute. reflexivity. Qed.

(** C2 fails as stated: the error list of [parent(tom bob).] has three
    entries, not one. *)
Lemma missing_comma_not_one_error :
  ~ (exists e, check_syntax "parent(tom bob)." = Ok [e]).
Proof. intros [e H]. vm_compute in H. discriminate H. Qed.

(* ================================================================== *)
(** * The failure branch of [parse_query] *)

Lemma no_colon_uint d : no_colon (NilEmpty.string_of_uint d) = true.
Proof. induction d; cbn; auto. Qed.

Lemma no_colon_nil_zero d : no_colon (NilZero.string_of_uint d) = true.
Proof.
  unfold NilZero.string_of_uint. destruct d; try reflexivity; apply no_colon_uint.
Qed.

Lemma no_colon_str_int n : no_colon (str_int n) = true.
Proof.
  unfold str_int, NilZero.string_of_int. destruct (Z.to_int n) as [d|d].
  - apply no_colon_nil_zero.
  - change (no_colon (NilZero.string_of_uint d) = true). apply no_colon_nil_zero.
Qed.

(** Two texts that agree up to their first colon agree after it. *)
Lemma colon_split a : forall a' m m',
  no_colon a = true -> no_colon a' = true ->
  a ++ String ":" m = a' ++ String ":" m' -> m = m'.
Proof.
  induction a as [|c a IH]; intros [|c' a'] m m' Ha Ha' E; cbn in *.
  - now inversion E.
  - inversion E; subst c'. cbn in Ha'. discriminate.
  - inversion E; subst c. cbn in Ha. discriminate.
  - inversion E; subst c'.
    apply andb_prop in Ha. apply andb_prop in Ha'. eapply IH; intuition eauto.
Qed.

Lemma error_msg_inj l l' m m' : error_msg l m = error_msg l' m' -> m = m'.
Proof.
  unfold error_msg. cbn [append]. intros E. 
  repeat match type of E with String _ _ = String _ _ => injection E as E end.
  apply colon_split in E; try apply no_colon_str_int.
  now inversion E.
Qed.

Lemma allows_not_query : allows (fun e => ~ query_error e).
Proof.
  intros l m Hm [l' E]. apply error_msg_inj in E. contradiction.
Qed.

Lemma bind_ext {A B} (m : M A) (k k' : A -> M B) s :
  (forall a s', m s = Ok (a, s') -> k a s' = k' a s') -> bind m k s = bind m k' s.
Proof.
  intros H. unfold bind. destruct (m s) as [[a s']| |]; auto.
Qed.

Example parse_query_failure_branch :
  parse_query 1 (Parser_init toks_empty) =
  Ok (tt, mkParser toks_empty 0 [error_msg 1 "Query should start with '?-'"]).
Proof. reflexivity. Qed.

(** C10: from [parse_program], [parse_query] runs only where the text
    under the cursor is [?-]: [parse_program] is the program in which
    each call of [parse_query] is the success branch alone; so whatever
    the token list and the fuel, no entry of the error list of a run
    that returns is the entry of the failure branch,
    [Syntax Error at line L: Query should start with '?-'], for any
    line [L]. *)
Theorem query_error_unreachable (toks : list Token) (fuel : nat) :
  (forall s, parse_program fuel s = parse_program_guarded fuel s) /\
  match parse_program fuel (Parser_init toks) with
  | Ok (_, s') =>
      forall e l, In e (errors s') ->
        e <> "Syntax Error at line " ++ str_int l ++ ": Query should start with '?-'"
  | IndexError => True
  | OutOfFuel => True
  end.
Proof.
  split.
  - assert (Hq : forall c s s', text_is "?-" s = Ok (c, s') ->
              (if c then parse_query fuel else ret tt) s' =
              (if c then query_body fuel else ret tt) s').
    { intros c s s' Hc. destruct (text_is_inv _ _ _ _ Hc) as (-> & _).
      destruct c; [|reflexivity]. now apply parse_query_guarded. }
    intros s. unfold parse_program, parse_program_guarded.
    apply bind_ext. intros c s1 Ec. destruct c; [exact (Hq true s s1 Ec)|].
    apply bind_ext. intros _ s2 _. apply bind_ext. intros c s3 Ec'.
    exact (Hq c s2 s3 Ec').
  - destruct toks as [|t toks]; [reflexivity|].
    assert (Hb : in_bounds (Parser_init (t :: toks))) by (unfold in_bounds; cbn; lia).
    pose proof (parse_program_good _ allows_not_query fuel _ Hb) as Hg.
    unfold good_at in Hg.
    destruct (parse_program fuel (Parser_init (t :: toks))) as [[u s']| |]; auto.
    destruct Hg as [(_ & _ & _ & added & Ea & Fa) _]. cbn in Ea.
    intros e l Hin He. rewrite Ea in Hin. rewrite Forall_forall in Fa.
    apply (Fa e Hin). exists l. exact He.
Qed.

Lemma query_error_unreachable_witness :
  parse_program 6 (Parser_init toks_bad) =
    Ok (tt, mkParser toks_bad 2
              [error_msg 1 "Predicate must start with an atom";
               error_msg 1 "Clause must end with '.' or use ':-' followed by a predicate list and a '.'"]) /\
  error_msg 1 "Predicate must start with an atom" <>
  "Syntax Error at line " ++ str_int 1 ++ ": Query should start with '?-'".
Proof.
  split; [reflexivity|].
  apply (proj2 (query_error_unreachable toks_bad 6)
           (error_msg 1 "Predicate must start with an atom") 1%Z).
  left. reflexivity.
Defined.

(* ================================================================== *)
(** * The token list of a text *)

Section LexerOutput.
Import Lexer.

Lemma span_eq p s : s = fst (span p s) ++ snd (span p s).
Proof.
  induction s as [|c r IH]; cbn; [reflexivity|].
  destruct (p c); [|reflexivity].
  destruct (span p r) as [v rest]; cbn in *. now rewrite <- IH.
Qed.

Lemma span_all p s : all_chars p (fst (span p s)) = true.
Proof.
  induction s as [|c r IH]; cbn; [reflexivity|].
  destruct (p c) eqn:Hc; [|reflexivity].
  destruct (span p r) as [v rest]; cbn in *. now rewrite Hc.
Qed.

Lemma blank_char c : is_blank c = true -> c = " "%char \/ c = "009"%char.
Proof.
  unfold is_blank. intros H. apply orb_prop in H.
  destruct H as [H|H]; apply Ascii.eqb_eq in H; auto.
Qed.

Lemma solid_char p c :
  solid p -> p c = true -> is_blank c || is_newline c = false.
Proof.
  intros (H1 & H2 & H3) Hc.
  destruct (is_blank c) eqn:Hb.
  - apply blank_char in Hb. destruct Hb; subst c; congruence.
  - destruct (is_newline c) eqn:Hn; [|reflexivity].
    apply newline_char in Hn. subst c. congruence.
Qed.

Lemma strip_solid p v : solid p -> all_chars p v = true -> strip v = v.
Proof.
  intros Hp. induction v as [|c r IH]; cbn; [reflexivity|].
  intros H. apply andb_prop in H. destruct H as [Hc Hr].
  rewrite (solid_char p c Hp Hc). now rewrite IH.
Qed.

Lemma strip_blank v : all_chars is_blank v = true -> strip v = "".
Proof.
  induction v as [|c r IH]; cbn; [reflexivity|].
  intros H. apply andb_prop in H. destruct H as [Hc Hr].
  rewrite Hc. cbn. now apply IH.
Qed.

Lemma strip_app a b : strip (a ++ b) = strip a ++ strip b.
Proof.
  induction a as [|c r IH]; cbn; [reflexivity|].
  destruct (is_blank c || is_newline c); cbn; now rewrite IH.
Qed.

Lemma solid_digit : solid is_digit.
Proof. repeat split. Qed.

Lemma solid_word : solid is_word.
Proof. repeat split. Qed.

Lemma solid_lower : solid is_lower.
Proof. repeat split. Qed.

Lemma solid_upper_ : solid is_upper_.
Proof. repeat split. Qed.

Lemma solid_special1 : solid is_special1.
Proof. repeat split. Qed.

Lemma after_dash_eq r rest : after_dash r = Some rest -> r = String "-" rest.
Proof.
  destruct r as [|d r0]; cbn; [discriminate|].
  destruct (Ascii.eqb d "-") eqn:E; [|discriminate].
  apply Ascii.eqb_eq in E. subst d. intros H; now inversion H.
Qed.

(** What one match of the alternation is: a prefix of the text that is
    left, blank if its group is SKIP or NEWLINE, and otherwise the text
    of a well-shaped token that holds no blank. *)
Lemma get_token_full c r k v rest :
  get_token (String c r) = Some (k, v, rest) ->
  String c r = v ++ rest /\
  ((k = "NEWLINE" /\ strip v = "") \/
   (k = "SKIP" /\ strip v = "") \/
   (k = "MISMATCH" /\ strip v = v /\ forall l, token_ok ("ERROR", v, l) = true) \/
   ((k = "NUMBER" \/ k = "ATOM" \/ k = "VARIABLE" \/ k = "SPECIAL") /\
    strip v = v /\ forall l, token_ok (k, v, l) = true)).
Proof.
  unfold get_token.
  destruct (is_digit c) eqn:Hd.
  { pose proof (span_eq is_digit r) as He. pose proof (span_all is_digit r) as Ha.
    destruct (span is_digit r) as [v' rest']; cbn in He, Ha.
    intros H; inversion H; subst k v rest. split; [cbn; now rewrite <- He|].
    right. right. right. split; [tauto|]. split.
    - apply (strip_solid is_digit); [apply solid_digit|]. cbn. now rewrite Hd.
    - intros l. unfold token_ok. cbn. now rewrite Hd. }
  destruct (is_lower c) eqn:Hl.
  { pose proof (span_eq is_word r) as He. pose proof (span_all is_word r) as Ha.
    destruct (span is_word r) as [v' rest']; cbn in He, Ha.
    intros H; inversion H; subst k v rest. split; [cbn; now rewrite <- He|].
    right. right. right. split; [tauto|]. split.
    - cbn. rewrite (solid_char is_lower c solid_lower Hl).
      now rewrite (strip_solid is_word v' solid_word Ha).
    - intros l. unfold token_ok. cbn. now rewrite Hl. }
  destruct (is_upper_ c) eqn:Hu.
  { pose proof (span_eq is_word r) as He. pose proof (span_all is_word r) as Ha.
    destruct (span is_word r) as [v' rest']; cbn in He, Ha.
    intros H; inversion H; subst k v rest. split; [cbn; now rewrite <- He|].
    right. right. right. split; [tauto|]. split.
    - cbn. rewrite (solid_char is_upper_ c solid_upper_ Hu).
      now rewrite (strip_solid is_word v' solid_word Ha).
    - intros l. unfold token_ok. cbn. now rewrite Hu. }
  destruct (if Ascii.eqb c "?" then after_dash r else None) as [r1|] eqn:H1.
  { destruct (Ascii.eqb c "?") eqn:E; [|discriminate].
    apply Ascii.eqb_eq in E. subst c. apply after_dash_eq in H1. subst r.
    intros H; inversion H; subst k v rest. split; [reflexivity|].
    right. right. right. split; [tauto|]. split; [reflexivity|]. intros l; reflexivity. }
  destruct (if Ascii.eqb c ":" then after_dash r else None) as [r2|] eqn:H2.
  { destruct (Ascii.eqb c ":") eqn:E; [|discriminate].
    apply Ascii.eqb_eq in E. subst c. apply after_dash_eq in H2. subst r.
    intros H; inversion H; subst k v rest. split; [reflexivity|].
    right. right. right. split; [tauto|]. split; [reflexivity|]. intros l; reflexivity. }
  destruct (is_special1 c) eqn:Hs.
  { intros H; inversion H; subst k v rest. split; [reflexivity|].
    right. right. right. split; [tauto|]. split.
    - cbn. now rewrite (solid_char is_special1 c solid_special1 Hs).
    - intros l. unfold token_ok, special_text. cbn [kind text fst snd].
      cbn [String.eqb Ascii.eqb Bool.eqb orb andb].
      unfold is_special1 in Hs.
      repeat (apply orb_prop in Hs; destruct Hs as [Hs|Hs]);
        apply Ascii.eqb_eq in Hs; subst c; reflexivity. }
  destruct (is_blank c) eqn:Hb.
  { pose proof (span_eq is_blank r) as He. pose proof (span_all is_blank r) as Ha.
    destruct (span is_blank r) as [v' rest']; cbn in He, Ha.
    intros H; inversion H; subst k v rest. split; [cbn; now rewrite <- He|].
    right. left. split; [reflexivity|]. apply strip_blank. cbn. now rewrite Hb. }
  destruct (is_newline c) eqn:Hn.
  { intros H; inversion H; subst k v rest. split; [reflexivity|].
    left. split; [reflexivity|]. cbn. rewrite Hn. now rewrite orb_true_r. }
  intros H; inversion H; subst k v rest. split; [reflexivity|].
  right. right. left. split; [reflexivity|]. split.
  - cbn. now rewrite Hb, Hn.
  - intros l. unfold token_ok, stray_char. cbn. now rewrite Hd, Hl, Hu, Hs, Hb, Hn.
Qed.

End LexerOutput.

Section LexerLoop.

Lemma count_newlines_nonneg s : (0 <= count_newlines s)%Z.
Proof. induction s as [|c r IH]; cbn; [lia|]. destruct (Lexer.is_newline c); lia. Qed.

Lemma string_app_assoc (a b c : string) : (a ++ b) ++ c = a ++ b ++ c.
Proof. induction a as [|x a IH]; cbn; [reflexivity|]. now rewrite IH. Qed.

Lemma string_length_app (a b : string) :
  String.length (a ++ b) = (String.length a + String.length b)%nat.
Proof. induction a as [|x a IH]; cbn; [reflexivity|]. now rewrite IH. Qed.

Lemma concat_texts_app a b : concat_texts (a ++ b) = concat_texts a ++ concat_texts b.
Proof.
  induction a as [|t a IH]; cbn; [reflexivity|].
  fold (concat_texts (a ++ b)). fold (concat_texts a).
  rewrite IH. now rewrite string_app_assoc.
Qed.

(** The loop of [tokenize], from any state, with enough fuel: the
    texts of the tokens it appends make up the text that was left less
    its blanks, each token is well shaped, and the lines of the tokens
    go up from the current line by at most the newlines that are
    left. *)
Lemma tokenize_loop_full fuel : forall rest self,
  (String.length rest <= fuel)%nat ->
  exists added,
    Lexer.tokenize_loop fuel rest self =
      Some (Lexer.mk (Lexer.text self) (Lexer.tokens self ++ added)
               (Lexer.line self + count_newlines rest)) /\
    concat_texts added = strip rest /\
    Forall (fun t => token_ok t = true) added /\
    Forall (fun t => (Lexer.line self <= snd t <= Lexer.line self + count_newlines rest)%Z)
           added /\
    StronglySorted line_le added.
Proof.
  induction fuel as [|fuel IH]; intros rest self Hlen.
  - destruct rest; [|simpl in Hlen; lia].
    exists []. cbn. rewrite app_nil_r, Z.add_0_r. destruct self.
    repeat split; auto; constructor.
  - destruct rest as [|c r].
    { exists []. cbn. rewrite app_nil_r, Z.add_0_r. destruct self.
      repeat split; auto; constructor. }
    cbn [Lexer.tokenize_loop].
    destruct (Lexer.get_token (String c r)) as [[[k v] rest']|] eqn:Hg;
      [|exfalso; exact (get_token_total _ _ Hg)].
    destruct (get_token_step _ _ _ _ _ Hg) as (Hl & Hn & _).
    destruct (get_token_full _ _ _ _ _ Hg) as (Hsplit & Hk).
    simpl in Hlen.
    assert (Hf : (String.length rest' <= fuel)%nat) by lia.
    pose proof (count_newlines_nonneg rest') as Hpos.
    assert (Hstrip : strip (String c r) = strip v ++ strip rest')
      by (rewrite Hsplit; apply strip_app).
    rewrite Hstrip.
    destruct Hk as [[-> Hs]|[[-> Hs]|[(-> & Hs & Hok)|(Hk & Hs & Hok)]]].
    + change (count_newlines (String c r) = (1 + count_newlines rest')%Z) in Hn.
      cbv [String.eqb Ascii.eqb Bool.eqb].
      destruct (IH rest' (Lexer.mk (Lexer.text self) (Lexer.tokens self) (Lexer.line self + 1)) Hf)
        as (added & Heq & Hc & Hok & Hb & Hsrt).
      cbn [Lexer.text Lexer.tokens Lexer.line] in *.
      exists added. rewrite Heq, Hn, Hs, Hc.
      split; [do 2 f_equal; lia|]. split; [reflexivity|]. split; [exact Hok|].
      split; [|exact Hsrt].
      eapply Forall_impl; [|exact Hb]. intros t Ht. cbv beta in *. lia.
    + change (count_newlines (String c r) = (0 + count_newlines rest')%Z) in Hn.
      cbv [String.eqb Ascii.eqb Bool.eqb].
      destruct (IH rest' self Hf) as (added & Heq & Hc & Hok & Hb & Hsrt).
      exists added. rewrite Heq, Hn, Hs, Hc.
      split; [reflexivity|]. split; [reflexivity|]. split; [exact Hok|].
      split; [exact Hb | exact Hsrt].
    + change (count_newlines (String c r) = (0 + count_newlines rest')%Z) in Hn.
      cbv [String.eqb Ascii.eqb Bool.eqb].
      destruct (IH rest' (Lexer.mk (Lexer.text self)
                  (Lexer.tokens self ++ [("ERROR", v, Lexer.line self)]) (Lexer.line self)) Hf)
        as (added & Heq & Hc & Hok' & Hb & Hsrt).
      cbn [Lexer.text Lexer.tokens Lexer.line] in *.
      exists (("ERROR", v, Lexer.line self) :: added). rewrite Heq, Hn, Hs.
      split; [rewrite <- app_assoc; reflexivity|].
      split; [cbn; fold (concat_texts added); now rewrite Hc|].
      split; [constructor; [apply Hok | exact Hok']|].
      split; [constructor; [cbn [snd]; lia | exact Hb]|].
      constructor; [exact Hsrt|].
      eapply Forall_impl; [|exact Hb]. intros t Ht. unfold line_le, line. cbn [snd]. cbv beta in *. lia.
    + assert (Hk' : (k =? "NEWLINE") = false /\ (k =? "SKIP") = false /\
                    (k =? "MISMATCH") = false).
      { destruct Hk as [Hk|[Hk|[Hk|Hk]]]; subst k; cbn; tauto. }
      destruct Hk' as (E1 & E2 & E3). rewrite E1 in Hn |- *. rewrite E2, E3.
      destruct (IH rest' (Lexer.mk (Lexer.text self)
                  (Lexer.tokens self ++ [(k, v, Lexer.line self)]) (Lexer.line self)) Hf)
        as (added & Heq & Hc & Hok' & Hb & Hsrt).
      cbn [Lexer.text Lexer.tokens Lexer.line] in *.
      exists ((k, v, Lexer.line self) :: added). rewrite Heq, Hn, Hs.
      split; [rewrite <- app_assoc; reflexivity|].
      split; [cbn; fold (concat_texts added); now rewrite Hc|].
      split; [constructor; [apply Hok | exact Hok']|].
      split; [constructor; [cbn [snd]; lia | exact Hb]|].
      constructor; [exact Hsrt|].
      eapply Forall_impl; [|exact Hb]. intros t Ht. unfold line_le, line. cbn [snd]. cbv beta in *. lia.
Qed.

End LexerLoop.

Lemma lexes_total content : exists toks, lexes content toks.
Proof.
  destruct (lexer_init_spec content (String.length content) (le_n _))
    as (lexer & pre & Hi & _).
  exists (Lexer.get_tokens lexer), (String.length content), lexer. auto.
Qed.

Lemma StronglySorted_snoc {A} (R : A -> A -> Prop) l x :
  StronglySorted R l -> Forall (fun a => R a x) l -> StronglySorted R (l ++ [x]).
Proof.
  induction 1 as [|a l Hs IH Ha]; intros Hx; cbn.
  - constructor; constructor.
  - inversion Hx; subst. constructor; [now apply IH|].
    apply Forall_app. split; [exact Ha | constructor; auto].
Qed.

(** The token list of a text: scanned tokens, then the sentinel. *)
Lemma lexes_full content toks :
  lexes content toks ->
  exists pre,
    toks = (pre ++ [("EOF", "", (1 + count_newlines content)%Z)])%list /\
    concat_texts pre = strip content /\
    Forall (fun t => token_ok t = true) pre /\
    Forall (fun t => (1 <= line t <= 1 + count_newlines content)%Z) pre /\
    StronglySorted line_le pre.
Proof.
  intros (fuel & lexer & Hi & Ht).
  apply (lexer_init_mono fuel (Nat.max fuel (String.length content))) in Hi;
    [|apply Nat.le_max_l].
  unfold Lexer.init, Lexer.tokenize in Hi.
  destruct (tokenize_loop_full (Nat.max fuel (String.length content)) content
              (Lexer.mk content [] 1) (Nat.le_max_r _ _))
    as (added & Heq & Hc & Hok & Hb & Hs).
  cbn [Lexer.text Lexer.tokens Lexer.line app] in *. rewrite Heq in Hi.
  cbn [Lexer.text Lexer.tokens Lexer.line app] in *.
  inversion Hi; subst lexer. cbn in Ht. subst toks.
  exists added. repeat split; auto.
Qed.

Lemma lexes_ends_in_EOF content toks : lexes content toks -> ends_in_EOF toks.
Proof. intros H. destruct (lexes_full _ _ H) as (pre & -> & _). now eexists _, _. Qed.

Lemma token_ok_nonempty t : token_ok t = true -> (1 <= String.length (text t))%nat.
Proof.
  destruct t as [[k v] l]. unfold token_ok. cbn [kind text fst snd].
  destruct v as [|c v]; [|cbn; lia].
  repeat match goal with |- context [if ?b then _ else _] => destruct b end;
    discriminate.
Qed.

Lemma token_count_texts pre :
  Forall (fun t => token_ok t = true) pre ->
  (length pre <= String.length (concat_texts pre))%nat.
Proof.
  induction 1 as [|t pre Ht _ IH]; cbn; [lia|].
  fold (concat_texts pre). rewrite string_length_app.
  apply token_ok_nonempty in Ht. lia.
Qed.

Lemma lexes_two_lines : lexes text_two_lines toks_two_lines.
Proof.
  exists 20%nat. eexists. split; [vm_compute; reflexivity | reflexivity].
Qed.

(* ================================================================== *)
(** * Unrecognized characters

    A character that belongs to no token and is not skipped cuts the
    text in two: the lexer reads what is before it as if the text ended
    there, appends the ERROR token of the character, and reads what is
    after it as a text of its own, on the lines that follow. *)

Section LexerSplit.
Import Lexer.

Variables (c : ascii) (after : string).
Hypothesis Hd : is_digit c = false.
Hypothesis Hw : is_word c = false.
Hypothesis Hb : is_blank c = false.

Lemma span_stop p x :
  p c = false ->
  span p (x ++ String c after) = (fst (span p x), snd (span p x) ++ String c after).
Proof.
  intros Hp. induction x as [|d x IH]; cbn.
  - now rewrite Hp.
  - destruct (p d); [|reflexivity].
    rewrite IH. destruct (span p x) as [v rest]. reflexivity.
Qed.

Lemma ends_in_mark_app v r : ends_in_mark r = true -> ends_in_mark (v ++ r) = true.
Proof.
  intros Hr. induction v as [|d v IH]; [exact Hr|].
  cbn [append ends_in_mark]. destruct (v ++ r) eqn:E; [|exact IH].
  destruct v; [|discriminate]. cbn in E. subst r. discriminate.
Qed.

Lemma after_dash_stop m x :
  dash_of_special (String m x) c = false ->
  Ascii.eqb m "?" || Ascii.eqb m ":" = true ->
  after_dash (x ++ String c after) =
  option_map (fun r => r ++ String c after) (after_dash x).
Proof.
  intros Hdash Hm. destruct x as [|e x]; cbn.
  - unfold dash_of_special in Hdash. cbn in Hdash. rewrite Hm, andb_true_r in Hdash.
    now rewrite Hdash.
  - destruct (Ascii.eqb e "-"); reflexivity.
Qed.

Lemma get_token_stop d x :
  dash_of_special (String d x) c = false ->
  get_token (String d x ++ String c after) = option_map (followed c after) (get_token (String d x)).
Proof.
  intros Hdash. cbn [append]. unfold get_token.
  destruct (is_digit d).
  { rewrite (span_stop _ _ Hd). destruct (span is_digit x); reflexivity. }
  destruct (is_lower d).
  { rewrite (span_stop _ _ Hw). destruct (span is_word x); reflexivity. }
  destruct (is_upper_ d).
  { rewrite (span_stop _ _ Hw). destruct (span is_word x); reflexivity. }
  destruct (Ascii.eqb d "?") eqn:Eq.
  { rewrite (after_dash_stop d x Hdash) by (now rewrite Eq).
    destruct (after_dash x); [reflexivity|]. cbn [option_map].
    destruct (Ascii.eqb d ":") eqn:Ec.
    { apply Ascii.eqb_eq in Eq, Ec. congruence. }
    destruct (is_special1 d); [reflexivity|].
    destruct (is_blank d).
    { rewrite (span_stop _ _ Hb). destruct (span is_blank x); reflexivity. }
    destruct (is_newline d); reflexivity. }
  destruct (Ascii.eqb d ":") eqn:Ec.
  { rewrite (after_dash_stop d x Hdash) by (rewrite Ec; apply orb_true_r).
    destruct (after_dash x); [reflexivity|]. cbn [option_map].
    destruct (is_special1 d); [reflexivity|].
    destruct (is_blank d).
    { rewrite (span_stop _ _ Hb). destruct (span is_blank x); reflexivity. }
    destruct (is_newline d); reflexivity. }
  destruct (is_special1 d); [reflexivity|].
  destruct (is_blank d).
  { rewrite (span_stop _ _ Hb). destruct (span is_blank x); reflexivity. }
  destruct (is_newline d); reflexivity.
Qed.


(** The loop over a text that is followed by such a character: it
    reads the text as if nothing followed, and goes on from the
    character. *)
Lemma tokenize_loop_stop n : forall x self self1 f2 r,
  dash_of_special x c = false ->
  tokenize_loop n x self = Some self1 ->
  tokenize_loop f2 (String c after) self1 = Some r ->
  tokenize_loop (n + f2) (x ++ String c after) self = Some r.
Proof.
  induction n as [|n IH]; intros x self self1 f2 r Hdash Hx Hr.
  - destruct x; [|discriminate]. cbn in Hx. inversion Hx; subst self1. exact Hr.
  - destruct x as [|d x].
    + cbn in Hx. inversion Hx; subst self1.
      apply (tokenize_loop_mono f2); [lia | exact Hr].
    + cbn [Nat.add]. change (String d x ++ String c after)
        with (String d (x ++ String c after)).
      cbn [tokenize_loop] in Hx |- *.
      change (String d (x ++ String c after)) with (String d x ++ String c after).
      rewrite (get_token_stop d x Hdash).
      destruct (get_token (String d x)) as [[[k v] rest]|] eqn:Hg;
        [|exfalso; exact (get_token_total _ _ Hg)].
      cbn [option_map followed].
      destruct (get_token_full _ _ _ _ _ Hg) as [Hsplit _].
      eapply IH; [|exact Hx|exact Hr].
      unfold dash_of_special in *. rewrite Hsplit in Hdash.
      destruct (Ascii.eqb c "-"); [|reflexivity]. cbn [andb] in *.
      destruct (ends_in_mark rest) eqn:E; [|reflexivity].
      now rewrite (ends_in_mark_app v rest E) in Hdash.
Qed.

End LexerSplit.

Lemma shift_line_0 toks : map (shift_line 0) toks = toks.
Proof.
  induction toks as [|[[k v] l] toks IH]; cbn; [reflexivity|].
  rewrite IH. unfold shift_line. cbn. now rewrite Z.add_0_r.
Qed.

(** The loop does to any lexer what it does to a new one: the tokens it
    appends are the same, with their lines moved by the difference of
    the line counters. *)
Lemma tokenize_loop_frame fuel : forall rest t0 T0 L0 r,
  Lexer.tokenize_loop fuel rest (Lexer.mk t0 T0 L0) = Some r ->
  exists added n,
    r = Lexer.mk t0 (T0 ++ added) (L0 + n) /\
    forall t T L,
      Lexer.tokenize_loop fuel rest (Lexer.mk t T L) =
      Some (Lexer.mk t (T ++ map (shift_line (L - L0)) added) (L + n)).
Proof.
  induction fuel as [|fuel IH]; intros rest t0 T0 L0 r H.
  - destruct rest; [|discriminate]. cbn in H. inversion H; subst r.
    exists [], 0%Z. rewrite app_nil_r, Z.add_0_r. split; [reflexivity|].
    intros t T L. cbn. now rewrite app_nil_r, Z.add_0_r.
  - destruct rest as [|d rest].
    { cbn in H. inversion H; subst r.
      exists [], 0%Z. rewrite app_nil_r, Z.add_0_r. split; [reflexivity|].
      intros t T L. cbn. now rewrite app_nil_r, Z.add_0_r. }
    cbn [Lexer.tokenize_loop] in H.
    destruct (Lexer.get_token (String d rest)) as [[[k v] rest']|] eqn:Hg;
      [|exfalso; exact (get_token_total _ _ Hg)].
    cbn [Lexer.text Lexer.tokens Lexer.line] in H.
    destruct (k =? "NEWLINE") eqn:E1.
    { destruct (IH _ _ _ _ _ H) as (added & n & -> & Hall).
      exists added, (1 + n)%Z. split; [f_equal; lia|].
      intros t T L. cbn [Lexer.tokenize_loop]. rewrite Hg, E1.
      cbn [Lexer.text Lexer.tokens Lexer.line].
      rewrite (Hall t T (L + 1)%Z).
      replace (L + 1 - (L0 + 1))%Z with (L - L0)%Z by lia.
      do 2 f_equal. lia. }
    destruct (k =? "SKIP") eqn:E2.
    { destruct (IH _ _ _ _ _ H) as (added & n & -> & Hall).
      exists added, n. split; [reflexivity|].
      intros t T L. cbn [Lexer.tokenize_loop]. rewrite Hg, E1, E2. apply Hall. }
    destruct (k =? "MISMATCH") eqn:E3.
    { destruct (IH _ _ _ _ _ H) as (added & n & -> & Hall).
      exists (("ERROR", v, L0) :: added), n.
      split; [now rewrite <- app_assoc|].
      intros t T L. cbn [Lexer.tokenize_loop]. rewrite Hg, E1, E2, E3.
      cbn [Lexer.text Lexer.tokens Lexer.line].
      rewrite (Hall t (T ++ [("ERROR", v, L)])%list L). rewrite <- app_assoc.
      do 3 f_equal. cbn [map app]. f_equal. unfold shift_line. cbn. f_equal. lia. }
    destruct (IH _ _ _ _ _ H) as (added & n & -> & Hall).
    exists ((k, v, L0) :: added), n.
    split; [now rewrite <- app_assoc|].
    intros t T L. cbn [Lexer.tokenize_loop]. rewrite Hg, E1, E2, E3.
    cbn [Lexer.text Lexer.tokens Lexer.line].
    rewrite (Hall t (T ++ [(k, v, L)])%list L). rewrite <- app_assoc.
    do 3 f_equal. cbn [map app]. f_equal. unfold shift_line. cbn. f_equal. lia.
Qed.

Lemma unrecognized_stops c after :
  unrecognized (String c after) = true ->
  Lexer.is_digit c = false /\ Lexer.is_word c = false /\ Lexer.is_blank c = false.
Proof.
  unfold unrecognized, Lexer.is_word, Lexer.is_digit, Lexer.is_lower, Lexer.is_upper_.
  intros H.
  destruct (Lexer.in_range "0" "9" c); [discriminate|].
  destruct (Lexer.in_range "a" "z" c); [discriminate|].
  destruct (Lexer.in_range "A" "Z" c); [discriminate|].
  destruct (Ascii.eqb c "_"); [discriminate|].
  destruct (Lexer.is_blank c); [|auto].
  cbn in H. rewrite andb_false_r in H. discriminate.
Qed.

(** At a character that begins no token and is not skipped, the loop
    appends the ERROR token of that character and the current line. *)
Lemma tokenize_loop_unrecognized c r fuel self :
  unrecognized (String c r) = true ->
  Lexer.tokenize_loop (S fuel) (String c r) self =
  Lexer.tokenize_loop fuel r
    (Lexer.mk (Lexer.text self)
              (Lexer.tokens self ++ [("ERROR", String c "", Lexer.line self)])
              (Lexer.line self)).
Proof.
  intros Hu. unfold unrecognized, begins_special in Hu.
  cbn [Lexer.tokenize_loop]. unfold Lexer.get_token.
  destruct (Lexer.is_digit c); [discriminate|].
  destruct (Lexer.is_lower c); [discriminate|].
  destruct (Lexer.is_upper_ c); [discriminate|].
  destruct (prefix "?-" (String c r)) eqn:Hq; [discriminate|].
  destruct (prefix ":-" (String c r)) eqn:Hc; [discriminate|].
  rewrite (no_prefix_no_dash _ _ _ Hq), (no_prefix_no_dash _ _ _ Hc).
  destruct (Lexer.is_special1 c); [discriminate|].
  destruct (Lexer.is_blank c); [discriminate|].
  destruct (Lexer.is_newline c); [discriminate|].
  reflexivity.
Qed.

(** The scanned tokens of a text, from a new lexer and from any other. *)
Lemma tokenize_loop_any rest :
  exists added,
    lexes rest (added ++ [("EOF", "", (1 + count_newlines rest)%Z)]) /\
    forall t T L,
      Lexer.tokenize_loop (String.length rest) rest (Lexer.mk t T L) =
      Some (Lexer.mk t (T ++ map (shift_line (L - 1)) added) (L + count_newlines rest)).
Proof.
  destruct (tokenize_loop_spec (String.length rest) rest (Lexer.mk rest [] 1) (le_n _))
    as (added & Heq & _).
  cbn [Lexer.text Lexer.tokens Lexer.line app] in Heq.
  destruct (tokenize_loop_frame _ _ _ _ _ _ Heq) as (added' & n & Hr & Hall).
  cbn [app] in Hr.
  pose proof (f_equal Lexer.tokens Hr) as Ha. pose proof (f_equal Lexer.line Hr) as Hn.
  cbn [Lexer.tokens Lexer.line] in Ha, Hn. subst added'.
  assert (Hn' : n = count_newlines rest) by lia. subst n. clear Hn Hr.
  exists added. split; [|exact Hall].
  exists (String.length rest). eexists. split;
    [unfold Lexer.init, Lexer.tokenize; cbn [Lexer.text]; rewrite Heq; reflexivity | reflexivity].
Qed.

(** C7: tokenizing is total and raises nothing, and every unrecognized
    character becomes an ERROR token.  With a fuel of the length of
    the text the lexer returns a token list that ends with EOF, in
    which every ERROR token holds one character.  And for every
    character [c] of the text that belongs to no NUMBER, ATOM, VARIABLE
    or SPECIAL match and is neither blank nor a newline, the token list
    is: the tokens of the text before [c], then the token
    [('ERROR', c, line)] with the line on which [c] stands (1 plus the
    newlines before it), then the tokens of the text after [c], their
    lines counted on from that line. *)
Theorem tokenize_total_error_tokens (content : string) (fuel : nat) :
  (String.length content <= fuel)%nat ->
  exists lexer pre l,
    Lexer.init fuel content = Some lexer /\
    Lexer.get_tokens lexer = (pre ++ [("EOF", "", l)])%list /\
    Forall (fun t => kind t = "ERROR" -> String.length (text t) = 1%nat) pre /\
    forall before c after,
      content = before ++ String c after ->
      unrecognized_at before c after = true ->
      exists toks_before toks_after,
        lexes before (toks_before ++ [("EOF", "", (1 + count_newlines before)%Z)]) /\
        lexes after toks_after /\
        Lexer.get_tokens lexer =
          (toks_before ++
           ("ERROR", String c "", (1 + count_newlines before)%Z) ::
           map (shift_line (count_newlines before)) toks_after)%list.
Proof.
  intros Hlen.
  destruct (lexer_init_spec content fuel Hlen) as (lexer & pre & H1 & H2 & HF & _).
  exists lexer, pre. eexists. split; [exact H1|]. split; [exact H2|]. split.
  { eapply Forall_impl; [|exact HF]. intros t [_ Ht]. exact Ht. }
  intros before c after Hc Hu. unfold unrecognized_at in Hu.
  apply andb_prop in Hu. destruct Hu as [Hu Hdash]. apply negb_true_iff in Hdash.
  destruct (unrecognized_stops _ _ Hu) as (Hd & Hw & Hb).
  destruct (tokenize_loop_any before) as (tb & Hlb & Hrb).
  destruct (tokenize_loop_any after) as (ta & Hla & Hra).
  exists tb, (ta ++ [("EOF", "", (1 + count_newlines after)%Z)])%list.
  split; [exact Hlb|]. split; [exact Hla|].
  assert (Hrun : Lexer.tokenize_loop (String.length before + S (String.length after))
                   content (Lexer.mk content [] 1) =
                 Some (Lexer.mk content
                         ((([] ++ map (shift_line (1 - 1)) tb) ++
                           [("ERROR", String c "", (1 + count_newlines before)%Z)]) ++
                          map (shift_line (1 + count_newlines before - 1)) ta)
                         (1 + count_newlines before + count_newlines after))).
  { rewrite Hc at 1.
    eapply (tokenize_loop_stop c after Hd Hw Hb); [exact Hdash | apply Hrb |].
    rewrite (tokenize_loop_unrecognized c after _ _ Hu).
    cbn [Lexer.text Lexer.tokens Lexer.line]. apply Hra. }
  apply (tokenize_loop_mono _ fuel) in Hrun.
  2:{ subst content. rewrite string_length_app in Hlen. cbn in Hlen. lia. }
  unfold Lexer.init, Lexer.tokenize in H1. cbn [Lexer.text] in H1. rewrite Hrun in H1.
  pose proof (f_equal (fun o => match o with
                                | Some l => Lexer.get_tokens l
                                | None => []
                                end) H1) as Ht.
  cbv beta iota in Ht. cbn [Lexer.get_tokens Lexer.tokens Lexer.text Lexer.line app] in Ht.
  rewrite <- Ht.
  rewrite Z.sub_diag, shift_line_0. rewrite <- !app_assoc. f_equal. cbn [app]. f_equal.
  rewrite map_app. cbn [map]. f_equal.
  - do 2 f_equal. lia.
  - unfold shift_line, kind, text, line. cbn [fst snd].
    now replace (1 + count_newlines after + count_newlines before)%Z
      with (1 + count_newlines before + count_newlines after)%Z by lia.
Qed.

Lemma tokenize_total_error_tokens_witness :
  exists lexer toks_before toks_after,
    Lexer.init 4 "a#
b" = Some lexer /\
    lexes "a" (toks_before ++ [("EOF", "", (1 + count_newlines "a")%Z)]) /\
    lexes "
b" toks_after /\
    Lexer.get_tokens lexer =
      (toks_before ++ ("ERROR", "#", (1 + count_newlines "a")%Z) ::
       map (shift_line (count_newlines "a")) toks_after)%list.
Proof.
  destruct (tokenize_total_error_tokens "a#
b" 4 ltac:(simpl; lia)) as (lexer & pre & l & Hi & _ & _ & Hall).
  destruct (Hall "a" "#"%char "
b" eq_refl eq_refl) as (tb & ta & Hb & Ha & Ht).
  exists lexer, tb, ta. auto.
Defined.

(** The dash of a query mark is no character of its own: it begins no
    match, and it is read with the mark. *)
Example dash_of_query_mark :
  unrecognized "-" = true /\ unrecognized_at "?" "-" "" = false /\
  lexes "?-" [("SPECIAL", "?-", 1%Z); ("EOF", "", 1%Z)].
Proof.
  split; [reflexivity|]. split; [reflexivity|].
  exists 2%nat. eexists. split; reflexivity.
Qed.

(** X1: the texts of the tokens of a text, put one after the other,
    are the text without its spaces, tabs and newlines: the tokens
    cover the text, they do not overlap, and nothing else is dropped. *)
Theorem lexer_texts_cover (content : string) (toks : list Token) :
  lexes content toks -> concat_texts toks = strip content.
Proof.
  intros H. destruct (lexes_full _ _ H) as (pre & -> & Hc & _).
  rewrite concat_texts_app, Hc. cbn. clear.
  induction (strip content) as [|c s IH]; cbn; [reflexivity|]. now rewrite IH.
Qed.

Lemma lexer_texts_cover_witness :
  concat_texts toks_two_lines = "a(X):-b.?-#c".
Proof. exact (lexer_texts_cover text_two_lines toks_two_lines lexes_two_lines). Defined.

(** X2: the token list of a text is a run of scanned tokens and then
    one EOF token with the empty text; each scanned token has one of
    the kinds NUMBER, ATOM, VARIABLE, SPECIAL, ERROR and a text of the
    shape of its kind: digits; a lowercase letter and then letters,
    digits, underscores; an uppercase letter or underscore and then the
    same; one of the six special texts; one character that begins
    nothing else. *)
Theorem lexer_token_shapes (content : string) (toks : list Token) :
  lexes content toks ->
  exists pre l,
    toks = (pre ++ [("EOF", "", l)])%list /\ Forall (fun t => token_ok t = true) pre.
Proof.
  intros H. destruct (lexes_full _ _ H) as (pre & -> & _ & Hok & _).
  exists pre. eexists. split; [reflexivity | exact Hok].
Qed.

Lemma lexer_token_shapes_witness :
  exists pre l,
    toks_two_lines = (pre ++ [("EOF", "", l)])%list /\
    Forall (fun t => token_ok t = true) pre.
Proof. exact (lexer_token_shapes text_two_lines toks_two_lines lexes_two_lines). Defined.

Lemma lexer_lines_sorted_aux (content : string) (toks : list Token) :
  lexes content toks ->
  StronglySorted line_le toks /\
  Forall (fun t => (1 <= line t <= 1 + count_newlines content)%Z) toks.
Proof.
  intros H. destruct (lexes_full _ _ H) as (pre & -> & _ & _ & Hb & Hs).
  pose proof (count_newlines_nonneg content) as Hpos. split.
  - apply StronglySorted_snoc; [exact Hs|].
    eapply Forall_impl; [|exact Hb]. intros t Ht. unfold line_le. cbn [line snd] in *. lia.
  - apply Forall_app. split; [exact Hb|]. constructor; [cbn [line snd]; lia | constructor].
Qed.

(** X3: along the token list of a text the lines never go down, and
    every line is between 1 and 1 plus the number of newlines of the
    text: of two tokens the earlier one has the smaller or the same
    line. *)
Theorem lexer_lines_ascend (content : string) (toks : list Token)
    (i j : nat) (ti tj : Token) :
  lexes content toks ->
  (i <= j)%nat -> nth_error toks i = Some ti -> nth_error toks j = Some tj ->
  (1 <= line ti <= line tj)%Z /\ (line tj <= 1 + count_newlines content)%Z.
Proof.
  intros H Hij Hi Hj. destruct (lexer_lines_sorted_aux content toks H) as [Hs Hb].
  rewrite Forall_forall in Hb.
  pose proof (Hb ti (nth_error_In _ _ Hi)) as Bi.
  pose proof (Hb tj (nth_error_In _ _ Hj)) as Bj.
  assert (Hle : (line ti <= line tj)%Z).
  { clear Hb Bi Bj H. revert i j Hij Hi Hj.
    induction Hs as [|x l Hs IH Hx]; intros i j Hij Hi Hj.
    - destruct i; discriminate.
    - destruct i as [|i], j as [|j]; cbn in Hi, Hj.
      + inversion Hi; inversion Hj; subst. lia.
      + inversion Hi; subst x. rewrite Forall_forall in Hx.
        apply (Hx tj). eapply nth_error_In; eauto.
      + lia.
      + apply (IH i j); auto. lia. }
  lia.
Qed.

Lemma lexer_lines_ascend_witness :
  (1 <= 1 <= 2)%Z /\ (2 <= 1 + count_newlines text_two_lines)%Z.
Proof.
  exact (lexer_lines_ascend text_two_lines toks_two_lines 1 8
           ("SPECIAL", "(", 1%Z) ("ERROR", "#", 2%Z)
           lexes_two_lines ltac:(lia) eq_refl eq_refl).
Defined.

(** X4: a text has at most one token for each of its characters that
    is not a space, a tab or a newline, and the sentinel. *)
Theorem lexer_token_count (content : string) (toks : list Token) :
  lexes content toks ->
  (length toks <= String.length (strip content) + 1)%nat.
Proof.
  intros H. destruct (lexes_full _ _ H) as (pre & -> & Hc & Hok & _).
  rewrite length_app. cbn [length]. rewrite <- Hc.
  apply Nat.add_le_mono_r. exact (token_count_texts pre Hok).
Qed.

Lemma lexer_token_count_witness :
  (length toks_two_lines <= String.length (strip text_two_lines) + 1)%nat.
Proof. exact (lexer_token_count text_two_lines toks_two_lines lexes_two_lines). Defined.

(* ================================================================== *)
(** * How the methods change the parser *)

Lemma steps_trans s1 s2 s3 : steps s1 s2 -> steps s2 s3 -> steps s1 s3.
Proof.
  intros H12 H23. induction H23.
  - exact H12.
  - apply steps_advance. auto.
  - eapply steps_error; eauto.
Qed.

Lemma advanced_facts s :
  in_bounds s ->
  tokens (advanced s) = tokens s /\ (pos s <= pos (advanced s))%nat /\
  in_bounds (advanced s) /\ errors (advanced s) = errors s.
Proof.
  unfold advanced, in_bounds. cbn [tokens pos errors]. intros H.
  destruct (Nat.ltb_spec (pos s + 1) (length (tokens s)));
    repeat split; try reflexivity; lia.
Qed.

Lemma steps_frame s s' :
  steps s s' -> in_bounds s ->
  tokens s' = tokens s /\ (pos s <= pos s')%nat /\ in_bounds s'.
Proof.
  induction 1 as [s|s s1 H IH|s s1 t m H IH Hn]; intros Hb.
  - repeat split; auto.
  - destruct (IH Hb) as (T & P & B).
    destruct (advanced_facts s1 B) as (T' & P' & B' & _).
    split; [congruence|]. split; [lia | exact B'].
  - destruct (IH Hb) as (T & P & B). unfold with_error, in_bounds in *.
    cbn [tokens pos errors]. repeat split; auto.
Qed.

Lemma advance_advanced s : advance s = Ok (tt, advanced s).
Proof.
  rewrite advance_eq. unfold advanced.
  destruct (pos s + 1 <? length (tokens s))%nat; [reflexivity|].
  destruct s; reflexivity.
Qed.

Lemma traced_ret {A} (a : A) s : traced_at (ret a) s.
Proof. unfold traced_at, ret. apply steps_refl. Qed.

Lemma traced_bind {A B} (m : M A) (k : A -> M B) s :
  in_bounds s -> traced_at m s ->
  (forall a s', m s = Ok (a, s') -> in_bounds s' -> traced_at (k a) s') ->
  traced_at (bind m k) s.
Proof.
  unfold traced_at, bind. intros Hb. destruct (m s) as [[a s']| |]; auto.
  intros Hm Hk. destruct (steps_frame _ _ Hm Hb) as (_ & _ & Hb').
  specialize (Hk a s' eq_refl Hb').
  destruct (k a s') as [[b s'']| |]; auto. eapply steps_trans; eauto.
Qed.

Lemma current_token_traced : traced current_token.
Proof.
  intros s H. unfold traced_at.
  destruct (current_token_returns s H) as [t ->]. apply steps_refl.
Qed.

Lemma text_is_traced v : traced (text_is v).
Proof.
  intros s H. unfold text_is. apply traced_bind; [assumption|now apply current_token_traced|].
  intros; apply traced_ret.
Qed.

Lemma kind_is_traced k : traced (kind_is k).
Proof.
  intros s H. unfold kind_is. apply traced_bind; [assumption|now apply current_token_traced|].
  intros; apply traced_ret.
Qed.

Lemma current_line_traced : traced current_line.
Proof.
  intros s H. unfold current_line. apply traced_bind; [assumption|now apply current_token_traced|].
  intros; apply traced_ret.
Qed.

Lemma advance_traced : traced advance.
Proof.
  intros s H. unfold traced_at. rewrite advance_advanced.
  apply steps_advance, steps_refl.
Qed.

(** [error] with the line of the token under the cursor. *)
Lemma error_traced s token message :
  nth_error (tokens s) (pos s) = Some token ->
  traced_at (error message (line token)) s.
Proof.
  intros Hn. unfold traced_at, error.
  change (steps s (with_error s (line token) message)).
  eapply steps_error; [apply steps_refl | exact Hn].
Qed.

(** The error branches [self.error(..., self.current_token()[2])] and
    then, in most places, [self.advance()]. *)
Lemma report_traced message (after : M unit) :
  traced after -> traced (l <- current_line ;; error message l ;; after).
Proof.
  intros Ha s H. apply traced_bind; [assumption|now apply current_line_traced|].
  intros l s1 Hl H1. apply current_line_inv in Hl. destruct Hl as (-> & t & Hn & ->).
  apply traced_bind; [assumption|now apply error_traced|].
  intros _ s2 _ H2. now apply Ha.
Qed.

Lemma match_traced k v : traced (match_ k v).
Proof.
  intros s H. unfold match_.
  apply traced_bind; [assumption|now apply current_token_traced|].
  intros token s1 Hc H1. apply current_token_inv in Hc. destruct Hc as [-> Hn].
  destruct ((kind token =? k) && _).
  - apply traced_bind; [assumption|unfold DEBUG; apply traced_ret|].
    intros _ s2 _ H2. apply traced_bind; [assumption|now apply advance_traced|].
    intros; apply traced_ret.
  - apply traced_bind; [assumption|now apply error_traced|]. intros; apply traced_ret.
Qed.

Lemma match_unit_traced k v : traced (match_ k v ;; ret tt).
Proof.
  intros s H. apply traced_bind; [assumption|now apply match_traced|].
  intros; apply traced_ret.
Qed.

Lemma parse_atom_traced : traced parse_atom.
Proof.
  intros s H. unfold parse_atom.
  apply traced_bind; [assumption|now apply kind_is_traced|].
  intros c s1 _ H1. destruct c; [now apply match_unit_traced|].
  apply (report_traced _ advance); [apply advance_traced | assumption].
Qed.

Lemma while_traced fuel cond body :
  traced cond -> traced body -> traced (while fuel cond body).
Proof.
  intros Hc Hb. induction fuel as [|fuel IH]; intros s H; [exact I|].
  cbn [while]. apply traced_bind; [assumption|now apply Hc|].
  intros [|] s1 _ H1; [|apply traced_ret].
  apply traced_bind; [assumption|now apply Hb|]. intros _ s2 _ H2. now apply IH.
Qed.

Lemma arguments_traced (term_list : M unit) :
  traced term_list ->
  traced
    (c <- text_is "(" ;;
     if (c : bool) then
       match_ "SPECIAL" (Some "(") ;; term_list ;; match_ "SPECIAL" (Some ")") ;; ret tt
     else ret tt).
Proof.
  intros Ht s H. apply traced_bind; [assumption|now apply text_is_traced|].
  intros [|] s1 _ H1; [|apply traced_ret].
  apply traced_bind; [assumption|now apply match_traced|]. intros _ s2 _ H2.
  apply traced_bind; [assumption|now apply Ht|].
  intros _ s3 _ H3. now apply match_unit_traced.
Qed.

Lemma comma_loop_traced fuel (item : M unit) :
  traced item ->
  traced (while fuel (text_is ",") (match_ "SPECIAL" (Some ",") ;; item)).
Proof.
  intros Hi. apply while_traced; [apply text_is_traced|].
  intros s H. apply traced_bind; [assumption|now apply match_traced|].
  intros _ s1 _ H1. now apply Hi.
Qed.

Lemma parse_term_traced fuel :
  traced (parse_term fuel) /\ traced (parse_term_list fuel).
Proof.
  induction fuel as [|fuel [IHt IHl]]; [split; intros s H; exact I|].
  split; intros s H.
  - cbn [parse_term]. apply traced_bind; [assumption|now apply current_token_traced|].
    intros token s1 Hc _. apply current_token_inv in Hc. destruct Hc as [-> Hn].
    destruct (kind token =? "ATOM").
    { apply traced_bind; [assumption|now apply parse_atom_traced|].
      intros _ s1 _ H1. now apply arguments_traced. }
    destruct (kind token =? "VARIABLE"); [now apply match_unit_traced|].
    destruct (kind token =? "NUMBER"); [now apply match_unit_traced|].
    apply traced_bind; [assumption|now apply error_traced|].
    intros _ s1 _ H1. now apply advance_traced.
  - cbn [parse_term_list]. apply traced_bind; [assumption|now apply IHt|].
    intros _ s1 _ H1. now apply comma_loop_traced.
Qed.

Lemma parse_predicate_traced fuel : traced (parse_predicate fuel).
Proof.
  intros s H. unfold parse_predicate.
  apply traced_bind; [assumption|now apply kind_is_traced|].
  intros c s1 _ H1. destruct c.
  - apply traced_bind; [assumption|now apply parse_atom_traced|].
    intros _ s2 _ H2. apply arguments_traced; [apply parse_term_traced | assumption].
  - apply (report_traced _ advance); [apply advance_traced | assumption].
Qed.

Lemma parse_predicate_list_traced fuel : traced (parse_predicate_list fuel).
Proof.
  intros s H. unfold parse_predicate_list.
  apply traced_bind; [assumption|now apply parse_predicate_traced|].
  intros _ s1 _ H1. apply comma_loop_traced; [apply parse_predicate_traced | assumption].
Qed.

Lemma query_body_traced fuel : traced (query_body fuel).
Proof.
  intros s H. unfold query_body.
  apply traced_bind; [assumption|now apply match_traced|]. intros _ s1 _ H1.
  apply traced_bind; [assumption|now apply parse_predicate_list_traced|].
  intros _ s2 _ H2. now apply match_unit_traced.
Qed.

Lemma parse_query_traced fuel : traced (parse_query fuel).
Proof.
  intros s H. unfold parse_query.
  apply traced_bind; [assumption|now apply text_is_traced|].
  intros c s1 _ H1. destruct c; [now apply query_body_traced|].
  apply traced_bind; [assumption|now apply current_line_traced|].
  intros l s2 Hl H2. apply current_line_inv in Hl. destruct Hl as (-> & t & Hn & ->).
  now apply error_traced.
Qed.

Lemma parse_clause_traced fuel : traced (parse_clause fuel).
Proof.
  intros s H. unfold parse_clause.
  apply traced_bind; [assumption|now apply parse_predicate_traced|]. intros _ s1 _ H1.
  apply traced_bind; [assumption|now apply text_is_traced|].
  intros [|] s2 _ H2; [now apply match_unit_traced|].
  apply traced_bind; [assumption|now apply text_is_traced|].
  intros [|] s3 _ H3.
  - apply traced_bind; [assumption|now apply match_traced|]. intros _ s4 _ H4.
    apply traced_bind; [assumption|now apply parse_predicate_list_traced|].
    intros _ s5 _ H5. now apply match_unit_traced.
  - apply (report_traced _ advance); [apply advance_traced | assumption].
Qed.

Lemma clause_cond_traced : traced clause_cond.
Proof.
  intros s H. unfold clause_cond.
  apply traced_bind; [assumption|now apply kind_is_traced|].
  intros k s1 _ H1. destruct (negb k); [|apply traced_ret].
  apply traced_bind; [assumption|now apply text_is_traced|]. intros; apply traced_ret.
Qed.

Lemma parse_clause_list_traced fuel : traced (parse_clause_list fuel).
Proof.
  unfold parse_clause_list.
  apply while_traced; [apply clause_cond_traced | apply parse_clause_traced].
Qed.

Lemma parse_program_traced fuel : traced (parse_program fuel).
Proof.
  intros s H. unfold parse_program.
  apply traced_bind; [assumption|now apply text_is_traced|].
  intros [|] s1 _ H1; [now apply parse_query_traced|].
  apply traced_bind; [assumption|now apply parse_clause_list_traced|]. intros _ s2 _ H2.
  apply traced_bind; [assumption|now apply text_is_traced|].
  intros [|] s3 _ H3; [now apply parse_query_traced | apply traced_ret].
Qed.

Lemma sorted_lines_nth l : StronglySorted line_le l ->
  forall i j a b, (i <= j)%nat ->
    nth_error l i = Some a -> nth_error l j = Some b -> (line a <= line b)%Z.
Proof.
  induction 1 as [|x l Hs IH Hx]; intros i j a b Hij Ha Hb.
  - destruct i; discriminate.
  - destruct i as [|i], j as [|j]; cbn in Ha, Hb.
    + inversion Ha; inversion Hb; subst. lia.
    + inversion Ha; subst a. rewrite Forall_forall in Hx.
      apply (Hx b). eapply nth_error_In; eauto.
    + lia.
    + eapply IH; [|eauto|eauto]. lia.
Qed.

(** What [steps] adds to [self.errors]: entries at its end, each with
    the line of a token between the cursor before and the cursor
    after; in the order of the tokens when the lines of the tokens
    ascend. *)
Lemma steps_entries s s' :
  steps s s' -> in_bounds s ->
  exists es,
    errors s' = (errors s ++ map entry es)%list /\
    Forall (fun e => exists i token,
              (pos s <= i <= pos s')%nat /\
              nth_error (tokens s) i = Some token /\ fst e = line token) es /\
    (StronglySorted line_le (tokens s) -> StronglySorted entry_le es).
Proof.
  induction 1 as [s|s s1 H IH|s s1 t m H IH Hn]; intros Hb.
  - exists []. cbn. rewrite app_nil_r. repeat split; auto. intros _. constructor.
  - destruct (IH Hb) as (es & He & Hi & Hs).
    destruct (steps_frame _ _ H Hb) as (_ & _ & B).
    destruct (advanced_facts s1 B) as (_ & P' & _ & E').
    exists es. split; [congruence|]. split; [|exact Hs].
    eapply Forall_impl; [|exact Hi].
    intros e (i & tk & Hr & Hk & Hl). exists i, tk. repeat split; auto; lia.
  - destruct (IH Hb) as (es & He & Hi & Hs).
    destruct (steps_frame _ _ H Hb) as (T & P & B).
    exists (es ++ [(line t, m)])%list. unfold with_error. cbn [tokens pos errors].
    split; [|split].
    + rewrite He, map_app, <- app_assoc. reflexivity.
    + apply Forall_app. split; [exact Hi|]. constructor; [|constructor].
      exists (pos s1), t. rewrite <- T. repeat split; auto.
    + intros Hsrt. apply StronglySorted_snoc; [now apply Hs|].
      eapply Forall_impl; [|exact Hi].
      intros e (i & tk & Hr & Hk & Hl). unfold entry_le. cbn [fst]. rewrite Hl.
      rewrite T in Hn.
      apply (sorted_lines_nth _ Hsrt i (pos s1)); auto. lia.
Qed.

Lemma run_traced op fuel :
  (forall message l, op <> OpError message l) -> traced (run op fuel).
Proof.
  intros Hop. destruct op; cbn [run]; intros s H.
  - apply traced_bind; [assumption|now apply current_token_traced|].
    intros; apply traced_ret.
  - now apply advance_traced.
  - now apply match_unit_traced.
  - exfalso. eapply Hop; reflexivity.
  - now apply parse_program_traced.
  - now apply parse_clause_list_traced.
  - now apply parse_clause_traced.
  - now apply parse_query_traced.
  - now apply parse_predicate_list_traced.
  - now apply parse_predicate_traced.
  - now apply parse_term_traced.
  - now apply parse_term_traced.
  - now apply parse_atom_traced.
Qed.

(** X5: whatever a method of the parser adds to [self.errors] it adds
    at the end, and each entry it adds is [Syntax Error at line L: ...]
    with [L] the line of a token that lies between the cursor before
    the call and the cursor after it.  When the lines of the tokens
    ascend, so do the lines of the added entries.  (For every method
    but a direct call of [error], whose line is its argument.) *)
Theorem errors_report_token_lines (op : operation) (fuel : nat) (s s' : Parser) :
  (forall message l, op <> OpError message l) ->
  in_bounds s ->
  run op fuel s = Ok (tt, s') ->
  exists es,
    errors s' = (errors s ++ map entry es)%list /\
    Forall (fun e => exists i token,
              (pos s <= i <= pos s')%nat /\
              nth_error (tokens s) i = Some token /\ fst e = line token) es /\
    (StronglySorted line_le (tokens s) -> StronglySorted entry_le es).
Proof.
  intros Hop Hb E. pose proof (run_traced op fuel Hop s Hb) as Ht.
  unfold traced_at in Ht. rewrite E in Ht. now apply steps_entries.
Qed.

Lemma errors_report_token_lines_witness :
  exists es,
    [error_msg 1 "Predicate must start with an atom";
     error_msg 1 "Clause must end with '.' or use ':-' followed by a predicate list and a '.'"] =
      ([] ++ map entry es)%list /\
    Forall (fun e => exists i token,
              (0 <= i <= 2)%nat /\
              nth_error toks_bad i = Some token /\ fst e = line token) es /\
    (StronglySorted line_le toks_bad -> StronglySorted entry_le es).
Proof.
  apply (errors_report_token_lines OpParseProgram 6 (Parser_init toks_bad)
           (mkParser toks_bad 2
              [error_msg 1 "Predicate must start with an atom";
               error_msg 1 "Clause must end with '.' or use ':-' followed by a predicate list and a '.'"])).
  - discriminate.
  - unfold in_bounds. simpl. lia.
  - reflexivity.
Defined.

(** The run of [check_syntax] on a text: its tokens, and the state in
    which [parse_program] leaves the parser. *)
Lemma check_syntax_run content :
  exists toks s',
    lexes content toks /\
    parse_program (fuel_for content) (Parser_init toks) = Ok (tt, s') /\
    check_syntax content = Ok (errors s').
Proof.
  unfold check_syntax, process_text, fuel_for.
  destruct (lexer_init_spec content (2 * String.length content + 2) ltac:(lia))
    as (lexer & pre & El & Et & _ & Hl).
  rewrite El.
  assert (He : ends_in_EOF (Lexer.get_tokens lexer)).
  { rewrite Et. now eexists _, _. }
  destruct (parse_program_returns (2 * String.length content + 2)
              (Parser_init (Lexer.get_tokens lexer))) as ([] & s' & E).
  - exact He.
  - now apply init_in_bounds.
  - apply remaining_bound; [|now apply init_in_bounds].
    cbn [tokens Parser_init]. rewrite Et, length_app. cbn [length]. lia.
  - exists (Lexer.get_tokens lexer), s'. rewrite E. repeat split; auto.
    exists (2 * String.length content + 2)%nat, lexer. auto.
Qed.

(** X6: the error list of a text is a list of entries
    [Syntax Error at line L: ...] whose lines never go down and are all
    lines of the text: between 1 and 1 plus the number of its
    newlines. *)
Theorem error_lines_ascend_within_text (content : string) :
  exists es,
    check_syntax content = Ok (map entry es) /\
    StronglySorted entry_le es /\
    Forall (fun e => (1 <= fst e <= 1 + count_newlines content)%Z) es.
Proof.
  destruct (check_syntax_run content) as (toks & s' & Hl & E & Hc).
  destruct (lexer_lines_sorted_aux content toks Hl) as [Hs Hb].
  pose proof (init_in_bounds toks (lexes_ends_in_EOF _ _ Hl)) as Hin.
  pose proof (parse_program_traced (fuel_for content) _ Hin) as Ht.
  unfold traced_at in Ht. rewrite E in Ht.
  destruct (steps_entries _ _ Ht Hin) as (es & He & Hi & Hsrt).
  cbn [errors Parser_init app] in He.
  exists es. rewrite Hc, He. split; [reflexivity|]. split; [now apply Hsrt|].
  eapply Forall_impl; [|exact Hi].
  intros e (i & tk & _ & Hk & ->). cbn [tokens Parser_init] in Hk.
  rewrite Forall_forall in Hb. apply Hb. eapply nth_error_In; eauto.
Qed.

(* ================================================================== *)
(** * A run without errors has read a program *)

Lemma skipn_nth {A} (l : list A) : forall n t,
  nth_error l n = Some t -> skipn n l = t :: skipn (S n) l.
Proof.
  induction l as [|x l IH]; intros [|n] t H; cbn in *; try discriminate.
  - now inversion H.
  - now apply IH.
Qed.

Lemma input_cons s t :
  nth_error (tokens s) (pos s) = Some t ->
  input s = t :: skipn (S (pos s)) (tokens s).
Proof. apply skipn_nth. Qed.

Lemma input_head s t r : input s = t :: r -> nth_error (tokens s) (pos s) = Some t.
Proof.
  unfold input. intros H. rewrite <- hd_error_skipn, H. reflexivity.
Qed.

Lemma bind_Ok_inv {A B} (m : M A) (k : A -> M B) s r :
  bind m k s = Ok r -> exists a s1, m s = Ok (a, s1) /\ k a s1 = Ok r.
Proof.
  unfold bind. destruct (m s) as [[a s1]| |]; try discriminate. eauto.
Qed.

(** What a call leaves as it was, and that [self.errors] does not get
    shorter. *)
Lemma call_facts {A} p (m : M A) s a s1 :
  good any_error p m -> in_bounds s -> m s = Ok (a, s1) ->
  in_bounds s1 /\ tokens s1 = tokens s /\
  (length (errors s) <= length (errors s1))%nat /\
  (length (errors s1) = length (errors s) -> errors s1 = errors s).
Proof.
  intros Hg Hb E. destruct (good_result _ _ _ _ _ _ (Hg s Hb) E) as [He _].
  pose proof (ext_in_bounds _ _ _ He) as Hb1.
  destruct He as (T & _ & _ & added & Ea & _).
  split; [exact Hb1|]. split; [exact T|]. rewrite Ea, length_app. split; [lia|].
  intros Hl. destruct added; [now rewrite app_nil_r|]. cbn in Hl. lia.
Qed.

(** A [match] that adds no error has read the token it expected. *)
Lemma match_quiet k v s b s' :
  ends_in_EOF (tokens s) -> in_bounds s -> k <> "EOF" ->
  match_ k v s = Ok (b, s') -> errors s' = errors s ->
  exists t, matches k v t = true /\ input s = t :: input s'.
Proof.
  intros He Hb Hk E Hq.
  destruct (current_token_returns s Hb) as [t Ht].
  apply current_token_inv in Ht. destruct Ht as [_ Hn].
  rewrite (match_eq s t k v Hn) in E.
  destruct (matches k v t) eqn:Hm.
  - inversion E; subst b s'. exists t. split; [exact Hm|].
    rewrite (input_cons s t Hn). f_equal.
    assert (Hr : (0 < remaining s)%nat).
    { apply not_sentinel_has_remaining with t; auto.
      unfold matches in Hm. apply andb_prop in Hm. destruct Hm as [Hm _].
      apply String.eqb_eq in Hm. apply String.eqb_neq. congruence. }
    unfold input, advanced, remaining in *. cbn [tokens pos].
    destruct (Nat.ltb_spec (pos s + 1) (length (tokens s))); [|lia].
    now rewrite Nat.add_1_r.
  - inversion E; subst b s'. unfold with_error in Hq. cbn [errors] in Hq.
    apply (f_equal (@length string)) in Hq. rewrite length_app in Hq. cbn in Hq. lia.
Qed.

Lemma matches_special v t : matches "SPECIAL" (Some v) t = true -> is_special v t.
Proof.
  unfold matches, is_special. intros H. apply andb_prop in H.
  destruct H as [H1 H2]. now apply String.eqb_eq in H1, H2.
Qed.

Lemma matches_kind k t : matches k None t = true -> kind t = k.
Proof.
  unfold matches. intros H. apply andb_prop in H. destruct H as [H _].
  now apply String.eqb_eq in H.
Qed.

(** An [error] makes [self.errors] longer. *)
Lemma error_longer message l s s1 :
  error message l s = Ok (tt, s1) ->
  in_bounds s -> in_bounds s1 /\ tokens s1 = tokens s /\
  length (errors s1) = (length (errors s) + 1)%nat.
Proof.
  unfold error. intros E Hb. inversion E; subst s1. cbn [tokens errors pos].
  unfold in_bounds. cbn [tokens pos]. rewrite length_app. cbn. auto.
Qed.

Lemma parse_atom_quiet s s' :
  ends_in_EOF (tokens s) -> in_bounds s ->
  parse_atom s = Ok (tt, s') -> errors s' = errors s ->
  exists a, is_atom a /\ input s = a :: input s'.
Proof.
  intros He Hb E Hq. unfold parse_atom in E.
  apply bind_Ok_inv in E. destruct E as (c & s1 & Ec & E).
  apply kind_is_inv in Ec. destruct Ec as (-> & _). destruct c.
  - apply bind_Ok_inv in E. destruct E as (b & s2 & Em & E).
    unfold ret in E. inversion E; subst s2.
    assert (Hne : "ATOM" <> "EOF") by discriminate.
    destruct (match_quiet _ _ _ _ _ He Hb Hne Em Hq) as (a & Hm & Hi).
    exists a. split; [now apply matches_kind in Hm | exact Hi].
  - exfalso. apply bind_Ok_inv in E. destruct E as (l & s2 & El & E).
    apply current_line_inv in El. destruct El as (-> & _).
    apply bind_Ok_inv in E. destruct E as ([] & s3 & Ee & E).
    destruct (error_longer _ _ _ _ Ee Hb) as (Hb3 & _ & Hl).
    destruct (call_facts true advance s3 tt s' (advance_good _) Hb3 E) as (_ & _ & Hl' & _).
    rewrite Hq in Hl'. lia.
Qed.

Ltac inv_bind E a s1 Ea :=
  apply bind_Ok_inv in E; destruct E as (a & s1 & Ea & E).

Lemma ret_inv {A} (a b : A) s s' : ret a s = Ok (b, s') -> a = b /\ s' = s.
Proof. unfold ret. intros H; inversion H; auto. Qed.

(** The optional argument list, read without a new error: nothing, or
    [( ... )] around what [term_list] has read. *)
Lemma arguments_quiet (TL : list Token -> Prop) (term_list : M unit) :
  good any_error false term_list -> recognizes TL term_list ->
  forall s s',
    ends_in_EOF (tokens s) -> in_bounds s ->
    (c <- text_is "(" ;;
     if (c : bool) then
       match_ "SPECIAL" (Some "(") ;; term_list ;; match_ "SPECIAL" (Some ")") ;; ret tt
     else ret tt) s = Ok (tt, s') ->
    errors s' = errors s ->
    input s = input s' \/
    exists l args r,
      is_special "(" l /\ TL args /\ is_special ")" r /\
      input s = l :: (args ++ r :: input s')%list.
Proof.
  intros Hg Hr s s' He Hb E Hq.
  assert (Hne : "SPECIAL" <> "EOF") by discriminate.
  inv_bind E c s1 Ec. apply text_is_inv in Ec. destruct Ec as (-> & _).
  destruct c.
  - right. inv_bind E b1 s2 E1. inv_bind E u s3 E2. inv_bind E b2 s4 E3.
    apply ret_inv in E. destruct E as [_ ->]. destruct u.
    destruct (call_facts _ _ _ _ _ (match_good _ allows_any _ _) Hb E1)
      as (Hb2 & T2 & L2 & Q2).
    destruct (call_facts _ _ _ _ _ Hg Hb2 E2) as (Hb3 & T3 & L3 & Q3).
    destruct (call_facts _ _ _ _ _ (match_good _ allows_any _ _) Hb3 E3)
      as (Hb4 & T4 & L4 & Q4).
    pose proof (f_equal (@length string) Hq) as Hl.
    specialize (Q2 ltac:(lia)). specialize (Q3 ltac:(lia)). specialize (Q4 ltac:(lia)).
    assert (He2 : ends_in_EOF (tokens s2)) by now rewrite T2.
    assert (He3 : ends_in_EOF (tokens s3)) by now rewrite T3.
    destruct (match_quiet _ _ _ _ _ He Hb Hne E1 Q2) as (l & Hl1 & I1).
    destruct (Hr s2 s3 He2 Hb2 E2 Q3) as (args & Ha & I2).
    destruct (match_quiet _ _ _ _ _ He3 Hb3 Hne E3 Q4) as (r & Hr1 & I3).
    exists l, args, r. apply matches_special in Hl1, Hr1.
    split; [exact Hl1|]. split; [exact Ha|]. split; [exact Hr1|].
    now rewrite I1, I2, I3.
  - left. apply ret_inv in E. destruct E as [_ ->]. reflexivity.
Qed.

(** The loop over the commas, run without a new error. *)
Lemma comma_loop_quiet (X : list Token -> Prop) (item : M unit) :
  good any_error false item -> recognizes X item ->
  forall fuel s s',
    ends_in_EOF (tokens s) -> in_bounds s ->
    while fuel (text_is ",") (match_ "SPECIAL" (Some ",") ;; item) s = Ok (tt, s') ->
    errors s' = errors s ->
    exists ws, comma_run X ws /\ input s = (ws ++ input s')%list.
Proof.
  intros Hg Hr.
  assert (Hne : "SPECIAL" <> "EOF") by discriminate.
  assert (Hbody : good any_error false (match_ "SPECIAL" (Some ",") ;; item)).
  { intros s H. apply good_at_bind_r; [now apply (match_good _ allows_any)|].
    intros _ s1 _ H1. now apply Hg. }
  induction fuel as [|fuel IH]; intros s s' He Hb E Hq; [discriminate|].
  cbn [while] in E. inv_bind E c s1 Ec.
  apply text_is_inv in Ec. destruct Ec as (-> & _). destruct c.
  - inv_bind E u s2 Eb. destruct u.
    destruct (call_facts _ _ _ _ _ Hbody Hb Eb) as (Hb2 & T2 & L2 & Q2).
    destruct (call_facts _ _ _ _ _
                (while_good any_error fuel _ _ (text_is_good _ ",") Hbody) Hb2 E)
      as (_ & _ & L' & Q').
    pose proof (f_equal (@length string) Hq) as Hl.
    specialize (Q2 ltac:(lia)). specialize (Q' ltac:(lia)).
    assert (He2 : ends_in_EOF (tokens s2)) by now rewrite T2.
    destruct (IH s2 s' He2 Hb2 E Q') as (ws & Hws & Iw).
    inv_bind Eb b s3 Em.
    destruct (call_facts _ _ _ _ _ (match_good _ allows_any _ _) Hb Em)
      as (Hb3 & T3 & L3 & Q3).
    destruct (call_facts _ _ _ _ _ Hg Hb3 Eb) as (_ & _ & L4 & Q4).
    pose proof (f_equal (@length string) Q2) as Hl2.
    specialize (Q3 ltac:(lia)). specialize (Q4 ltac:(lia)).
    assert (He3 : ends_in_EOF (tokens s3)) by now rewrite T3.
    destruct (match_quiet _ _ _ _ _ He Hb Hne Em Q3) as (c & Hc & I1).
    destruct (Hr s3 s2 He3 Hb3 Eb Q4) as (w & Hw & I2).
    exists (c :: w ++ ws)%list. split.
    + constructor; auto. now apply matches_special.
    + rewrite I1, I2, Iw. cbn. now rewrite <- app_assoc.
  - apply ret_inv in E. destruct E as [_ ->]. exists []. split; [constructor | reflexivity].
Qed.

Lemma term_list_of_run ws : comma_run term ws ->
  forall w0, term w0 -> term_list (w0 ++ ws).
Proof.
  induction 1 as [|c w ws Hc Hw Hws IH]; intros w0 H0.
  - rewrite app_nil_r. now constructor.
  - apply term_list_more; auto.
Qed.

Lemma predicate_list_of_run ws : comma_run predicate ws ->
  forall p0, predicate p0 -> predicate_list (p0 ++ ws).
Proof.
  induction 1 as [|c w ws Hc Hw Hws IH]; intros w0 H0.
  - rewrite app_nil_r. now constructor.
  - apply predicate_list_more; auto.
Qed.

Lemma parse_term_sound fuel :
  recognizes term (parse_term fuel) /\ recognizes term_list (parse_term_list fuel).
Proof.
  induction fuel as [|fuel [IHt IHl]]; [split; intros s s' _ _ E; discriminate|].
  pose proof (parse_term_good _ allows_any fuel) as [Gt Gl].
  split; intros s s' He Hb E Hq.
  - cbn [parse_term] in E. inv_bind E token s1 Ec.
    apply current_token_inv in Ec. destruct Ec as (-> & Hn).
    destruct (kind token =? "ATOM") eqn:Ka.
    { inv_bind E u s2 Ea. destruct u.
      destruct (call_facts _ _ _ _ _ (parse_atom_good _ allows_any) Hb Ea)
        as (Hb2 & T2 & L2 & Q2).
      destruct (call_facts _ _ _ _ _
                  (arguments_good _ allows_any _ (good_no_progress _ _ Gl)) Hb2 E)
        as (_ & _ & L3 & Q3).
      pose proof (f_equal (@length string) Hq) as Hl.
      specialize (Q2 ltac:(lia)). specialize (Q3 ltac:(lia)).
      assert (He2 : ends_in_EOF (tokens s2)) by now rewrite T2.
      destruct (parse_atom_quiet _ _ He Hb Ea Q2) as (a & Ha & I1).
      destruct (arguments_quiet term_list (parse_term_list fuel)
                  (good_no_progress _ _ Gl) IHl s2 s' He2 Hb2 E Q3)
        as [I2|(l & args & r & Hl1 & Hargs & Hr1 & I2)].
      - exists [a]. split; [now constructor|]. now rewrite I1, I2.
      - exists (a :: l :: args ++ [r])%list. split; [now constructor|].
        rewrite I1, I2. cbn. now rewrite <- app_assoc. }
    assert (Hne : forall k, k <> "EOF" -> forall b s2,
              match_ k None s = Ok (b, s2) -> errors s2 = errors s ->
              exists x, kind x = k /\ input s = x :: input s2).
    { intros k Hk b s2 Em Q. destruct (match_quiet _ _ _ _ _ He Hb Hk Em Q) as (x & Hx & I).
      exists x. split; [now apply matches_kind in Hx | exact I]. }
    destruct (kind token =? "VARIABLE").
    { inv_bind E b s2 Em. apply ret_inv in E. destruct E as [_ ->].
      destruct (Hne "VARIABLE" ltac:(discriminate) b s2 Em Hq) as (x & Hx & I).
      exists [x]. split; [now apply term_variable | exact I]. }
    destruct (kind token =? "NUMBER").
    { inv_bind E b s2 Em. apply ret_inv in E. destruct E as [_ ->].
      destruct (Hne "NUMBER" ltac:(discriminate) b s2 Em Hq) as (x & Hx & I).
      exists [x]. split; [now apply term_numeral | exact I]. }
    exfalso. inv_bind E u s2 Ee. destruct u.
    destruct (error_longer _ _ _ _ Ee Hb) as (Hb2 & _ & Hl).
    destruct (call_facts true advance s2 tt s' (advance_good _) Hb2 E) as (_ & _ & Hl' & _).
    rewrite Hq in Hl'. lia.
  - cbn [parse_term_list] in E. inv_bind E u s1 Et. destruct u.
    assert (Hi : good any_error false (parse_term fuel)) by now apply good_no_progress.
    assert (Hbody : good any_error false (match_ "SPECIAL" (Some ",") ;; parse_term fuel)).
    { intros x H. apply good_at_bind_r; [now apply (match_good _ allows_any)|].
      intros _ x1 _ H1. now apply Hi. }
    destruct (call_facts _ _ _ _ _ Gt Hb Et) as (Hb1 & T1 & L1 & Q1).
    destruct (call_facts _ _ _ _ _
                (while_good any_error fuel _ _ (text_is_good _ ",") Hbody) Hb1 E)
      as (_ & _ & L2 & Q2).
    pose proof (f_equal (@length string) Hq) as Hl.
    specialize (Q1 ltac:(lia)). specialize (Q2 ltac:(lia)).
    assert (He1 : ends_in_EOF (tokens s1)) by now rewrite T1.
    destruct (IHt s s1 He Hb Et Q1) as (w0 & H0 & I1).
    destruct (comma_loop_quiet term (parse_term fuel) Hi IHt fuel s1 s' He1 Hb1 E Q2)
      as (ws & Hws & I2).
    exists (w0 ++ ws)%list. split; [now apply term_list_of_run|].
    rewrite I1, I2. now rewrite app_assoc.
Qed.

(** An error and whatever follows it leave [self.errors] longer. *)
Lemma report_not_quiet message (after : M unit) p s s' :
  good any_error p after -> in_bounds s ->
  (l <- current_line ;; error message l ;; after) s = Ok (tt, s') ->
  errors s' <> errors s.
Proof.
  intros Hg Hb E Hq. inv_bind E l s1 El.
  apply current_line_inv in El. destruct El as (-> & _).
  inv_bind E u s2 Ee. destruct u.
  destruct (error_longer _ _ _ _ Ee Hb) as (Hb2 & _ & Hl).
  destruct (call_facts _ _ _ _ _ Hg Hb2 E) as (_ & _ & Hl' & _).
  rewrite Hq in Hl'. lia.
Qed.

Lemma parse_predicate_sound fuel : recognizes predicate (parse_predicate fuel).
Proof.
  pose proof (parse_term_good _ allows_any fuel) as [_ Gl].
  intros s s' He Hb E Hq. unfold parse_predicate in E.
  inv_bind E c s1 Ec. apply kind_is_inv in Ec. destruct Ec as (-> & _). destruct c.
  - inv_bind E u s2 Ea. destruct u.
    destruct (call_facts _ _ _ _ _ (parse_atom_good _ allows_any) Hb Ea)
      as (Hb2 & T2 & L2 & Q2).
    destruct (call_facts _ _ _ _ _
                (arguments_good _ allows_any _ (good_no_progress _ _ Gl)) Hb2 E)
      as (_ & _ & L3 & Q3).
    pose proof (f_equal (@length string) Hq) as Hl.
    specialize (Q2 ltac:(lia)). specialize (Q3 ltac:(lia)).
    assert (He2 : ends_in_EOF (tokens s2)) by now rewrite T2.
    destruct (parse_atom_quiet _ _ He Hb Ea Q2) as (a & Ha & I1).
    destruct (arguments_quiet term_list (parse_term_list fuel)
                (good_no_progress _ _ Gl) (proj2 (parse_term_sound fuel))
                s2 s' He2 Hb2 E Q3)
      as [I2|(l & args & r & Hl1 & Hargs & Hr1 & I2)].
    + exists [a]. split; [now constructor|]. now rewrite I1, I2.
    + exists (a :: l :: args ++ [r])%list. split; [now constructor|].
      rewrite I1, I2. cbn. now rewrite <- app_assoc.
  - exfalso. exact (report_not_quiet _ advance true s s' (advance_good _) Hb E Hq).
Qed.

Lemma parse_predicate_list_sound fuel :
  recognizes predicate_list (parse_predicate_list fuel).
Proof.
  intros s s' He Hb E Hq. unfold parse_predicate_list in E.
  inv_bind E u s1 Ep. destruct u.
  pose proof (parse_predicate_good _ allows_any fuel) as Gp.
  assert (Hi : good any_error false (parse_predicate fuel)) by now apply good_no_progress.
  assert (Hbody : good any_error false (match_ "SPECIAL" (Some ",") ;; parse_predicate fuel)).
  { intros x H. apply good_at_bind_r; [now apply (match_good _ allows_any)|].
    intros _ x1 _ H1. now apply Hi. }
  destruct (call_facts _ _ _ _ _ Gp Hb Ep) as (Hb1 & T1 & L1 & Q1).
  destruct (call_facts _ _ _ _ _
              (while_good any_error fuel _ _ (text_is_good _ ",") Hbody) Hb1 E)
    as (_ & _ & L2 & Q2).
  pose proof (f_equal (@length string) Hq) as Hl.
  specialize (Q1 ltac:(lia)). specialize (Q2 ltac:(lia)).
  assert (He1 : ends_in_EOF (tokens s1)) by now rewrite T1.
  destruct (parse_predicate_sound fuel s s1 He Hb Ep Q1) as (p0 & H0 & I1).
  destruct (comma_loop_quiet predicate (parse_predicate fuel) Hi
              (parse_predicate_sound fuel) fuel s1 s' He1 Hb1 E Q2)
    as (ws & Hws & I2).
  exists (p0 ++ ws)%list. split; [now apply predicate_list_of_run|].
  rewrite I1, I2. now rewrite app_assoc.
Qed.

(** A predicate list between two special tokens, as in a query and in
    the body of a rule. *)
Lemma bracketed_list_quiet (open : string) fuel s s' :
  ends_in_EOF (tokens s) -> in_bounds s ->
  (match_ "SPECIAL" (Some open) ;; parse_predicate_list fuel ;;
   match_ "SPECIAL" (Some ".") ;; ret tt) s = Ok (tt, s') ->
  errors s' = errors s ->
  exists o body d,
    is_special open o /\ predicate_list body /\ is_special "." d /\
    input s = o :: (body ++ d :: input s')%list.
Proof.
  intros He Hb E Hq.
  assert (Hne : "SPECIAL" <> "EOF") by discriminate.
  inv_bind E b1 s2 E1. inv_bind E u s3 E2. inv_bind E b2 s4 E3.
  apply ret_inv in E. destruct E as [_ ->]. destruct u.
  destruct (call_facts _ _ _ _ _ (match_good _ allows_any _ _) Hb E1)
    as (Hb2 & T2 & L2 & Q2).
  destruct (call_facts _ _ _ _ _ (parse_predicate_list_good _ allows_any fuel) Hb2 E2)
    as (Hb3 & T3 & L3 & Q3).
  destruct (call_facts _ _ _ _ _ (match_good _ allows_any _ _) Hb3 E3)
    as (Hb4 & T4 & L4 & Q4).
  pose proof (f_equal (@length string) Hq) as Hl.
  specialize (Q2 ltac:(lia)). specialize (Q3 ltac:(lia)). specialize (Q4 ltac:(lia)).
  assert (He2 : ends_in_EOF (tokens s2)) by now rewrite T2.
  assert (He3 : ends_in_EOF (tokens s3)) by now rewrite T3.
  destruct (match_quiet _ _ _ _ _ He Hb Hne E1 Q2) as (o & Ho & I1).
  destruct (parse_predicate_list_sound fuel s2 s3 He2 Hb2 E2 Q3) as (body & Hbd & I2).
  destruct (match_quiet _ _ _ _ _ He3 Hb3 Hne E3 Q4) as (d & Hd & I3).
  exists o, body, d. apply matches_special in Ho, Hd.
  split; [exact Ho|]. split; [exact Hbd|]. split; [exact Hd|].
  now rewrite I1, I2, I3.
Qed.

Lemma parse_query_sound fuel : recognizes query (parse_query fuel).
Proof.
  intros s s' He Hb E Hq. unfold parse_query in E.
  inv_bind E c s1 Ec. apply text_is_inv in Ec. destruct Ec as (-> & _). destruct c.
  - destruct (bracketed_list_quiet "?-" fuel s s' He Hb E Hq)
      as (q & body & d & Hq1 & Hbd & Hd & I).
    exists (q :: body ++ [d])%list. split; [now constructor|].
    rewrite I. cbn. now rewrite <- app_assoc.
  - exfalso. inv_bind E l s1 El.
    apply current_line_inv in El. destruct El as (-> & _).
    destruct (error_longer _ _ _ _ E Hb) as (_ & _ & Hl). rewrite Hq in Hl. lia.
Qed.

Lemma bracketed_list_good open fuel :
  good any_error false
    (match_ "SPECIAL" (Some open) ;; parse_predicate_list fuel ;;
     match_ "SPECIAL" (Some ".") ;; ret tt).
Proof.
  intros s H.
  apply good_at_bind_r; [now apply (match_good _ allows_any)|]. intros _ s1 _ H1.
  apply good_at_bind_r;
    [eapply good_at_no_progress; now apply (parse_predicate_list_good _ allows_any)|].
  intros _ s2 _ H2.
  apply good_at_bind_r; [now apply (match_good _ allows_any)|].
  intros; now apply good_at_ret.
Qed.

Lemma parse_clause_sound fuel : recognizes clause (parse_clause fuel).
Proof.
  intros s s' He Hb E Hq. unfold parse_clause in E.
  assert (Hne : "SPECIAL" <> "EOF") by discriminate.
  inv_bind E u s1 Ep. destruct u.
  destruct (call_facts _ _ _ _ _ (parse_predicate_good _ allows_any fuel) Hb Ep)
    as (Hb1 & T1 & L1 & Q1).
  assert (He1 : ends_in_EOF (tokens s1)) by now rewrite T1.
  pose proof (f_equal (@length string) Hq) as Hl.
  inv_bind E c s2 Ec. apply text_is_inv in Ec. destruct Ec as (-> & _). destruct c.
  { inv_bind E b s2 Em. apply ret_inv in E. destruct E as [_ ->].
    destruct (call_facts _ _ _ _ _ (match_good _ allows_any _ _) Hb1 Em)
      as (_ & _ & L2 & Q2).
    specialize (Q1 ltac:(lia)). specialize (Q2 ltac:(lia)).
    destruct (parse_predicate_sound fuel s s1 He Hb Ep Q1) as (p & Hp & I1).
    destruct (match_quiet _ _ _ _ _ He1 Hb1 Hne Em Q2) as (d & Hd & I2).
    exists (p ++ [d])%list. split; [constructor; auto; now apply matches_special|].
    rewrite I1, I2. now rewrite <- app_assoc. }
  inv_bind E c s2 Ec. apply text_is_inv in Ec. destruct Ec as (-> & _). destruct c.
  - destruct (call_facts _ _ _ _ _ (bracketed_list_good ":-" fuel) Hb1 E)
      as (_ & _ & L2 & Q2).
    specialize (Q1 ltac:(lia)). specialize (Q2 ltac:(lia)).
    destruct (parse_predicate_sound fuel s s1 He Hb Ep Q1) as (p & Hp & I1).
    destruct (bracketed_list_quiet ":-" fuel s1 s' He1 Hb1 E Q2)
      as (i & body & d & Hi & Hbd & Hd & I2).
    exists (p ++ i :: body ++ [d])%list. split; [now constructor|].
    rewrite I1, I2. rewrite <- app_assoc. cbn. now rewrite <- app_assoc.
  - exfalso.
    assert (Hq1 : errors s' <> errors s1)
      by exact (report_not_quiet _ advance true s1 s' (advance_good _) Hb1 E).
    inv_bind E l s2 El. apply current_line_inv in El. destruct El as (-> & _).
    inv_bind E u s3 Ee. destruct u.
    destruct (error_longer _ _ _ _ Ee Hb1) as (Hb3 & _ & Hl3).
    destruct (call_facts true advance s3 tt s' (advance_good _) Hb3 E) as (_ & _ & Hl' & _).
    lia.
Qed.

Lemma parse_clause_list_sound fuel f :
  recognizes clause_list (while f clause_cond (parse_clause fuel)).
Proof.
  pose proof (parse_clause_good _ allows_any fuel) as Gc.
  assert (Hcond : good any_error false clause_cond).
  { intros x H. unfold clause_cond. apply good_at_bind_r; [now apply kind_is_good|].
    intros k x1 _ H1. destruct (negb k); [|now apply good_at_ret].
    apply good_at_bind_r; [now apply text_is_good|]. intros; now apply good_at_ret. }
  induction f as [|f IH]; intros s s' He Hb E Hq; [discriminate|].
  cbn [while] in E. inv_bind E c s1 Ec.
  apply clause_cond_inv in Ec. destruct Ec as (-> & _). destruct c.
  - inv_bind E u s2 Eb. destruct u.
    destruct (call_facts _ _ _ _ _ Gc Hb Eb) as (Hb2 & T2 & L2 & Q2).
    destruct (call_facts _ _ _ _ _
                (while_good any_error f _ _ Hcond (good_no_progress _ _ Gc)) Hb2 E)
      as (_ & _ & L' & Q').
    pose proof (f_equal (@length string) Hq) as Hl.
    specialize (Q2 ltac:(lia)). specialize (Q' ltac:(lia)).
    assert (He2 : ends_in_EOF (tokens s2)) by now rewrite T2.
    destruct (parse_clause_sound fuel s s2 He Hb Eb Q2) as (c & Hc & I1).
    destruct (IH s2 s' He2 Hb2 E Q') as (cs & Hcs & I2).
    exists (c ++ cs)%list. split; [now constructor|].
    rewrite I1, I2. now rewrite app_assoc.
  - apply ret_inv in E. destruct E as [_ ->]. exists []. split; [constructor | reflexivity].
Qed.

Lemma parse_program_sound fuel : recognizes program (parse_program fuel).
Proof.
  intros s s' He Hb E Hq. unfold parse_program in E.
  inv_bind E c s1 Ec. apply text_is_inv in Ec. destruct Ec as (-> & _). destruct c.
  - destruct (parse_query_sound fuel s s' He Hb E Hq) as (q & Hq1 & I).
    exists ([] ++ q)%list. split; [apply program_query; [constructor | exact Hq1] | exact I].
  - inv_bind E u s1 El. destruct u.
    destruct (call_facts _ _ _ _ _ (parse_clause_list_good _ allows_any fuel) Hb El)
      as (Hb1 & T1 & L1 & Q1).
    assert (He1 : ends_in_EOF (tokens s1)) by now rewrite T1.
    pose proof (f_equal (@length string) Hq) as Hl.
    inv_bind E c s2 Ec. apply text_is_inv in Ec. destruct Ec as (-> & _). destruct c.
    + destruct (call_facts _ _ _ _ _ (parse_query_any_good fuel) Hb1 E)
        as (_ & _ & L2 & Q2).
      specialize (Q1 ltac:(lia)). specialize (Q2 ltac:(lia)).
      destruct (parse_clause_list_sound fuel fuel s s1 He Hb El Q1) as (cs & Hcs & I1).
      destruct (parse_query_sound fuel s1 s' He1 Hb1 E Q2) as (q & Hq1 & I2).
      exists (cs ++ q)%list. split; [now constructor|].
      rewrite I1, I2. now rewrite app_assoc.
    + apply ret_inv in E. destruct E as [_ ->].
      destruct (parse_clause_list_sound fuel fuel s s1 He Hb El Hq) as (cs & Hcs & I1).
      exists cs. split; [now constructor | exact I1].
Qed.

(** X7: a run of [parse_program] on a token list that ends in the EOF
    sentinel and that returns an empty error list has read a program
    of the grammar: the tokens before the cursor it stops at are a
    clause list, optionally followed by a query.  An empty report says
    that what was read is a program. *)
Theorem no_errors_means_program (toks : list Token) (fuel : nat) (s' : Parser) :
  ends_in_EOF toks ->
  parse_program fuel (Parser_init toks) = Ok (tt, s') ->
  errors s' = [] ->
  exists w, program w /\ toks = (w ++ skipn (pos s') toks)%list /\
            (pos s' < length toks)%nat.
Proof.
  intros He E Hq.
  pose proof (init_in_bounds toks He) as Hb.
  destruct (parse_program_sound fuel (Parser_init toks) s' He Hb E Hq) as (w & Hw & I).
  destruct (call_facts _ _ _ _ _ (parse_program_good _ allows_any fuel) Hb E)
    as (Hb' & T & _).
  exists w. split; [exact Hw|]. unfold input in I. cbn [tokens pos Parser_init] in *.
  rewrite T in I. cbn [skipn] in I. split; [exact I|].
  unfold in_bounds in Hb'. now rewrite T in Hb'.
Qed.

Lemma no_errors_means_program_witness :
  exists w, program w /\ toks_fact = (w ++ skipn 2 toks_fact)%list /\
            (2 < length toks_fact)%nat.
Proof.
  exact (no_errors_means_program toks_fact 6 (mkParser toks_fact 2 [])
           toks_fact_ends eq_refl eq_refl).
Defined.

(* ================================================================== *)
(** * A program is read without an error *)

Lemma bind_Ok_eq {A B} (m : M A) (k : A -> M B) s a s1 :
  m s = Ok (a, s1) -> bind m k s = k a s1.
Proof. intros H. unfold bind. now rewrite H. Qed.

Lemma skipn_tl {A} (n : nat) : forall l : list A, skipn (S n) l = tl (skipn n l).
Proof.
  induction n as [|n IH]; intros [|x l]; try reflexivity.
  exact (IH l).
Qed.

Lemma input_in_bounds s t r : input s = t :: r -> in_bounds s.
Proof.
  intros H. apply input_head in H. unfold in_bounds.
  apply nth_error_Some. congruence.
Qed.

(** The cursor moves over a token that is not the last. *)
Lemma input_advanced s t r :
  input s = t :: r -> r <> [] ->
  input (advanced s) = r /\ errors (advanced s) = errors s /\
  tokens (advanced s) = tokens s.
Proof.
  intros H Hr. unfold input, advanced in *. cbn [tokens pos errors].
  assert (Hl : (pos s + 1 < length (tokens s))%nat).
  { pose proof (f_equal (@length Token) H) as Hl. rewrite length_skipn in Hl.
    destruct r; [congruence|]. cbn in Hl. lia. }
  destruct (Nat.ltb_spec (pos s + 1) (length (tokens s))); [|lia].
  rewrite Nat.add_1_r, skipn_tl, H. auto.
Qed.

Lemma current_token_input s t r : input s = t :: r -> current_token s = Ok (t, s).
Proof. intros H. apply input_head in H. unfold current_token. now rewrite H. Qed.

Lemma text_is_input v s t r : input s = t :: r -> text_is v s = Ok (text t =? v, s).
Proof. intros H. apply text_is_eq. now apply input_head in H. Qed.

Lemma kind_is_input k s t r : input s = t :: r -> kind_is k s = Ok (kind t =? k, s).
Proof.
  intros H. unfold kind_is. now rewrite (bind_Ok_eq _ _ _ _ _ (current_token_input _ _ _ H)).
Qed.

Lemma match_ok k v s t r :
  input s = t :: r -> matches k v t = true -> match_ k v s = Ok (true, advanced s).
Proof.
  intros H Hm. rewrite (match_eq s t k v (input_head _ _ _ H)). now rewrite Hm.
Qed.

Lemma matches_is_special v t : is_special v t -> matches "SPECIAL" (Some v) t = true.
Proof.
  intros [Hk Ht]. unfold matches. rewrite Hk, Ht. cbn. now rewrite String.eqb_refl.
Qed.

Lemma left_with_trans s s1 s2 rest1 rest2 :
  left_with s s1 rest1 -> left_with s1 s2 rest2 -> left_with s s2 rest2.
Proof. intros (E1 & T1 & _) (E2 & T2 & I2). repeat split; congruence. Qed.

Lemma left_with_advanced s t r :
  input s = t :: r -> r <> [] -> left_with s (advanced s) r.
Proof.
  intros H Hr. destruct (input_advanced _ _ _ H Hr) as (I & E & T). now repeat split.
Qed.

(** A [match] of a special token that is under the cursor. *)
Lemma match_special_complete v s b s' t r :
  input s = t :: r -> r <> [] -> is_special v t ->
  match_ "SPECIAL" (Some v) s = Ok (b, s') -> left_with s s' r.
Proof.
  intros H Hr Hs E.
  rewrite (match_ok _ _ _ _ _ H (matches_is_special _ _ Hs)) in E.
  inversion E; subst. now apply left_with_advanced with t.
Qed.

Lemma parse_atom_complete s s' a r :
  input s = a :: r -> r <> [] -> is_atom a ->
  parse_atom s = Ok (tt, s') -> left_with s s' r.
Proof.
  intros H Hr Ha E. unfold parse_atom in E. unfold is_atom in Ha.
  rewrite (bind_Ok_eq _ _ _ _ _ (kind_is_input "ATOM" _ _ _ H)) in E.
  rewrite Ha in E. cbn [String.eqb Ascii.eqb Bool.eqb] in E.
  assert (Hm : matches "ATOM" None a = true).
  { unfold matches. rewrite Ha. reflexivity. }
  rewrite (bind_Ok_eq _ _ _ _ _ (match_ok _ _ _ _ _ H Hm)) in E.
  apply ret_inv in E. destruct E as [_ ->]. now apply left_with_advanced with a.
Qed.

(** The optional argument list when no [(] follows. *)
Lemma arguments_none (term_list : M unit) s s' rest :
  input s = rest -> after_item rest ->
  (c <- text_is "(" ;;
   if (c : bool) then
     match_ "SPECIAL" (Some "(") ;; term_list ;; match_ "SPECIAL" (Some ")") ;; ret tt
   else ret tt) s = Ok (tt, s') ->
  s' = s.
Proof.
  intros H (t & r & -> & Ht) E.
  rewrite (bind_Ok_eq _ _ _ _ _ (text_is_input "(" _ _ _ H)) in E.
  apply String.eqb_neq in Ht. rewrite Ht in E. now apply ret_inv in E.
Qed.

(** The optional argument list when [( args )] follows and
    [term_list] reads [args]. *)
Lemma arguments_some (term_list : M unit) s s' l args r rest :
  input s = l :: (args ++ r :: rest)%list -> rest <> [] ->
  is_special "(" l -> is_special ")" r ->
  (forall s2 s3, input s2 = (args ++ r :: rest)%list ->
     term_list s2 = Ok (tt, s3) -> left_with s2 s3 (r :: rest)) ->
  (c <- text_is "(" ;;
   if (c : bool) then
     match_ "SPECIAL" (Some "(") ;; term_list ;; match_ "SPECIAL" (Some ")") ;; ret tt
   else ret tt) s = Ok (tt, s') ->
  left_with s s' rest.
Proof.
  intros H Hr Hl Hr' Htl E.
  rewrite (bind_Ok_eq _ _ _ _ _ (text_is_input "(" _ _ _ H)) in E.
  destruct Hl as [Hlk Hlt]. rewrite Hlt in E. cbn [String.eqb Ascii.eqb Bool.eqb] in E.
  assert (Hne : (args ++ r :: rest)%list <> []) by (destruct args; discriminate).
  inv_bind E b1 s2 E1.
  pose proof (match_special_complete _ _ _ _ _ _ H Hne (conj Hlk Hlt) E1) as L1.
  inv_bind E u s3 E2. destruct u.
  pose proof (Htl s2 s3 (proj2 (proj2 L1)) E2) as L2.
  inv_bind E b2 s4 E3. apply ret_inv in E. destruct E as [_ ->].
  pose proof (match_special_complete _ _ _ _ _ _ (proj2 (proj2 L2)) Hr Hr' E3) as L3.
  eapply left_with_trans; [|exact L3]. eapply left_with_trans; eauto.
Qed.

(** The loop over the commas stops where no comma follows. *)
Lemma item_list_last (item : M unit) f s s1 s' rest :
  item s = Ok (tt, s1) -> left_with s s1 rest -> after_list rest ->
  item_list item f s = Ok (tt, s') -> left_with s s' rest.
Proof.
  intros Ei L (t & r & -> & _ & Hc) E. unfold item_list in E.
  rewrite (bind_Ok_eq _ _ _ _ _ Ei) in E.
  destruct f as [|f]; [discriminate|]. cbn [while] in E.
  rewrite (bind_Ok_eq _ _ _ _ _ (text_is_input "," _ _ _ (proj2 (proj2 L)))) in E.
  apply String.eqb_neq in Hc. rewrite Hc in E.
  apply ret_inv in E. destruct E as [_ ->]. exact L.
Qed.

(** The loop over the commas goes on over a comma. *)
Lemma item_list_next (item : M unit) f s s1 s' c rest :
  item s = Ok (tt, s1) -> left_with s s1 (c :: rest) -> rest <> [] ->
  is_special "," c ->
  item_list item f s = Ok (tt, s') ->
  exists f' s2,
    left_with s s2 rest /\ item_list item f' s2 = Ok (tt, s').
Proof.
  intros Ei L Hr Hc E. unfold item_list in E.
  rewrite (bind_Ok_eq _ _ _ _ _ Ei) in E.
  destruct f as [|f]; [discriminate|]. cbn [while] in E.
  rewrite (bind_Ok_eq _ _ _ _ _ (text_is_input "," _ _ _ (proj2 (proj2 L)))) in E.
  destruct Hc as [Hck Hct]. rewrite Hct in E. cbn [String.eqb Ascii.eqb Bool.eqb] in E.
  inv_bind E u s3 Eb. destruct u. inv_bind Eb b s2 Em.
  pose proof (match_special_complete _ _ _ _ _ _ (proj2 (proj2 L)) Hr (conj Hck Hct) Em) as L2.
  exists f, s2. split; [eapply left_with_trans; eauto|].
  unfold item_list. now rewrite (bind_Ok_eq _ _ _ _ _ Eb).
Qed.

Lemma after_item_nonempty rest : after_item rest -> rest <> [].
Proof. intros (t & r & -> & _). discriminate. Qed.

Lemma after_list_item rest : after_list rest -> after_item rest.
Proof. intros (t & r & -> & H & _). now exists t, r. Qed.

Lemma after_item_special v t rest :
  is_special v t -> v <> "(" -> after_item (t :: rest).
Proof. intros [_ Ht] Hv. exists t, rest. split; [reflexivity|]. congruence. Qed.

Lemma after_list_special v t rest :
  is_special v t -> v <> "(" -> v <> "," -> after_list (t :: rest).
Proof. intros [_ Ht] Hv Hc. exists t, rest. split; [reflexivity|]. split; congruence. Qed.

Lemma term_complete :
  (forall w, term w ->
     forall F s s' rest,
       input s = (w ++ rest)%list -> after_item rest ->
       parse_term F s = Ok (tt, s') -> left_with s s' rest) /\
  (forall ws, term_list ws ->
     forall F f s s' rest,
       input s = (ws ++ rest)%list -> after_list rest ->
       item_list (parse_term F) f s = Ok (tt, s') -> left_with s s' rest).
Proof.
  apply term_and_list_min.
  - (* an atom *)
    intros a Ha F s s' rest H Hf E. cbn [app] in H.
    destruct F as [|F]; [discriminate|]. cbn [parse_term] in E.
    rewrite (bind_Ok_eq _ _ _ _ _ (current_token_input _ _ _ H)) in E.
    unfold is_atom in Ha. rewrite Ha in E. cbn [String.eqb Ascii.eqb Bool.eqb] in E.
    inv_bind E u s1 Ea. destruct u.
    pose proof (parse_atom_complete _ _ _ _ H (after_item_nonempty _ Hf) Ha Ea) as L.
    apply (arguments_none _ _ _ _ (proj2 (proj2 L)) Hf) in E. now subst s'.
  - (* a structure *)
    intros a l args r Ha Hl _ IH Hr F s s' rest H Hf E.
    cbn [app] in H. rewrite <- app_assoc in H. cbn [app] in H.
    destruct F as [|F]; [discriminate|]. cbn [parse_term] in E.
    rewrite (bind_Ok_eq _ _ _ _ _ (current_token_input _ _ _ H)) in E.
    unfold is_atom in Ha. rewrite Ha in E. cbn [String.eqb Ascii.eqb Bool.eqb] in E.
    inv_bind E u s1 Ea. destruct u.
    pose proof (parse_atom_complete _ _ _ _ H ltac:(discriminate) Ha Ea) as L.
    eapply left_with_trans; [exact L|].
    apply (arguments_some (parse_term_list F) s1 s' l args r rest); auto.
    + exact (proj2 (proj2 L)).
    + now apply after_item_nonempty.
    + intros s2 s3 H2 E2. destruct F as [|F]; [discriminate|].
      apply (IH F F s2 s3 (r :: rest) H2); [|exact E2].
      apply (after_list_special ")"); auto; discriminate.
  - (* a variable *)
    intros x Hx F s s' rest H Hf E. cbn [app] in H.
    destruct F as [|F]; [discriminate|]. cbn [parse_term] in E.
    rewrite (bind_Ok_eq _ _ _ _ _ (current_token_input _ _ _ H)) in E.
    rewrite Hx in E. cbn [String.eqb Ascii.eqb Bool.eqb] in E.
    assert (Hm : matches "VARIABLE" None x = true) by (unfold matches; now rewrite Hx).
    rewrite (bind_Ok_eq _ _ _ _ _ (match_ok _ _ _ _ _ H Hm)) in E.
    apply ret_inv in E. destruct E as [_ ->].
    apply left_with_advanced with x; auto. now apply after_item_nonempty.
  - (* a numeral *)
    intros x Hx F s s' rest H Hf E. cbn [app] in H.
    destruct F as [|F]; [discriminate|]. cbn [parse_term] in E.
    rewrite (bind_Ok_eq _ _ _ _ _ (current_token_input _ _ _ H)) in E.
    rewrite Hx in E. cbn [String.eqb Ascii.eqb Bool.eqb] in E.
    assert (Hm : matches "NUMBER" None x = true) by (unfold matches; now rewrite Hx).
    rewrite (bind_Ok_eq _ _ _ _ _ (match_ok _ _ _ _ _ H Hm)) in E.
    apply ret_inv in E. destruct E as [_ ->].
    apply left_with_advanced with x; auto. now apply after_item_nonempty.
  - (* the last term of a list *)
    intros w _ IH F f s s' rest H Hf E.
    pose proof E as E0. unfold item_list in E0. inv_bind E0 u s1 Ei. destruct u.
    pose proof (IH F s s1 rest H (after_list_item _ Hf) Ei) as L.
    exact (item_list_last _ _ _ _ _ _ Ei L Hf E).
  - (* a term and a comma *)
    intros w c ws _ IHw Hc _ IHws F f s s' rest H Hf E.
    rewrite <- app_assoc in H. cbn [app] in H.
    pose proof E as E0. unfold item_list in E0. inv_bind E0 u s1 Ei. destruct u.
    assert (Hi : after_item (c :: ws ++ rest))
      by (apply (after_item_special ","); auto; discriminate).
    pose proof (IHw F s s1 _ H Hi Ei) as L.
    assert (Hne : (ws ++ rest)%list <> []).
    { destruct Hf as (t & r & -> & _). destruct ws; discriminate. }
    destruct (item_list_next _ _ _ _ _ _ _ Ei L Hne Hc E) as (f' & s2 & L2 & E2).
    eapply left_with_trans; [exact L2|].
    exact (IHws F f' s2 s' rest (proj2 (proj2 L2)) Hf E2).
Qed.

Lemma predicate_complete p : predicate p ->
  forall F s s' rest,
    input s = (p ++ rest)%list -> after_item rest ->
    parse_predicate F s = Ok (tt, s') -> left_with s s' rest.
Proof.
  intros Hp F s s' rest H Hf E. unfold parse_predicate in E.
  destruct Hp as [a Ha|a l args r Ha Hl Hargs Hr].
  - cbn [app] in H.
    rewrite (bind_Ok_eq _ _ _ _ _ (kind_is_input "ATOM" _ _ _ H)) in E.
    unfold is_atom in Ha. rewrite Ha in E. cbn [String.eqb Ascii.eqb Bool.eqb] in E.
    inv_bind E u s1 Ea. destruct u.
    pose proof (parse_atom_complete _ _ _ _ H (after_item_nonempty _ Hf) Ha Ea) as L.
    apply (arguments_none _ _ _ _ (proj2 (proj2 L)) Hf) in E. now subst s'.
  - cbn [app] in H. rewrite <- app_assoc in H. cbn [app] in H.
    rewrite (bind_Ok_eq _ _ _ _ _ (kind_is_input "ATOM" _ _ _ H)) in E.
    unfold is_atom in Ha. rewrite Ha in E. cbn [String.eqb Ascii.eqb Bool.eqb] in E.
    inv_bind E u s1 Ea. destruct u.
    pose proof (parse_atom_complete _ _ _ _ H ltac:(discriminate) Ha Ea) as L.
    eapply left_with_trans; [exact L|].
    apply (arguments_some (parse_term_list F) s1 s' l args r rest); auto.
    + exact (proj2 (proj2 L)).
    + now apply after_item_nonempty.
    + intros s2 s3 H2 E2. destruct F as [|F]; [discriminate|].
      apply (proj2 term_complete args Hargs F F s2 s3 (r :: rest) H2); [|exact E2].
      apply (after_list_special ")"); auto; discriminate.
Qed.

Lemma predicate_list_complete ps : predicate_list ps ->
  forall F f s s' rest,
    input s = (ps ++ rest)%list -> after_list rest ->
    item_list (parse_predicate F) f s = Ok (tt, s') -> left_with s s' rest.
Proof.
  induction 1 as [p Hp|p c ps Hp Hc _ IH]; intros F f s s' rest H Hf E.
  - pose proof E as E0. unfold item_list in E0. inv_bind E0 u s1 Ei. destruct u.
    pose proof (predicate_complete p Hp F s s1 rest H (after_list_item _ Hf) Ei) as L.
    exact (item_list_last _ _ _ _ _ _ Ei L Hf E).
  - rewrite <- app_assoc in H. cbn [app] in H.
    pose proof E as E0. unfold item_list in E0. inv_bind E0 u s1 Ei. destruct u.
    assert (Hi : after_item (c :: ps ++ rest))
      by (apply (after_item_special ","); auto; discriminate).
    pose proof (predicate_complete p Hp F s s1 _ H Hi Ei) as L.
    assert (Hne : (ps ++ rest)%list <> []).
    { destruct Hf as (t & r & -> & _). destruct ps; discriminate. }
    destruct (item_list_next _ _ _ _ _ _ _ Ei L Hne Hc E) as (f' & s2 & L2 & E2).
    eapply left_with_trans; [exact L2|].
    exact (IH F f' s2 s' rest (proj2 (proj2 L2)) Hf E2).
Qed.

(** A predicate list between [opening] and [.], read where the token
    [opening] is under the cursor. *)
Lemma bracketed_list_complete (opening : string) F s s' o body d rest :
  input s = o :: (body ++ d :: rest)%list -> rest <> [] ->
  is_special opening o -> predicate_list body -> is_special "." d ->
  (match_ "SPECIAL" (Some opening) ;; parse_predicate_list F ;;
   match_ "SPECIAL" (Some ".") ;; ret tt) s = Ok (tt, s') ->
  left_with s s' rest.
Proof.
  intros H Hr Ho Hb Hd E.
  assert (Hne : (body ++ d :: rest)%list <> []) by (destruct body; discriminate).
  inv_bind E b1 s1 E1.
  pose proof (match_special_complete _ _ _ _ _ _ H Hne Ho E1) as L1.
  inv_bind E u s2 E2. destruct u.
  assert (L2 : left_with s1 s2 (d :: rest)).
  { apply (predicate_list_complete body Hb F F s1 s2 (d :: rest) (proj2 (proj2 L1)));
      [|exact E2].
    apply (after_list_special "."); auto; discriminate. }
  inv_bind E b2 s3 E3. apply ret_inv in E. destruct E as [_ ->].
  pose proof (match_special_complete _ _ _ _ _ _ (proj2 (proj2 L2)) Hr Hd E3) as L3.
  eapply left_with_trans; [|exact L3]. eapply left_with_trans; eauto.
Qed.

Lemma query_complete q : query q ->
  forall F s s' rest,
    input s = (q ++ rest)%list -> rest <> [] ->
    parse_query F s = Ok (tt, s') -> left_with s s' rest.
Proof.
  intros [o body d Ho Hb Hd] F s s' rest H Hr E.
  cbn [app] in H. rewrite <- app_assoc in H. cbn [app] in H.
  unfold parse_query in E.
  rewrite (bind_Ok_eq _ _ _ _ _ (text_is_input "?-" _ _ _ H)) in E.
  pose proof Ho as [_ Hot]. rewrite Hot in E. cbn [String.eqb Ascii.eqb Bool.eqb] in E.
  exact (bracketed_list_complete "?-" F s s' o body d rest H Hr Ho Hb Hd E).
Qed.

Lemma clause_complete c : clause c ->
  forall F s s' rest,
    input s = (c ++ rest)%list -> rest <> [] ->
    parse_clause F s = Ok (tt, s') -> left_with s s' rest.
Proof.
  intros [p d Hp Hd|p i body d Hp Hi Hb Hd] F s s' rest H Hr E;
    rewrite <- app_assoc in H; cbn [app] in H; unfold parse_clause in E;
    inv_bind E u s1 Ep; destruct u.
  - assert (Hf : after_item (d :: rest))
      by (apply (after_item_special "."); auto; discriminate).
    pose proof (predicate_complete p Hp F s s1 _ H Hf Ep) as L.
    rewrite (bind_Ok_eq _ _ _ _ _ (text_is_input "." _ _ _ (proj2 (proj2 L)))) in E.
    pose proof Hd as [_ Hdt]. rewrite Hdt in E. cbn [String.eqb Ascii.eqb Bool.eqb] in E.
    inv_bind E b s2 Em. apply ret_inv in E. destruct E as [_ ->].
    eapply left_with_trans; [exact L|].
    exact (match_special_complete _ _ _ _ _ _ (proj2 (proj2 L)) Hr Hd Em).
  - rewrite <- app_assoc in H. cbn [app] in H.
    assert (Hf : after_item (i :: body ++ d :: rest))
      by (apply (after_item_special ":-"); auto; discriminate).
    pose proof (predicate_complete p Hp F s s1 _ H Hf Ep) as L.
    rewrite (bind_Ok_eq _ _ _ _ _ (text_is_input "." _ _ _ (proj2 (proj2 L)))) in E.
    pose proof Hi as [_ Hit]. rewrite Hit in E. cbn [String.eqb Ascii.eqb Bool.eqb] in E.
    rewrite (bind_Ok_eq _ _ _ _ _ (text_is_input ":-" _ _ _ (proj2 (proj2 L)))) in E.
    rewrite Hit in E. cbn [String.eqb Ascii.eqb Bool.eqb] in E.
    eapply left_with_trans; [exact L|].
    exact (bracketed_list_complete ":-" F s1 s' i body d rest
             (proj2 (proj2 L)) Hr Hi Hb Hd E).
Qed.

Lemma clause_cond_input s t r :
  input s = t :: r ->
  clause_cond s = Ok (negb (kind t =? "EOF") && negb (text t =? "?-"), s).
Proof.
  intros H. unfold clause_cond.
  rewrite (bind_Ok_eq _ _ _ _ _ (kind_is_input "EOF" _ _ _ H)).
  destruct (kind t =? "EOF"); cbn [negb andb]; [reflexivity|].
  now rewrite (bind_Ok_eq _ _ _ _ _ (text_is_input "?-" _ _ _ H)).
Qed.

(** A predicate, and so a clause, begins with an atom. *)
Lemma predicate_head p : predicate p -> exists a r, p = a :: r /\ is_atom a.
Proof. intros [a Ha|a l args r Ha _ _ _]; eauto. Qed.

Lemma clause_head c : clause c -> exists a r, c = a :: r /\ is_atom a.
Proof.
  intros [p d Hp _|p i body d Hp _ _ _];
    destruct (predicate_head p Hp) as (a & r & -> & Ha); cbn; eauto.
Qed.

Lemma atom_under_cursor_plain s a r :
  atoms_plain (tokens s) -> input s = a :: r -> is_atom a ->
  (kind a =? "EOF") = false /\ (text a =? "?-") = false.
Proof.
  intros Hp H Ha. split.
  - unfold is_atom in Ha. now rewrite Ha.
  - apply String.eqb_neq. unfold atoms_plain in Hp. rewrite Forall_forall in Hp.
    apply Hp; [|exact Ha]. eapply nth_error_In. eapply input_head; eauto.
Qed.

Lemma clause_list_complete cs : clause_list cs ->
  forall F f s s' rest,
    input s = (cs ++ rest)%list -> after_clauses rest -> atoms_plain (tokens s) ->
    while f clause_cond (parse_clause F) s = Ok (tt, s') -> left_with s s' rest.
Proof.
  induction 1 as [|c cs Hc _ IH]; intros F f s s' rest H Hf Hp E;
    (destruct f as [|f]; [discriminate|]); cbn [while] in E.
  - cbn [app] in H. destruct Hf as (t & r & -> & Hstop).
    rewrite (bind_Ok_eq _ _ _ _ _ (clause_cond_input _ _ _ H)) in E.
    assert (Hv : negb (kind t =? "EOF") && negb (text t =? "?-") = false).
    { destruct Hstop as [Hk|Ht]; [rewrite Hk | rewrite Ht, andb_comm]; reflexivity. }
    rewrite Hv in E. apply ret_inv in E. destruct E as [_ ->]. now repeat split.
  - rewrite <- app_assoc in H.
    destruct (clause_head c Hc) as (a & r0 & Ec & Ha).
    assert (H' : input s = a :: (r0 ++ cs ++ rest)%list) by (rewrite H, Ec; reflexivity).
    destruct (atom_under_cursor_plain s a _ Hp H' Ha) as [Hk Ht].
    rewrite (bind_Ok_eq _ _ _ _ _ (clause_cond_input _ _ _ H')) in E.
    rewrite Hk, Ht in E. cbn [negb andb] in E.
    inv_bind E u s1 Eb. destruct u.
    assert (Hne : (cs ++ rest)%list <> []).
    { destruct Hf as (t & r & -> & _). destruct cs; discriminate. }
    pose proof (clause_complete c Hc F s s1 _ H Hne Eb) as L.
    eapply left_with_trans; [exact L|].
    apply (IH F f s1 s' rest (proj2 (proj2 L)) Hf); [|exact E].
    destruct L as (_ & T & _). now rewrite T.
Qed.

Lemma program_complete w : program w ->
  forall F s s' l,
    input s = (w ++ [("EOF", "", l)])%list -> atoms_plain (tokens s) ->
    parse_program F s = Ok (tt, s') -> left_with s s' [("EOF", "", l)].
Proof.
  intros Hw F s s' l H Hp E. unfold parse_program in E.
  assert (Hstop : after_clauses [("EOF", "", l)]).
  { exists ("EOF", "", l), []. auto. }
  assert (Hend : forall s1, input s1 = [("EOF", "", l)] ->
            text_is "?-" s1 = Ok (false, s1)).
  { intros s1 H1. now rewrite (text_is_input "?-" _ _ _ H1). }
  assert (Hfirst : forall cs rest, clause_list cs -> cs <> [] ->
            input s = (cs ++ rest)%list -> text_is "?-" s = Ok (false, s)).
  { intros cs rest Hcs Hne Hi. destruct Hcs as [|c cs Hc Hcs]; [congruence|].
    destruct (clause_head c Hc) as (a & r0 & Ec & Ha).
    assert (H' : input s = a :: (r0 ++ cs ++ rest)%list).
    { rewrite Hi, Ec, <- app_assoc. reflexivity. }
    destruct (atom_under_cursor_plain s a _ Hp H' Ha) as [_ Ht].
    now rewrite (text_is_input "?-" _ _ _ H'), Ht. }
  destruct Hw as [cs Hcs|cs q Hcs Hq].
  - assert (Hno : text_is "?-" s = Ok (false, s)).
    { destruct cs as [|t cs]; [now apply Hend|].
      apply (Hfirst (t :: cs) [("EOF", "", l)]); auto. discriminate. }
    rewrite (bind_Ok_eq _ _ _ _ _ Hno) in E.
    inv_bind E u s1 El. destruct u.
    pose proof (clause_list_complete cs Hcs F F s s1 _ H Hstop Hp El) as L.
    rewrite (bind_Ok_eq _ _ _ _ _ (Hend s1 (proj2 (proj2 L)))) in E.
    apply ret_inv in E. destruct E as [_ ->]. exact L.
  - rewrite <- app_assoc in H.
    assert (Hstop' : after_clauses (q ++ [("EOF", "", l)])).
    { destruct Hq as [o body d [_ Ho] _ _]. exists o. eexists. split; [reflexivity|]. auto. }
    destruct cs as [|t cs].
    + cbn [app] in H. inversion Hq as [o body d Ho Hb Hd Eq]. subst q.
      cbn [app] in H.
      rewrite (bind_Ok_eq _ _ _ _ _ (text_is_input "?-" _ _ _ H)) in E.
      pose proof Ho as [_ Hot]. rewrite Hot in E. cbn [String.eqb Ascii.eqb Bool.eqb] in E.
      apply (query_complete _ Hq F s s' [("EOF", "", l)]); auto. discriminate.
    + rewrite (bind_Ok_eq _ _ _ _ _
                 (Hfirst (t :: cs) _ Hcs ltac:(discriminate) H)) in E.
      inv_bind E u s1 El. destruct u.
      pose proof (clause_list_complete _ Hcs F F s s1 _ H Hstop' Hp El) as L.
      eapply left_with_trans; [exact L|].
      inversion Hq as [o body d Ho Hb Hd Eq].
      assert (H1 : input s1 = o :: ((body ++ [d]) ++ [("EOF", "", l)])%list).
      { destruct L as (_ & _ & ->). rewrite <- Eq. reflexivity. }
      rewrite (bind_Ok_eq _ _ _ _ _ (text_is_input "?-" _ _ _ H1)) in E.
      pose proof Ho as [_ Hot]. rewrite Hot in E. cbn [String.eqb Ascii.eqb Bool.eqb] in E.
      apply (query_complete _ Hq F s1 s' [("EOF", "", l)]); auto.
      * destruct L as (_ & _ & ->). reflexivity.
      * discriminate.
Qed.

(** X8: a program of the grammar, followed by the EOF sentinel, is
    read to its end without an error: [parse_program] returns (with a
    fuel of twice the number of tokens) an empty error list and leaves
    the cursor on the sentinel.  The atoms must not have the text of
    the query mark [?-], which holds of every atom of the lexer. *)
Theorem program_has_no_errors (w : list Token) (l : Z) (fuel : nat) :
  program w -> atoms_plain w ->
  (2 * (length w + 1) <= fuel)%nat ->
  parse_program fuel (Parser_init (w ++ [("EOF", "", l)])) =
  Ok (tt, mkParser (w ++ [("EOF", "", l)]) (length w) []).
Proof.
  intros Hw Hp Hf. set (toks := (w ++ [("EOF", "", l)])%list).
  assert (He : ends_in_EOF toks) by now exists w, l.
  assert (Hb : in_bounds (Parser_init toks)) by now apply init_in_bounds.
  destruct (parse_program_returns fuel (Parser_init toks) He Hb) as ([] & s' & E).
  { apply remaining_bound; [|exact Hb]. cbn [tokens Parser_init]. unfold toks.
    rewrite length_app. cbn [length]. lia. }
  rewrite E. do 2 f_equal.
  assert (Hp' : atoms_plain (tokens (Parser_init toks))).
  { cbn [tokens Parser_init]. unfold toks, atoms_plain. apply Forall_app. split; [exact Hp|].
    constructor; [|constructor]. intros Ha. discriminate Ha. }
  destruct (program_complete w Hw fuel (Parser_init toks) s' l eq_refl Hp' E)
    as (Eq & T & I).
  cbn [tokens errors Parser_init] in *. unfold input in I. rewrite T in I.
  assert (Hpos : pos s' = length w).
  { pose proof (f_equal (@length Token) I) as Hl. rewrite length_skipn in Hl.
    unfold toks in Hl. rewrite length_app in Hl. cbn [length] in Hl. lia. }
  destruct s' as [tk p er]. cbn [tokens pos errors] in *. now subst.
Qed.

Lemma program_has_no_errors_witness :
  parse_program 6 (Parser_init toks_fact) = Ok (tt, mkParser toks_fact 2 []).
Proof.
  apply (program_has_no_errors [("ATOM", "a", 1%Z); ("SPECIAL", ".", 1%Z)] 1%Z 6).
  - apply program_clauses.
    apply (clause_list_cons [("ATOM", "a", 1%Z); ("SPECIAL", ".", 1%Z)] []);
      [|constructor].
    apply (clause_fact [("ATOM", "a", 1%Z)] ("SPECIAL", ".", 1%Z));
      [constructor; reflexivity | split; reflexivity].
  - repeat constructor; discriminate.
  - simpl. lia.
Defined.

(* ================================================================== *)
(** * The texts that are reported correct *)

Lemma lexes_unique content toks1 toks2 :
  lexes content toks1 -> lexes content toks2 -> toks1 = toks2.
Proof.
  intros H1 H2.
  destruct H1 as (f1 & l1 & I1 & T1). destruct H2 as (f2 & l2 & I2 & T2).
  apply (lexer_init_mono f1 (Nat.max f1 f2)) in I1; [|apply Nat.le_max_l].
  apply (lexer_init_mono f2 (Nat.max f1 f2)) in I2; [|apply Nat.le_max_r].
  congruence.
Qed.

Lemma token_ok_not_EOF t : token_ok t = true -> kind t <> "EOF".
Proof. intros H Hk. unfold token_ok in H. rewrite Hk in H. discriminate. Qed.

Lemma token_ok_atom_plain t : token_ok t = true -> is_atom t -> text t <> "?-".
Proof.
  intros H Hk Ht. unfold token_ok, is_atom in *. rewrite Hk, Ht in H. discriminate.
Qed.

Lemma lexes_atoms_plain content toks : lexes content toks -> atoms_plain toks.
Proof.
  intros H. destruct (lexes_full _ _ H) as (pre & -> & _ & Hok & _).
  unfold atoms_plain. apply Forall_app. split.
  - eapply Forall_impl; [|exact Hok]. intros t Ht. now apply token_ok_atom_plain.
  - constructor; [|constructor]. intros Ha. discriminate Ha.
Qed.

(** In the tokens of a text the one token of kind EOF is the last. *)
Lemma lexes_EOF_last content toks i t :
  lexes content toks -> nth_error toks i = Some t -> kind t = "EOF" ->
  skipn i toks = [t].
Proof.
  intros H Hn Hk. destruct (lexes_full _ _ H) as (pre & -> & _ & Hok & _).
  destruct (Nat.lt_ge_cases i (length pre)) as [Hlt|Hge].
  - rewrite nth_error_app1 in Hn by exact Hlt.
    rewrite Forall_forall in Hok. exfalso.
    apply (token_ok_not_EOF t); [|exact Hk]. apply Hok. eapply nth_error_In; eauto.
  - assert (Hi : i = length pre).
    { pose proof (proj1 (nth_error_Some _ i) ltac:(rewrite Hn; discriminate)) as Hs.
      rewrite length_app in Hs. cbn [length] in Hs. lia. }
    subst i. rewrite nth_error_app2 in Hn by lia. rewrite Nat.sub_diag in Hn.
    cbn in Hn. inversion Hn; subst t.
    rewrite skipn_app, skipn_all, Nat.sub_diag. reflexivity.
Qed.

Lemma while_exit fuel (cond : M bool) (body : M unit) :
  (forall s c s1, cond s = Ok (c, s1) -> s1 = s) ->
  forall s s', while fuel cond body s = Ok (tt, s') -> cond s' = Ok (false, s').
Proof.
  intros Hpure. induction fuel as [|fuel IH]; intros s s' E; [discriminate|].
  cbn [while] in E. inv_bind E c s1 Ec.
  pose proof (Hpure _ _ _ Ec) as ->. destruct c.
  - inv_bind E u s2 Eb. eauto.
  - apply ret_inv in E. destruct E as [_ ->]. exact Ec.
Qed.

(** A run without a new error: a clause list read up to a token of
    kind EOF, or a clause list and a query. *)
Lemma parse_program_sound_fine fuel s s' :
  ends_in_EOF (tokens s) -> in_bounds s ->
  parse_program fuel s = Ok (tt, s') -> errors s' = errors s ->
  exists w,
    input s = (w ++ input s')%list /\
    ((clause_list w /\
      exists t, nth_error (tokens s') (pos s') = Some t /\ kind t = "EOF") \/
     (exists cs q, w = (cs ++ q)%list /\ clause_list cs /\ query q)).
Proof.
  intros He Hb E Hq. unfold parse_program in E.
  inv_bind E c s1 Ec. apply text_is_inv in Ec. destruct Ec as (-> & _). destruct c.
  - destruct (parse_query_sound fuel s s' He Hb E Hq) as (q & Hq1 & I).
    exists q. split; [exact I|]. right. exists [], q. repeat split; auto. constructor.
  - inv_bind E u s1 El. destruct u.
    destruct (call_facts _ _ _ _ _ (parse_clause_list_good _ allows_any fuel) Hb El)
      as (Hb1 & T1 & L1 & Q1).
    assert (He1 : ends_in_EOF (tokens s1)) by now rewrite T1.
    pose proof (f_equal (@length string) Hq) as Hl.
    pose proof (while_exit fuel clause_cond (parse_clause fuel)
                  (fun x c x1 H => proj1 (clause_cond_inv x c x1 H)) s s1 El) as Hx.
    inv_bind E c s2 Ec. pose proof Ec as Ec'.
    apply text_is_inv in Ec. destruct Ec as (-> & tk & Hn & Hc). destruct c.
    + destruct (call_facts _ _ _ _ _ (parse_query_any_good fuel) Hb1 E)
        as (_ & _ & L2 & Q2).
      specialize (Q1 ltac:(lia)). specialize (Q2 ltac:(lia)).
      destruct (parse_clause_list_sound fuel fuel s s1 He Hb El Q1) as (cs & Hcs & I1).
      destruct (parse_query_sound fuel s1 s' He1 Hb1 E Q2) as (q & Hq1 & I2).
      exists (cs ++ q)%list. split; [rewrite I1, I2; now rewrite app_assoc|].
      right. now exists cs, q.
    + apply ret_inv in E. destruct E as [_ ->].
      destruct (parse_clause_list_sound fuel fuel s s1 He Hb El Hq) as (cs & Hcs & I1).
      exists cs. split; [exact I1|]. left. split; [exact Hcs|].
      destruct (clause_cond_inv _ _ _ Hx) as (_ & tk' & Hn' & Hv).
      rewrite Hn in Hn'. inversion Hn'; subst tk'.
      exists tk. split; [exact Hn|].
      rewrite <- Hc in Hv. cbn [negb] in Hv. rewrite andb_true_r in Hv.
      symmetry in Hv. now apply negb_false_iff, String.eqb_eq in Hv.
Qed.

(** A clause list and a query, followed by anything, are read without
    an error up to the end of the query. *)
Lemma clauses_query_complete cs q rest :
  clause_list cs -> query q -> rest <> [] ->
  forall F s s',
    input s = (cs ++ q ++ rest)%list -> atoms_plain (tokens s) ->
    parse_program F s = Ok (tt, s') -> left_with s s' rest.
Proof.
  intros Hcs Hq Hr F s s' H Hp E. unfold parse_program in E.
  inversion Hq as [o body d Ho Hb Hd Eq].
  assert (Hstop : after_clauses (q ++ rest)).
  { rewrite <- Eq. exists o. eexists. split; [reflexivity|]. right. apply Ho. }
  pose proof Ho as [_ Hot].
  destruct Hcs as [|c cs Hc Hcs].
  - cbn [app] in H.
    assert (H' : input s = o :: ((body ++ [d]) ++ rest)%list)
      by (rewrite H, <- Eq; reflexivity).
    rewrite (bind_Ok_eq _ _ _ _ _ (text_is_input "?-" _ _ _ H')) in E.
    rewrite Hot in E. cbn [String.eqb Ascii.eqb Bool.eqb] in E.
    exact (query_complete _ Hq F s s' rest H Hr E).
  - destruct (clause_head c Hc) as (a & r0 & Ec & Ha).
    assert (H' : input s = a :: (r0 ++ cs ++ q ++ rest)%list).
    { rewrite H, Ec, <- app_assoc. reflexivity. }
    destruct (atom_under_cursor_plain s a _ Hp H' Ha) as [_ Ht].
    rewrite (bind_Ok_eq _ _ _ _ _ (text_is_input "?-" _ _ _ H')) in E.
    rewrite Ht in E.
    inv_bind E u s1 El. destruct u.
    pose proof (clause_list_complete _ (clause_list_cons c cs Hc Hcs) F F s s1 _
                  H Hstop Hp El) as L.
    eapply left_with_trans; [exact L|].
    assert (H1 : input s1 = o :: ((body ++ [d]) ++ rest)%list).
    { destruct L as (_ & _ & ->). rewrite <- Eq. reflexivity. }
    rewrite (bind_Ok_eq _ _ _ _ _ (text_is_input "?-" _ _ _ H1)) in E.
    rewrite Hot in E. cbn [String.eqb Ascii.eqb Bool.eqb] in E.
    apply (query_complete _ Hq F s1 s' rest); auto.
    destruct L as (_ & _ & ->). reflexivity.
Qed.

(** The tokens of a text that is reported without an error. *)
Lemma accepted_shape (content : string) (toks : list Token) :
  lexes content toks -> check_syntax content = Ok [] ->
  exists w rest,
    toks = (w ++ rest)%list /\
    ((clause_list w /\ exists l, rest = [("EOF", "", l)]) \/
     (exists cs q, w = (cs ++ q)%list /\ clause_list cs /\ query q)).
Proof.
  intros Hl Hq.
  destruct (check_syntax_run content) as (toks' & s' & Hl' & E & Hc).
  pose proof (lexes_unique _ _ _ Hl' Hl) as ->.
  pose proof (lexes_ends_in_EOF _ _ Hl) as He.
  pose proof (init_in_bounds toks He) as Hb.
  destruct (call_facts _ _ _ _ _ (parse_program_good _ allows_any _) Hb E)
    as (Hb' & T & _).
  cbn [tokens Parser_init] in T.
  rewrite Hc in Hq. assert (Hq' : errors s' = []) by congruence.
  destruct (parse_program_sound_fine (fuel_for content) (Parser_init toks) s'
              He Hb E Hq') as (w & I & Hw).
  unfold input in I. cbn [tokens pos Parser_init skipn] in I. rewrite T in I.
  exists w, (skipn (pos s') toks). split; [exact I|].
  destruct Hw as [(Hcs & t & Hn & Hk)|Hw]; [left | right; exact Hw].
  split; [exact Hcs|]. rewrite T in Hn.
  rewrite (lexes_EOF_last _ _ _ _ Hl Hn Hk).
  destruct (lexes_full _ _ Hl) as (pre & Ht & _ & Hok & _).
  assert (Hin : In t toks) by (eapply nth_error_In; eauto).
  rewrite Ht in Hin. apply in_app_or in Hin. destruct Hin as [Hin|[<-|[]]].
  - rewrite Forall_forall in Hok. exfalso.
    exact (token_ok_not_EOF t (Hok t Hin) Hk).
  - eauto.
Qed.

(** X9: which texts are reported syntactically correct.  The error
    list of a text is empty exactly when its tokens are a clause list
    and then the EOF token, or a clause list and a query and then any
    tokens at all: what follows a query is not read. *)
Theorem syntactically_correct_iff (content : string) (toks : list Token) :
  lexes content toks ->
  (check_syntax content = Ok [] <->
   exists w rest,
     toks = (w ++ rest)%list /\
     ((clause_list w /\ exists l, rest = [("EOF", "", l)]) \/
      (exists cs q, w = (cs ++ q)%list /\ clause_list cs /\ query q))).
Proof.
  intros Hl. split; [now apply accepted_shape|].
  destruct (check_syntax_run content) as (toks' & s' & Hl' & E & Hc).
  pose proof (lexes_unique _ _ _ Hl' Hl) as ->.
  pose proof (lexes_ends_in_EOF _ _ Hl) as He.
  pose proof (lexes_atoms_plain _ _ Hl) as Hp.
  rewrite Hc. intros (w & rest & Ht & Hw). f_equal.
  destruct Hw as [(Hcs & l & ->)|(cs & q & -> & Hcs & Hq)].
  - destruct (program_complete w (program_clauses w Hcs) (fuel_for content)
                (Parser_init toks) s' l Ht Hp E) as (Eq & _).
    exact Eq.
  - assert (Hr : rest <> []).
    { intros ->. rewrite app_nil_r in Ht.
      destruct He as (pre & l & He). rewrite He in Ht.
      inversion Hq as [o body d Ho Hbd Hd Eq]. subst q.
      change (o :: body ++ [d])%list with ((o :: body) ++ [d])%list in Ht.
      rewrite app_assoc in Ht. apply app_inj_tail in Ht. destruct Ht as [_ <-].
      destruct Hd as [Hd _]. discriminate Hd. }
    assert (Hi : input (Parser_init toks) = (cs ++ q ++ rest)%list).
    { unfold input. cbn [tokens pos Parser_init skipn]. now rewrite Ht, <- app_assoc. }
    destruct (clauses_query_complete cs q rest Hcs Hq Hr (fuel_for content)
                (Parser_init toks) s' Hi Hp E) as (Eq & _).
    exact Eq.
Qed.

Lemma syntactically_correct_iff_witness :
  check_syntax "a. ?- b. c(" = Ok [].
Proof.
  apply (syntactically_correct_iff "a. ?- b. c("
           [("ATOM", "a", 1%Z); ("SPECIAL", ".", 1%Z); ("SPECIAL", "?-", 1%Z);
            ("ATOM", "b", 1%Z); ("SPECIAL", ".", 1%Z); ("ATOM", "c", 1%Z);
            ("SPECIAL", "(", 1%Z); ("EOF", "", 1%Z)]).
  - exists 20%nat. eexists. split; [vm_compute; reflexivity | reflexivity].
  - exists [("ATOM", "a", 1%Z); ("SPECIAL", ".", 1%Z); ("SPECIAL", "?-", 1%Z);
            ("ATOM", "b", 1%Z); ("SPECIAL", ".", 1%Z)],
           [("ATOM", "c", 1%Z); ("SPECIAL", "(", 1%Z); ("EOF", "", 1%Z)].
    split; [reflexivity|]. right.
    exists [("ATOM", "a", 1%Z); ("SPECIAL", ".", 1%Z)],
           [("SPECIAL", "?-", 1%Z); ("ATOM", "b", 1%Z); ("SPECIAL", ".", 1%Z)].
    split; [reflexivity|]. split.
    + apply (clause_list_cons [("ATOM", "a", 1%Z); ("SPECIAL", ".", 1%Z)] []);
        [|constructor].
      apply (clause_fact [("ATOM", "a", 1%Z)] ("SPECIAL", ".", 1%Z));
        [constructor; reflexivity | split; reflexivity].
    + apply (query_intro ("SPECIAL", "?-", 1%Z) [("ATOM", "b", 1%Z)] ("SPECIAL", ".", 1%Z));
        [split; reflexivity | | split; reflexivity].
      apply predicate_list_one. constructor. reflexivity.
Defined.

(* ================================================================== *)
(** * Texts without a query *)

(** X13: a text without a query mark is read to its end.  When no
    token of the text has the text [?-], [parse_program] returns with
    the cursor on the last token, the EOF token: every token has been
    examined. *)
Theorem text_without_query_consumed (content : string) (toks : list Token) :
  lexes content toks ->
  (forall t, In t toks -> text t <> "?-") ->
  exists s',
    parse_program (fuel_for content) (Parser_init toks) = Ok (tt, s') /\
    tokens s' = toks /\
    pos s' = (length toks - 1)%nat /\
    exists l, nth_error toks (pos s') = Some ("EOF", "", l).
Proof.
  intros Hl Hnq.
  destruct (lexer_init_spec content (String.length content) (le_n _))
    as (lexer & pre & Hi & Ht & HF & Hlen).
  assert (Hl' : lexes content (Lexer.get_tokens lexer)) by (eexists _, _; eauto).
  pose proof (lexes_unique _ _ _ Hl' Hl) as E. rewrite Ht in E. subst toks.
  assert (He : ends_in_EOF (pre ++ [("EOF", "", (1 + count_newlines content)%Z)]))
    by (eexists _, _; reflexivity).
  assert (Hf : (2 * length (pre ++ [("EOF", "", (1 + count_newlines content)%Z)])
                <= fuel_for content)%nat).
  { rewrite length_app. cbn [length]. unfold fuel_for. lia. }
  destruct (parse_program_cursor _ _ He Hf) as (s' & E & T & _ & Hq & _).
  destruct (Hq Hnq) as [_ Hp].
  assert (P : pos s' = (length (pre ++ [("EOF", "", (1 + count_newlines content)%Z)]) - 1)%nat).
  { apply Hp. intros i t Hn Hk. rewrite length_app. cbn [length].
    destruct (Nat.lt_ge_cases i (length pre)) as [Hlt|Hge].
    - rewrite nth_error_app1 in Hn by exact Hlt.
      rewrite Forall_forall in HF. destruct (HF t (nth_error_In _ _ Hn)) as [Hs _].
      exfalso. exact (scanned_kind_not_EOF _ Hs Hk).
    - rewrite nth_error_app2 in Hn by exact Hge.
      destruct (i - length pre)%nat as [|k] eqn:Ek; [lia|].
      destruct k; discriminate Hn. }
  exists s'. split; [exact E|]. split; [exact T|]. split; [exact P|].
  exists (1 + count_newlines content)%Z. rewrite P, length_app. cbn [length].
  rewrite nth_error_app2 by lia.
  replace (length pre + 1 - 1 - length pre)%nat with 0%nat by lia. reflexivity.
Qed.

Lemma text_without_query_consumed_witness :
  exists s',
    parse_program (fuel_for "a(b).") (Parser_init toks_arguments) = Ok (tt, s') /\
    tokens s' = toks_arguments /\
    pos s' = (length toks_arguments - 1)%nat /\
    exists l, nth_error toks_arguments (pos s') = Some ("EOF", "", l).
Proof.
  apply (text_without_query_consumed "a(b)." toks_arguments).
  - exists 5%nat. eexists. split; [vm_compute; reflexivity | reflexivity].
  - intros t Hin. repeat (destruct Hin as [<-|Hin]; [discriminate|]). destruct Hin.
Defined.

(* ================================================================== *)
(** * The report of [main] *)










(* ================================================================== *)
(** * Stray characters *)

Lemma special_grammar_kind v t : is_special v t -> grammar_kind t.
Proof. intros [H _]. unfold grammar_kind. tauto. Qed.

Lemma atom_grammar_kind t : is_atom t -> grammar_kind t.
Proof. unfold is_atom, grammar_kind. tauto. Qed.

Lemma term_kinds :
  (forall w, term w -> Forall grammar_kind w) /\
  (forall ws, term_list ws -> Forall grammar_kind ws).
Proof.
  apply term_and_list_min.
  - intros a Ha. constructor; [now apply atom_grammar_kind | constructor].
  - intros a l args r Ha Hl _ IH Hr.
    constructor; [now apply atom_grammar_kind|].
    constructor; [now apply (special_grammar_kind "(")|].
    apply Forall_app. split; [exact IH|].
    constructor; [now apply (special_grammar_kind ")") | constructor].
  - intros x Hx. constructor; [unfold grammar_kind; tauto | constructor].
  - intros x Hx. constructor; [unfold grammar_kind; tauto | constructor].
  - auto.
  - intros w c ws _ IHw Hc _ IHws. apply Forall_app. split; [exact IHw|].
    constructor; [now apply (special_grammar_kind ",") | exact IHws].
Qed.

Lemma predicate_kinds p : predicate p -> Forall grammar_kind p.
Proof.
  intros [a Ha|a l args r Ha Hl Hargs Hr].
  - constructor; [now apply atom_grammar_kind | constructor].
  - constructor; [now apply atom_grammar_kind|].
    constructor; [now apply (special_grammar_kind "(")|].
    apply Forall_app. split; [now apply term_kinds|].
    constructor; [now apply (special_grammar_kind ")") | constructor].
Qed.

Lemma predicate_list_kinds ps : predicate_list ps -> Forall grammar_kind ps.
Proof.
  induction 1 as [p Hp|p c ps Hp Hc _ IH]; [now apply predicate_kinds|].
  apply Forall_app. split; [now apply predicate_kinds|].
  constructor; [now apply (special_grammar_kind ",") | exact IH].
Qed.

Lemma clause_kinds c : clause c -> Forall grammar_kind c.
Proof.
  intros [p d Hp Hd|p i body d Hp Hi Hb Hd].
  - apply Forall_app. split; [now apply predicate_kinds|].
    constructor; [now apply (special_grammar_kind ".") | constructor].
  - apply Forall_app. split; [now apply predicate_kinds|].
    constructor; [now apply (special_grammar_kind ":-")|].
    apply Forall_app. split; [now apply predicate_list_kinds|].
    constructor; [now apply (special_grammar_kind ".") | constructor].
Qed.

Lemma clause_list_kinds cs : clause_list cs -> Forall grammar_kind cs.
Proof.
  induction 1 as [|c cs Hc _ IH]; [constructor|].
  apply Forall_app. split; [now apply clause_kinds | exact IH].
Qed.

Lemma error_not_grammar_kind t : kind t = "ERROR" -> ~ grammar_kind t.
Proof.
  intros Hk [H|[H|[H|H]]]; rewrite Hk in H; discriminate.
Qed.

(** X12: a stray character is reported.  When the tokens of a text
    hold an ERROR token and no token before it has the text [?-], the
    error list of the text is not empty.  (After a query mark it can
    go unseen, as what follows a query is not read.) *)
Theorem stray_character_reported (content : string) (toks : list Token)
    (i : nat) (t : Token) :
  lexes content toks ->
  nth_error toks i = Some t -> kind t = "ERROR" ->
  (forall j tq, (j < i)%nat -> nth_error toks j = Some tq -> text tq <> "?-") ->
  check_syntax content <> Ok [].
Proof.
  intros Hl Hn Hk Hno Hacc.
  apply (accepted_shape content toks Hl) in Hacc.
  destruct Hacc as (w & rest & Ht & [(Hcs & l & ->)|(cs & q & -> & Hcs & Hq)]).
  - pose proof (clause_list_kinds w Hcs) as Hw. rewrite Ht in Hn.
    destruct (Nat.lt_ge_cases i (length w)) as [Hlt|Hge].
    + rewrite nth_error_app1 in Hn by exact Hlt.
      rewrite Forall_forall in Hw.
      apply (error_not_grammar_kind t Hk). apply Hw. eapply nth_error_In; eauto.
    + rewrite nth_error_app2 in Hn by exact Hge.
      destruct (i - length w)%nat as [|k]; cbn in Hn.
      * inversion Hn; subst t. discriminate Hk.
      * destruct k; discriminate Hn.
  - pose proof (clause_list_kinds cs Hcs) as Hw.
    destruct Hq as [o body d Ho Hb Hd]. rewrite <- app_assoc in Ht.
    assert (Hj : nth_error toks (length cs) = Some o).
    { rewrite Ht, nth_error_app2, Nat.sub_diag by lia. reflexivity. }
    destruct (Nat.lt_trichotomy i (length cs)) as [Hlt|[Heq|Hgt]].
    + rewrite Ht, nth_error_app1 in Hn by exact Hlt.
      rewrite Forall_forall in Hw.
      apply (error_not_grammar_kind t Hk). apply Hw. eapply nth_error_In; eauto.
    + subst i. rewrite Hj in Hn. inversion Hn; subst t.
      destruct Ho as [Ho _]. rewrite Ho in Hk. discriminate Hk.
    + apply (Hno (length cs) o Hgt Hj). apply Ho.
Qed.

Lemma stray_character_reported_witness :
  check_syntax text_stray <> Ok [].
Proof.
  apply (stray_character_reported text_stray toks_stray 1 ("ERROR", "#", 1%Z)).
  - exists 10%nat. eexists. split; [vm_compute; reflexivity | reflexivity].
  - reflexivity.
  - reflexivity.
  - intros j tq Hj Hn.
    destruct j as [|j]; [cbn in Hn; inversion Hn; subst tq; discriminate | lia].
Defined.

(* ================================================================== *)
(** * The methods on the objects and on the state

    The methods of [Heap] work on the objects of the interpreter; the
    methods above work on the state of one parser and of one lexer.
    When the object at [self] holds that state, the two do the same:
    they end the same way, they return the same value, the object
    holds the new state afterwards, and no other object is changed. *)

Lemma update_length objs : forall l o, length (Heap.update objs l o) = length objs.
Proof.
  induction objs as [|x objs IH]; intros [|l] o; cbn; auto.
Qed.

Lemma update_same objs : forall l o,
  (l < length objs)%nat -> nth_error (Heap.update objs l o) l = Some o.
Proof.
  induction objs as [|x objs IH]; intros [|l] o Hl; cbn in *; try lia; auto.
  apply IH. lia.
Qed.

Lemma update_other objs : forall l l' o,
  l <> l' -> nth_error (Heap.update objs l o) l' = nth_error objs l'.
Proof.
  induction objs as [|x objs IH]; intros [|l] [|l'] o Hne; cbn; auto; try congruence.
Qed.

Lemma kept_refl a b w : kept a b w w.
Proof. repeat split; auto. Qed.

Lemma kept_trans a b w1 w2 w3 : kept a b w1 w2 -> kept a b w2 w3 -> kept a b w1 w3.
Proof.
  intros (D1 & L1 & K1) (D2 & L2 & K2). repeat split; try congruence.
  intros l Ha Hb. rewrite K2, K1; auto.
Qed.

Section Simulation.
Variables self tl el : Heap.loc.


Lemma rep_distinct w s : rep self tl el w s -> self <> tl /\ self <> el /\ tl <> el.
Proof.
  intros (H1 & H2 & H3). repeat split; intros E; subst; congruence.
Qed.

Lemma sim_ret {A} (a : A) : sim self tl el (Heap.ret a) (ret a).
Proof.
  intros w s Hr. cbn. exists w. repeat split; auto; apply Hr.
Qed.

Lemma sim_bind {A B} (hm : Heap.H A) (m : M A) (hk : A -> Heap.H B) (k : A -> M B) :
  sim self tl el hm m -> (forall a, sim self tl el (hk a) (k a)) -> sim self tl el (Heap.bind hm hk) (bind m k).
Proof.
  intros Hm Hk w s Hr. specialize (Hm w s Hr). unfold bind, Heap.bind.
  destruct (m s) as [[a s1]| |].
  - destruct Hm as (w1 & -> & Hr1 & K1). specialize (Hk a w1 s1 Hr1).
    destruct (k a s1) as [[b s2]| |]; auto.
    destruct Hk as (w2 & E2 & Hr2 & K2). exists w2.
    split; [exact E2|]. split; [exact Hr2|]. eapply kept_trans; eauto.
  - now rewrite Hm.
  - now rewrite Hm.
Qed.

Lemma sim_while fuel (hc : Heap.H bool) (c : M bool) (hb : Heap.H unit) (b : M unit) :
  sim self tl el hc c -> sim self tl el hb b -> sim self tl el (Heap.while fuel hc hb) (while fuel c b).
Proof.
  intros Hc Hb. induction fuel as [|fuel IH].
  - intros w s Hr. reflexivity.
  - cbn [while Heap.while]. apply sim_bind; [exact Hc|].
    intros [|]; [|apply sim_ret]. apply sim_bind; [exact Hb|]. intros _. exact IH.
Qed.

(** What the attributes of the parser are in a state that represents
    [s]. *)
Lemma parser_tokens_rep w s : rep self tl el w s -> Heap.parser_tokens self w = Returns (tl, w).
Proof. intros (H1 & _). unfold Heap.parser_tokens, Heap.bind, Heap.load. now rewrite H1. Qed.

Lemma parser_pos_rep w s : rep self tl el w s -> Heap.parser_pos self w = Returns (pos s, w).
Proof. intros (H1 & _). unfold Heap.parser_pos, Heap.bind, Heap.load. now rewrite H1. Qed.

Lemma parser_errors_rep w s : rep self tl el w s -> Heap.parser_errors self w = Returns (el, w).
Proof. intros (H1 & _). unfold Heap.parser_errors, Heap.bind, Heap.load. now rewrite H1. Qed.

Lemma token_items_rep w s : rep self tl el w s -> Heap.token_items tl w = Returns (tokens s, w).
Proof. intros (_ & H2 & _). unfold Heap.token_items, Heap.bind, Heap.load. now rewrite H2. Qed.

Lemma string_items_rep w s : rep self tl el w s -> Heap.string_items el w = Returns (errors s, w).
Proof. intros (_ & _ & H3). unfold Heap.string_items, Heap.bind, Heap.load. now rewrite H3. Qed.

Lemma sim_current_token : sim self tl el (Heap.current_token self) current_token.
Proof.
  intros w s Hr. unfold Heap.current_token, Heap.bind, current_token.
  rewrite (parser_tokens_rep w s Hr), (parser_pos_rep w s Hr), (token_items_rep w s Hr).
  destruct (nth_error (tokens s) (pos s)); [|reflexivity].
  exists w. repeat split; auto; apply Hr.
Qed.

Lemma sim_advance : sim self tl el (Heap.advance self) advance.
Proof.
  intros w s Hr. unfold Heap.advance, Heap.bind, advance.
  rewrite (parser_pos_rep w s Hr), (parser_tokens_rep w s Hr), (token_items_rep w s Hr).
  destruct (rep_distinct w s Hr) as (N1 & N2 & N3).
  destruct (Z.of_nat (pos s) <? Z.of_nat (length (tokens s)) - 1)%Z.
  - unfold Heap.parser_next_pos, Heap.bind, Heap.load, Heap.store.
    destruct Hr as (H1 & H2 & H3). rewrite H1.
    assert (Hl : (self < length (Heap.objects w))%nat)
      by (apply nth_error_Some; congruence).
    eexists. split; [reflexivity|]. split.
    + unfold rep. cbn [Heap.objects pos tokens errors].
      rewrite update_same by exact Hl. rewrite !update_other by auto. auto.
    + unfold kept. cbn [Heap.objects Heap.DEBUG]. rewrite update_length.
      repeat split; auto. intros l Ha Hb. apply update_other. auto.
  - exists w. split; [reflexivity|]. split; [exact Hr | apply kept_refl].
Qed.

Lemma sim_error message l : sim self tl el (Heap.error self message l) (error message l).
Proof.
  intros w s Hr. unfold Heap.error, Heap.append_string, Heap.bind, error.
  rewrite (parser_errors_rep w s Hr), (string_items_rep w s Hr).
  destruct (rep_distinct w s Hr) as (N1 & N2 & N3).
  destruct Hr as (H1 & H2 & H3).
  assert (Hl : (el < length (Heap.objects w))%nat)
    by (apply nth_error_Some; congruence).
  unfold Heap.store. eexists. split; [reflexivity|]. split.
  - unfold rep. cbn [Heap.objects pos tokens errors].
    rewrite update_same by exact Hl. rewrite !update_other by auto. auto.
  - unfold kept. cbn [Heap.objects Heap.DEBUG]. rewrite update_length.
    repeat split; auto. intros l' Ha Hb. apply update_other. auto.
Qed.

(** Whatever the flag is, the parser is as before: [print] touches no
    object. *)
Lemma sim_debug token :
  sim self tl el (Heap.bind Heap.global_DEBUG
         (fun debug => if (debug : bool) then Heap.print_matched token else Heap.ret tt))
      (if DEBUG then print_matched token else ret tt).
Proof.
  intros w s Hr. cbn. unfold Heap.bind, Heap.global_DEBUG.
  destruct (Heap.DEBUG w) eqn:E.
  - unfold Heap.print_matched. eexists. split; [reflexivity|].
    split; [exact Hr|]. unfold kept. cbn. auto.
  - exists w. split; [reflexivity|]. split; [exact Hr | apply kept_refl].
Qed.


Lemma sim_match k v : sim self tl el (Heap.match_ self k v) (match_ k v).
Proof.
  unfold Heap.match_, match_. apply sim_bind; [apply sim_current_token|].
  intros token. destruct (_ && _).
  - apply sim_bind; [apply sim_debug|]. intros _.
    apply sim_bind; [apply sim_advance|]. intros _. apply sim_ret.
  - apply sim_bind; [apply sim_error|]. intros _. apply sim_ret.
Qed.

Lemma sim_text_is v : sim self tl el (Heap.text_is self v) (text_is v).
Proof.
  unfold Heap.text_is, text_is. apply sim_bind; [apply sim_current_token|].
  intros token. apply sim_ret.
Qed.

Lemma sim_kind_is k : sim self tl el (Heap.kind_is self k) (kind_is k).
Proof.
  unfold Heap.kind_is, kind_is. apply sim_bind; [apply sim_current_token|].
  intros token. apply sim_ret.
Qed.

Lemma sim_current_line : sim self tl el (Heap.current_line self) current_line.
Proof.
  unfold Heap.current_line, current_line. apply sim_bind; [apply sim_current_token|].
  intros token. apply sim_ret.
Qed.

End Simulation.

(** One step of a proof that a method on the object does what the
    method on the state does: the two are built alike. *)
Ltac sim_step :=
  first
    [ assumption
    | apply sim_ret
    | apply sim_match
    | apply sim_text_is
    | apply sim_kind_is
    | apply sim_current_line
    | apply sim_current_token
    | apply sim_advance
    | apply sim_error
    | apply sim_while
    | apply sim_bind; [|intros ?]
    | match goal with
      | |- sim _ _ _ (if ?c then _ else _) _ => destruct c
      end ].

Section Procedures.
Variables self tl el : Heap.loc.

Lemma sim_parse_atom : sim self tl el (Heap.parse_atom self) parse_atom.
Proof. unfold Heap.parse_atom, parse_atom. repeat sim_step. Qed.

Lemma sim_parse_term fuel :
  sim self tl el (Heap.parse_term fuel self) (parse_term fuel) /\
  sim self tl el (Heap.parse_term_list fuel self) (parse_term_list fuel).
Proof.
  pose proof sim_parse_atom as Ha.
  induction fuel as [|fuel [IHt IHl]].
  - split; intros w s Hr; reflexivity.
  - split.
    + cbn [Heap.parse_term parse_term]. repeat sim_step.
    + cbn [Heap.parse_term_list parse_term_list]. repeat sim_step.
Qed.

Lemma sim_parse_predicate fuel :
  sim self tl el (Heap.parse_predicate fuel self) (parse_predicate fuel).
Proof.
  pose proof sim_parse_atom as Ha. pose proof (proj2 (sim_parse_term fuel)) as Hl.
  unfold Heap.parse_predicate, parse_predicate. repeat sim_step.
Qed.

Lemma sim_parse_predicate_list fuel :
  sim self tl el (Heap.parse_predicate_list fuel self) (parse_predicate_list fuel).
Proof.
  pose proof (sim_parse_predicate fuel) as Hp.
  unfold Heap.parse_predicate_list, parse_predicate_list. repeat sim_step.
Qed.

Lemma sim_parse_query fuel :
  sim self tl el (Heap.parse_query fuel self) (parse_query fuel).
Proof.
  pose proof (sim_parse_predicate_list fuel) as Hp.
  unfold Heap.parse_query, parse_query. repeat sim_step.
Qed.

Lemma sim_parse_clause fuel :
  sim self tl el (Heap.parse_clause fuel self) (parse_clause fuel).
Proof.
  pose proof (sim_parse_predicate fuel) as Hp.
  pose proof (sim_parse_predicate_list fuel) as Hl.
  unfold Heap.parse_clause, parse_clause. repeat sim_step.
Qed.

Lemma sim_clause_cond : sim self tl el (Heap.clause_cond self) clause_cond.
Proof. unfold Heap.clause_cond, clause_cond. repeat sim_step. Qed.

Lemma sim_parse_clause_list fuel :
  sim self tl el (Heap.parse_clause_list fuel self) (parse_clause_list fuel).
Proof.
  pose proof (sim_parse_clause fuel) as Hc. pose proof sim_clause_cond as Hd.
  unfold Heap.parse_clause_list, parse_clause_list. repeat sim_step.
Qed.

Lemma sim_parse_program fuel :
  sim self tl el (Heap.parse_program fuel self) (parse_program fuel).
Proof.
  pose proof (sim_parse_clause_list fuel) as Hc. pose proof (sim_parse_query fuel) as Hq.
  unfold Heap.parse_program, parse_program. repeat sim_step.
Qed.

End Procedures.

Lemma string_from_length text : forall pos,
  String.length (Heap.string_from pos text) = (String.length text - pos)%nat.
Proof.
  induction text as [|c r IH]; intros [|pos]; cbn; auto.
Qed.

Lemma string_from_app v r : Heap.string_from (String.length v) (v ++ r) = r.
Proof. induction v as [|c v IH]; cbn; auto. Qed.

Lemma string_from_add text : forall n m,
  Heap.string_from (n + m) text = Heap.string_from m (Heap.string_from n text).
Proof.
  induction text as [|c r IH]; intros [|n] m; cbn; auto.
  destruct m; reflexivity.
Qed.

Section LexerSimulation.
Variables self tl : Heap.loc.

Lemma rep_lexer_attrs w st :
  rep_lexer self tl w st ->
  Heap.lexer_text self w = Returns (Lexer.text st, w) /\
  Heap.lexer_tokens self w = Returns (tl, w) /\
  Heap.lexer_line self w = Returns (Lexer.line st, w) /\
  Heap.token_items tl w = Returns (Lexer.tokens st, w) /\
  self <> tl /\
  (self < length (Heap.objects w))%nat /\ (tl < length (Heap.objects w))%nat.
Proof.
  intros (H1 & H2).
  unfold Heap.lexer_text, Heap.lexer_tokens, Heap.lexer_line, Heap.token_items,
    Heap.bind, Heap.load.
  rewrite H1, H2. repeat split; auto.
  - intros E. subst. congruence.
  - apply nth_error_Some. congruence.
  - apply nth_error_Some. congruence.
Qed.

(** [self.tokens.append(token)] on the lexer. *)
Lemma lexer_append w st token :
  rep_lexer self tl w st ->
  exists w',
    Heap.append_token tl token w = Returns (tt, w') /\
    rep_lexer self tl w'
      (Lexer.mk (Lexer.text st) (Lexer.tokens st ++ [token]) (Lexer.line st)) /\
    kept self tl w w'.
Proof.
  intros Hr. destruct (rep_lexer_attrs w st Hr) as (_ & _ & _ & Hi & Hne & Hs & Ht).
  unfold Heap.append_token, Heap.bind. rewrite Hi. unfold Heap.store.
  eexists. split; [reflexivity|]. destruct Hr as (H1 & H2). split.
  - unfold rep_lexer. cbn [Heap.objects Lexer.text Lexer.tokens Lexer.line].
    rewrite update_same by exact Ht. rewrite update_other by auto. auto.
  - unfold kept. cbn [Heap.objects Heap.DEBUG]. rewrite update_length.
    repeat split; auto. intros l Ha Hb. apply update_other. auto.
Qed.

(** [self.line += 1] on the lexer. *)
Lemma lexer_next_line_rep w st :
  rep_lexer self tl w st ->
  exists w',
    Heap.lexer_next_line self w = Returns (tt, w') /\
    rep_lexer self tl w'
      (Lexer.mk (Lexer.text st) (Lexer.tokens st) (Lexer.line st + 1)) /\
    kept self tl w w'.
Proof.
  intros Hr. destruct (rep_lexer_attrs w st Hr) as (_ & _ & _ & _ & Hne & Hs & Ht).
  destruct Hr as (H1 & H2).
  unfold Heap.lexer_next_line, Heap.bind, Heap.load. rewrite H1. unfold Heap.store.
  eexists. split; [reflexivity|]. split.
  - unfold rep_lexer. cbn [Heap.objects Lexer.text Lexer.tokens Lexer.line].
    rewrite update_same by exact Hs. rewrite update_other by auto. auto.
  - unfold kept. cbn [Heap.objects Heap.DEBUG]. rewrite update_length.
    repeat split; auto. intros l Ha Hb. apply update_other. auto.
Qed.

Lemma heap_tokenize_loop_end fuel pos w st :
  rep_lexer self tl w st ->
  (pos <? String.length (Lexer.text st))%nat = false ->
  Lexer.tokenize_loop fuel (Heap.string_from pos (Lexer.text st)) st = Some st /\
  Heap.tokenize_loop fuel pos self w = Returns (tt, w).
Proof.
  intros Hr Hp. destruct (rep_lexer_attrs w st Hr) as (Ht & _).
  assert (E : Heap.string_from pos (Lexer.text st) = "").
  { pose proof (string_from_length (Lexer.text st) pos) as Hl.
    apply Nat.ltb_ge in Hp.
    destruct (Heap.string_from pos (Lexer.text st)); [reflexivity | cbn in Hl; lia]. }
  rewrite E. split; [destruct fuel; reflexivity|].
  destruct fuel; cbn [Heap.tokenize_loop]; unfold Heap.bind; rewrite Ht, Hp; reflexivity.
Qed.

Lemma string_from_inside pos text :
  (pos <? String.length text)%nat = true ->
  exists c r, Heap.string_from pos text = String c r.
Proof.
  intros Hp. pose proof (string_from_length text pos) as Hl. apply Nat.ltb_lt in Hp.
  destruct (Heap.string_from pos text); [cbn in Hl; lia | eauto].
Qed.

Lemma heap_tokenize_loop_step fuel pos w st k v rest' :
  rep_lexer self tl w st ->
  (pos <? String.length (Lexer.text st))%nat = true ->
  Lexer.get_token (Heap.string_from pos (Lexer.text st)) = Some (k, v, rest') ->
  Heap.tokenize_loop (S fuel) pos self w =
  Heap.bind (Heap.tokenize_branch self k v)
    (fun _ => Heap.tokenize_loop fuel (pos + String.length v) self) w.
Proof.
  intros Hr Hp Hg. destruct (rep_lexer_attrs w st Hr) as (Ht & _).
  cbn [Heap.tokenize_loop]. unfold Heap.bind at 1. rewrite Ht, Hp.
  unfold Heap.bind at 1. rewrite Ht, Hg. reflexivity.
Qed.

(** One turn of the loop on the object and on the state. *)
Lemma tokenize_branch_rep w st k v :
  rep_lexer self tl w st ->
  exists w',
    Heap.tokenize_branch self k v w = Returns (tt, w') /\
    rep_lexer self tl w'
      (if k =? "NEWLINE" then
         Lexer.mk (Lexer.text st) (Lexer.tokens st) (Lexer.line st + 1)
       else if k =? "SKIP" then st
       else if k =? "MISMATCH" then
         Lexer.mk (Lexer.text st) (Lexer.tokens st ++ [("ERROR", v, Lexer.line st)])
           (Lexer.line st)
       else
         Lexer.mk (Lexer.text st) (Lexer.tokens st ++ [(k, v, Lexer.line st)])
           (Lexer.line st)) /\
    kept self tl w w'.
Proof.
  intros Hr. destruct (rep_lexer_attrs w st Hr) as (_ & Hk & Hli & _).
  unfold Heap.tokenize_branch.
  destruct (k =? "NEWLINE"); [now apply lexer_next_line_rep|].
  destruct (k =? "SKIP").
  { exists w. split; [reflexivity|]. split; [exact Hr | apply kept_refl]. }
  destruct (k =? "MISMATCH"); unfold Heap.bind; rewrite Hk, Hli; now apply lexer_append.
Qed.

(** The loop of [tokenize] on the object, with the local variable
    [pos], does what the loop on the state does with the text from
    [pos] on. *)
Lemma sim_tokenize_loop fuel : forall pos w st,
  rep_lexer self tl w st ->
  match Lexer.tokenize_loop fuel (Heap.string_from pos (Lexer.text st)) st with
  | Some st' =>
      exists w',
        Heap.tokenize_loop fuel pos self w = Returns (tt, w') /\
        rep_lexer self tl w' st' /\ kept self tl w w'
  | None => Heap.tokenize_loop fuel pos self w = Unfinished
  end.
Proof.
  induction fuel as [|fuel IH]; intros pos w st Hr;
    destruct (pos <? String.length (Lexer.text st))%nat eqn:Hp.
  - destruct (string_from_inside _ _ Hp) as (c & r & E). rewrite E.
    destruct (rep_lexer_attrs w st Hr) as (Ht & _).
    cbn [Lexer.tokenize_loop Heap.tokenize_loop]. unfold Heap.bind. now rewrite Ht, Hp.
  - destruct (heap_tokenize_loop_end 0 pos w st Hr Hp) as [-> ->].
    exists w. split; [reflexivity|]. split; [exact Hr | apply kept_refl].
  - destruct (string_from_inside _ _ Hp) as (c & r & E).
    destruct (Lexer.get_token (String c r)) as [[[k v] rest']|] eqn:Hg;
      [|exfalso; exact (get_token_total _ _ Hg)].
    destruct (get_token_full _ _ _ _ _ Hg) as [Hsplit _].
    rewrite <- E in Hg. rewrite (heap_tokenize_loop_step fuel pos w st k v rest' Hr Hp Hg).
    rewrite E in Hg |- *. cbn [Lexer.tokenize_loop]. rewrite Hg.
    destruct (tokenize_branch_rep w st k v Hr) as (w1 & E1 & Hr1 & K1).
    unfold Heap.bind. rewrite E1.
    set (st1 := if k =? "NEWLINE" then _ else _) in *.
    assert (Et : Lexer.text st1 = Lexer.text st).
    { subst st1. destruct (k =? "NEWLINE"); [reflexivity|].
      destruct (k =? "SKIP"); [reflexivity|]. destruct (k =? "MISMATCH"); reflexivity. }
    specialize (IH (pos + String.length v)%nat w1 st1 Hr1).
    rewrite Et, string_from_add, E, Hsplit, string_from_app in IH.
    destruct (Lexer.tokenize_loop fuel rest' st1); [|exact IH].
    destruct IH as (w' & E' & Hr' & K'). exists w'.
    split; [exact E'|]. split; [exact Hr'|]. eapply kept_trans; eauto.
  - destruct (heap_tokenize_loop_end (S fuel) pos w st Hr Hp) as [-> ->].
    exists w. split; [reflexivity|]. split; [exact Hr | apply kept_refl].
Qed.

End LexerSimulation.

(** [Lexer(text)] on the objects and on the state: two new objects, the
    lexer and its token list, and no other object changed. *)
Lemma sim_Lexer_init fuel content w :
  match Lexer.init fuel content with
  | Some lexer =>
      exists w',
        Heap.Lexer_init fuel content w =
          Returns (S (length (Heap.objects w)), w') /\
        rep_lexer (S (length (Heap.objects w))) (length (Heap.objects w)) w' lexer /\
        Heap.DEBUG w' = Heap.DEBUG w /\
        length (Heap.objects w') = (length (Heap.objects w) + 2)%nat /\
        forall l, (l < length (Heap.objects w))%nat ->
          nth_error (Heap.objects w') l = nth_error (Heap.objects w) l
  | None => Heap.Lexer_init fuel content w = Unfinished
  end.
Proof.
  set (tl := length (Heap.objects w)). set (self := S tl).
  set (w2 := Heap.mkWorld (Heap.DEBUG w)
               ((Heap.objects w ++ [Heap.TokenList []]) ++
                [Heap.LexerObject content tl 1]) (Heap.printed w)).
  assert (Hr : rep_lexer self tl w2 (Lexer.mk content [] 1)).
  { unfold rep_lexer, w2, self, tl. cbn [Heap.objects Lexer.text Lexer.tokens Lexer.line].
    split.
    - rewrite nth_error_app2; rewrite length_app; cbn [length]; [|lia].
      replace (S (length (Heap.objects w)) - (length (Heap.objects w) + 1))%nat
        with 0%nat by lia. reflexivity.
    - rewrite nth_error_app1 by (rewrite length_app; cbn [length]; lia).
      rewrite nth_error_app2 by lia. now rewrite Nat.sub_diag. }
  assert (Hold : forall l, (l < tl)%nat ->
            nth_error (Heap.objects w2) l = nth_error (Heap.objects w) l).
  { intros l Hl. unfold w2. cbn [Heap.objects].
    rewrite <- app_assoc. now apply nth_error_app1. }
  assert (Hlen : length (Heap.objects w2) = (tl + 2)%nat).
  { unfold w2, tl. cbn [Heap.objects]. rewrite !length_app. cbn [length]. lia. }
  assert (Hrun : Heap.Lexer_init fuel content w =
                 Heap.bind (Heap.tokenize fuel self) (fun _ => Heap.ret self) w2).
  { unfold Heap.Lexer_init, Heap.bind at 1 2, Heap.new. cbn [Heap.objects Heap.DEBUG Heap.printed].
    unfold self, tl, w2. rewrite length_app. cbn [length].
    replace (length (Heap.objects w) + 1)%nat with (S (length (Heap.objects w))) by lia.
    reflexivity. }
  rewrite Hrun. unfold Lexer.init, Lexer.tokenize. cbn [Lexer.text].
  pose proof (sim_tokenize_loop self tl fuel 0 w2 _ Hr) as Hl.
  cbn [Heap.string_from Lexer.text] in Hl.
  unfold Heap.tokenize, Heap.bind.
  destruct (Lexer.tokenize_loop fuel content (Lexer.mk content [] 1)) as [st|];
    [|now rewrite Hl].
  destruct Hl as (w3 & E3 & Hr3 & K3). rewrite E3.
  destruct (rep_lexer_attrs self tl w3 st Hr3) as (_ & Hk & Hli & _).
  rewrite Hk, Hli.
  destruct (lexer_append self tl w3 st ("EOF", "", Lexer.line st) Hr3)
    as (w4 & E4 & Hr4 & K4).
  rewrite E4. exists w4. split; [reflexivity|]. split; [exact Hr4|].
  pose proof (kept_trans _ _ _ _ _ K3 K4) as (D & L & K).
  split; [exact D|]. split; [lia|].
  intros l Hl. rewrite K by (unfold self; lia). now apply Hold.
Qed.

(** The pipeline on the objects and on the text.  From any state of
    the interpreter it ends as [process_text] does; when it returns,
    it returns the address of a list that is new and holds the error
    list of [process_text]; it has made four objects, and changed no
    object that was there before, nor the flag. *)
Lemma sim_process_text fuel content w :
  match process_text fuel content with
  | Ok errs =>
      exists w',
        Heap.process_text fuel content w =
          Returns ((length (Heap.objects w) + 2)%nat, w') /\
        Heap.strings_at w' (length (Heap.objects w) + 2) = Some errs /\
        Heap.DEBUG w' = Heap.DEBUG w /\
        length (Heap.objects w') = (length (Heap.objects w) + 4)%nat /\
        forall l, (l < length (Heap.objects w))%nat ->
          nth_error (Heap.objects w') l = nth_error (Heap.objects w) l
  | IndexError => Heap.process_text fuel content w = Raises "IndexError"
  | OutOfFuel => Heap.process_text fuel content w = Unfinished
  end.
Proof.
  pose proof (sim_Lexer_init fuel content w) as Hl. unfold process_text.
  destruct (Lexer.init fuel content) as [lexer|];
    [|unfold Heap.process_text, Heap.bind; now rewrite Hl].
  destruct Hl as (w1 & E1 & Hr1 & D1 & L1 & K1).
  set (n := length (Heap.objects w)) in *.
  destruct (rep_lexer_attrs _ _ w1 lexer Hr1) as (_ & Hk & _).
  set (w2 := Heap.mkWorld (Heap.DEBUG w1)
               ((Heap.objects w1 ++ [Heap.StringList []]) ++
                [Heap.ParserObject n 0 (n + 2)]) (Heap.printed w1)).
  assert (Hinit : Heap.Parser_init n w1 = Returns ((n + 3)%nat, w2)).
  { unfold Heap.Parser_init, Heap.bind, Heap.new. cbn [Heap.objects Heap.DEBUG Heap.printed].
    rewrite length_app, L1. cbn [length]. unfold w2.
    replace (n + 2 + 1)%nat with (n + 3)%nat by lia. reflexivity. }
  assert (Hrun : Heap.process_text fuel content w =
                 Heap.bind (Heap.parse_program fuel (n + 3))
                   (fun _ => Heap.parser_errors (n + 3)) w2).
  { unfold Heap.process_text. unfold Heap.bind at 1. rewrite E1.
    unfold Heap.bind at 1. unfold Heap.get_tokens. rewrite Hk.
    unfold Heap.bind at 1. rewrite Hinit. reflexivity. }
  rewrite Hrun. clear Hrun.
  assert (Hr2 : rep (n + 3) n (n + 2) w2 (Parser_init (Lexer.get_tokens lexer))).
  { destruct Hr1 as (_ & Ht). unfold rep, w2.
    cbn [Heap.objects pos tokens errors Parser_init]. repeat split.
    - rewrite nth_error_app2; rewrite length_app, L1; cbn [length]; [|lia].
      replace (n + 3 - (n + 2 + 1))%nat with 0%nat by lia. reflexivity.
    - rewrite <- app_assoc. rewrite nth_error_app1 by lia. exact Ht.
    - rewrite nth_error_app1 by (rewrite length_app; cbn [length]; lia).
      rewrite nth_error_app2 by lia. now rewrite L1, Nat.sub_diag. }
  pose proof (sim_parse_program (n + 3) n (n + 2) fuel w2 _ Hr2) as Hp.
  unfold Heap.bind.
  destruct (parse_program fuel (Parser_init (Lexer.get_tokens lexer)))
    as [[[] s']| |]; [|now rewrite Hp|now rewrite Hp].
  destruct Hp as (w3 & E3 & Hr3 & D3 & L3 & K3). rewrite E3.
  rewrite (parser_errors_rep _ _ _ w3 s' Hr3).
  exists w3. split; [reflexivity|].
  assert (L2 : length (Heap.objects w2) = (n + 4)%nat).
  { unfold w2. cbn [Heap.objects]. rewrite !length_app, L1. cbn [length]. lia. }
  split; [|split; [|split]].
  - unfold Heap.strings_at. destruct Hr3 as (_ & _ & H3). now rewrite H3.
  - rewrite D3. unfold w2. cbn [Heap.DEBUG]. exact D1.
  - lia.
  - intros l Hl. rewrite K3 by lia. unfold w2. cbn [Heap.objects].
    rewrite <- app_assoc. rewrite nth_error_app1 by lia. now apply K1.
Qed.

(* ================================================================== *)
(** * Two runs of the pipeline *)

(** A run of [process_text] on the objects that returns is a run of
    [process_text] on the text that returns the same list. *)
Lemma heap_process_text_returns fuel content w errors w' :
  Heap.process_text fuel content w = Returns (errors, w') ->
  exists errs,
    process_text fuel content = Ok errs /\
    errors = (length (Heap.objects w) + 2)%nat /\
    Heap.strings_at w' errors = Some errs /\
    Heap.DEBUG w' = Heap.DEBUG w /\
    length (Heap.objects w') = (length (Heap.objects w) + 4)%nat /\
    forall l, (l < length (Heap.objects w))%nat ->
      nth_error (Heap.objects w') l = nth_error (Heap.objects w) l.
Proof.
  intros E. pose proof (sim_process_text fuel content w) as H.
  destruct (process_text fuel content) as [errs| |]; try congruence.
  destruct H as (w1 & E1 & Hs & D & L & K). rewrite E in E1.
  inversion E1; subst errors w1. exists errs. auto 10.
Qed.

(** C9: two runs of the pipeline on the same text give the same error
    list, and nothing is carried from one run to the next.  The runs
    are runs of [process_file]'s lines 198 to 204 on the objects of the
    interpreter, from any state of it: whatever the flag [DEBUG] is,
    whatever was printed and whatever objects earlier runs have left.
    (1) With the fuel of [check_syntax] or more the run returns, and
    the list it returns holds the error list [check_syntax] gives for
    the text (the stack is unbounded in the model).  (2) Two runs one
    after the other, the second from the state the first has left:
    the two lists are two objects, they hold the same entries, and the
    second run leaves the list of the first as it was.  (3) Two runs
    from any two states return lists with the same entries.  (4) A
    run changes no object that was there before it and leaves the flag
    as it was; the list it returns, the lexer, the parser and the
    token list are new objects. *)
Theorem pipeline_deterministic (content : string) :
  (exists errs,
     check_syntax content = Ok errs /\
     forall w fuel, (fuel_for content <= fuel)%nat ->
       exists errors w',
         Heap.process_text fuel content w = Returns (errors, w') /\
         Heap.strings_at w' errors = Some errs) /\
  (forall w fuel1 fuel2 errors1 w1 errors2 w2,
     Heap.process_text fuel1 content w = Returns (errors1, w1) ->
     Heap.process_text fuel2 content w1 = Returns (errors2, w2) ->
     errors1 <> errors2 /\
     exists errs,
       Heap.strings_at w1 errors1 = Some errs /\
       Heap.strings_at w2 errors1 = Some errs /\
       Heap.strings_at w2 errors2 = Some errs) /\
  (forall w w' fuel fuel' errors1 w1 errors2 w2,
     Heap.process_text fuel content w = Returns (errors1, w1) ->
     Heap.process_text fuel' content w' = Returns (errors2, w2) ->
     exists errs,
       check_syntax content = Ok errs /\
       Heap.strings_at w1 errors1 = Some errs /\
       Heap.strings_at w2 errors2 = Some errs) /\
  (forall w fuel errors w1,
     Heap.process_text fuel content w = Returns (errors, w1) ->
     Heap.DEBUG w1 = Heap.DEBUG w /\
     (length (Heap.objects w) <= errors)%nat /\
     length (Heap.objects w1) = (length (Heap.objects w) + 4)%nat /\
     forall l, (l < length (Heap.objects w))%nat ->
       nth_error (Heap.objects w1) l = nth_error (Heap.objects w) l).
Proof.
  destruct (process_text_enough content (fuel_for content) (le_n _)) as [errs0 E0].
  assert (Hsame : forall fuel errs, process_text fuel content = Ok errs -> errs = errs0).
  { intros fuel errs E.
    apply (process_text_mono fuel (Nat.max fuel (fuel_for content)) (Nat.le_max_l _ _)) in E.
    pose proof (process_text_mono _ (Nat.max fuel (fuel_for content))
                  (Nat.le_max_r _ _) _ _ E0) as E'.
    congruence. }
  split; [|split; [|split]].
  - exists errs0. split; [exact E0|]. intros w fuel Hf.
    pose proof (process_text_mono _ _ Hf _ _ E0) as E.
    pose proof (sim_process_text fuel content w) as H. rewrite E in H.
    destruct H as (w' & E' & Hs & _). eauto.
  - intros w fuel1 fuel2 errors1 w1 errors2 w2 H1 H2.
    destruct (heap_process_text_returns _ _ _ _ _ H1)
      as (errs1 & P1 & -> & S1 & _ & L1 & _).
    destruct (heap_process_text_returns _ _ _ _ _ H2)
      as (errs2 & P2 & -> & S2 & _ & _ & K2).
    rewrite (Hsame _ _ P1) in S1. rewrite (Hsame _ _ P2) in S2.
    split; [lia|]. exists errs0. split; [exact S1|]. split; [|exact S2].
    unfold Heap.strings_at in *. rewrite K2 by lia. exact S1.
  - intros w w' fuel fuel' errors1 w1 errors2 w2 H1 H2.
    destruct (heap_process_text_returns _ _ _ _ _ H1) as (errs1 & P1 & _ & S1 & _).
    destruct (heap_process_text_returns _ _ _ _ _ H2) as (errs2 & P2 & _ & S2 & _).
    rewrite (Hsame _ _ P1) in S1. rewrite (Hsame _ _ P2) in S2.
    exists errs0. auto.
  - intros w fuel errors w1 H1.
    destruct (heap_process_text_returns _ _ _ _ _ H1) as (errs1 & _ & -> & _ & D & L & K).
    split; [exact D|]. split; [lia|]. split; [exact L | exact K].
Qed.

Lemma pipeline_deterministic_witness :
  exists errors1 w1 errors2 w2,
    Heap.process_text 10 "a(b" world_used = Returns (errors1, w1) /\
    Heap.process_text 10 "a(b" w1 = Returns (errors2, w2) /\
    errors1 <> errors2 /\
    exists errs,
      Heap.strings_at w1 errors1 = Some errs /\
      Heap.strings_at w2 errors1 = Some errs /\
      Heap.strings_at w2 errors2 = Some errs.
Proof.
  destruct (Heap.process_text 10 "a(b" world_used) as [[errors1 w1]| |] eqn:E1;
    [|vm_compute in E1; discriminate|vm_compute in E1; discriminate].
  destruct (Heap.process_text 10 "a(b" w1) as [[errors2 w2]| |] eqn:E2.
  - exists errors1, w1, errors2, w2. split; [reflexivity|]. split; [exact E2|].
    exact (proj1 (proj2 (pipeline_deterministic "a(b"))
             world_used 10%nat 10%nat errors1 w1 errors2 w2 E1 E2).
  - exfalso. vm_compute in E1. inversion E1; subst. vm_compute in E2. discriminate.
  - exfalso. vm_compute in E1. inversion E1; subst. vm_compute in E2. discriminate.
Defined.
